(** * Wallet service of skycoin: a shallow embedding and its properties

    The development follows [package wallet]'s [Service] (the wallet
    registry): its error values, the [Service] struct, and every method
    of the service.  Collaborators that live outside the service file
    (the cipher package, the wallet file format, the os package, the
    random name source) are abstract and collected in type classes. *)

From Stdlib Require Import NArith String Ascii List.
From stdpp Require Import gmap strings list fin_maps.

Open Scope string_scope.
Open Scope list_scope.
Open Scope nat_scope.

(** ** Errors and results *)

(** The Go [error] values the service can return.  The source declares
    the name [ErrWalletNotExist] twice: as a package variable
    ([errors.New("wallet doesn't exist")]) and as a struct type carrying
    the wallet id.  The variable keeps the name; the struct value
    [ErrWalletNotExist{id}] is [ErrWalletNotExistID id].  [Errorf] stands
    for every error built by [fmt.Errorf] or [errors.New] elsewhere. *)
Inductive error : Type :=
| ErrWalletNotExist
| ErrWalletApiDisabled
| ErrWalletNotExistID (id : string)
| Errorf (msg : string).

(** [Error()] of each error value. *)
Definition Error (e : error) : string :=
  match e with
  | ErrWalletNotExist => "wallet doesn't exist"
  | ErrWalletApiDisabled => "wallet api disabled"
  | ErrWalletNotExistID id => "wallet " +:+ id +:+ " doesn't exist"
  | Errorf msg => msg
  end.

(** The type assertion [err.(ErrWalletNotExist)] of a caller that
    matches the struct form of the not-found error. *)
Definition isErrWalletNotExistStruct (e : error) : bool :=
  match e with
  | ErrWalletNotExistID _ => true
  | _ => false
  end.

(** Outcome of a call: a value, an error, a run-time panic (index out of
    range, nil dereference), or [OutOfFuel] when a loop of the model
    ran out of fuel. *)
Inductive Res (A : Type) : Type :=
| Ok (a : A)
| Err (e : error)
| Panic
| OutOfFuel.
Arguments Ok {A} a.
Arguments Err {A} e.
Arguments Panic {A}.
Arguments OutOfFuel {A}.

(** ** The cipher package *)

(** [cipher.Address] and its [String()] method. *)
Class Cipher : Type := {
  Address : Type;
  Address_String : Address → string;
}.

(** [cipher.SecKey] is [[32]byte]; [cipher.SecKey{}] is 32 zero bytes. *)
Definition zeroSecKey : string :=
  Eval cbv in string_of_list_ascii (repeat Ascii.zero 32).

(** [os.Stat] followed by [os.IsNotExist(err)] and [e.IsDir()]. *)
Inductive StatResult : Type :=
| StatFile
| StatDir
| StatNotExist
| StatError.

Section Model.
Context {C : Cipher}.

(** ** Wallet data *)

(** An entry of a wallet.  The service reads [Address] and [Secret] and
    writes [Secret] and [EncryptedSeckey]. *)
Record Entry : Type := {
  Entry_Address : Address;
  Public : string;
  Secret : string;
  EncryptedSeckey : string;
}.

Definition Entry_setEncryptedSeckey (sk : string) (e : Entry) : Entry :=
  {| Entry_Address := Entry_Address e; Public := Public e;
     Secret := Secret e; EncryptedSeckey := sk |}.

Definition Entry_setSecret (k : string) (e : Entry) : Entry :=
  {| Entry_Address := Entry_Address e; Public := Public e;
     Secret := k; EncryptedSeckey := EncryptedSeckey e |}.

(** An entry after [Encrypt]: the ciphertext stored, the secret zeroed. *)
Definition encryptedEntry (sk : string) (e : Entry) : Entry :=
  Entry_setSecret zeroSecKey (Entry_setEncryptedSeckey sk e).

(** Modelled from the spec: the [Wallet] struct is declared outside the
    service file.  Its fields are those of the spec's data model: id
    (also the persisted filename), label, version tag, seed, last-seed
    checkpoint, encrypted flag and the ordered entries. *)
Record Wallet : Type := {
  meta_filename : string;
  meta_label : string;
  meta_version : string;
  meta_seed : string;
  meta_lastSeed : string;
  meta_encrypted : bool;
  Entries : list Entry;
}.

(** Modelled from the spec: the accessors of [Wallet] the service calls
    ([Filename], [GetID], [Version], [seed], [lastSeed] and the setters)
    are declared outside the service file; each reads or writes the one
    field it names. *)
Definition Wallet_Filename (w : Wallet) : string := meta_filename w.
Definition Wallet_GetID (w : Wallet) : string := meta_filename w.
Definition Wallet_Version (w : Wallet) : string := meta_version w.
Definition Wallet_seed (w : Wallet) : string := meta_seed w.
Definition Wallet_lastSeed (w : Wallet) : string := meta_lastSeed w.

Definition Wallet_setVersion (v : string) (w : Wallet) : Wallet :=
  {| meta_filename := meta_filename w; meta_label := meta_label w;
     meta_version := v; meta_seed := meta_seed w;
     meta_lastSeed := meta_lastSeed w; meta_encrypted := meta_encrypted w;
     Entries := Entries w |}.

Definition Wallet_setSeed (sd : string) (w : Wallet) : Wallet :=
  {| meta_filename := meta_filename w; meta_label := meta_label w;
     meta_version := meta_version w; meta_seed := sd;
     meta_lastSeed := meta_lastSeed w; meta_encrypted := meta_encrypted w;
     Entries := Entries w |}.

Definition Wallet_setLastSeed (sd : string) (w : Wallet) : Wallet :=
  {| meta_filename := meta_filename w; meta_label := meta_label w;
     meta_version := meta_version w; meta_seed := meta_seed w;
     meta_lastSeed := sd; meta_encrypted := meta_encrypted w;
     Entries := Entries w |}.

Definition Wallet_setLabel (l : string) (w : Wallet) : Wallet :=
  {| meta_filename := meta_filename w; meta_label := l;
     meta_version := meta_version w; meta_seed := meta_seed w;
     meta_lastSeed := meta_lastSeed w; meta_encrypted := meta_encrypted w;
     Entries := Entries w |}.

Definition Wallet_setEntries (es : list Entry) (w : Wallet) : Wallet :=
  {| meta_filename := meta_filename w; meta_label := meta_label w;
     meta_version := meta_version w; meta_seed := meta_seed w;
     meta_lastSeed := meta_lastSeed w; meta_encrypted := meta_encrypted w;
     Entries := es |}.

(** [w.Entries[i] = f(w.Entries[i])]: an assignment to a field of the
    i-th entry. *)
Definition Wallet_alterEntry (i : nat) (f : Entry → Entry) (w : Wallet) : Wallet :=
  Wallet_setEntries (alter f i (Entries w)) w.

(** [clone] and [Copy] make a deep copy.  Values are immutable here, so
    the copy is the value itself; sharing is modelled where it exists,
    by writing through to the registry (see [wmodify]). *)
Definition Wallet_clone (w : Wallet) : Wallet := w.
Definition Wallet_Copy (w : Wallet) : Wallet := w.

(** Modelled from the spec: [GetAddresses] of [Wallet] is declared
    outside the service file; it lists the entries' addresses in entry
    order. *)
Definition Wallet_GetAddresses (w : Wallet) : list Address :=
  Entry_Address <$> Entries w.

(** [Options] of [NewWallet]; the service fills [Label] and [Seed]. *)
Record Options : Type := {
  Label : string;
  Seed : string;
}.

(** [BalanceGetter] interface: one method, the batched balance lookup. *)
Record BalanceGetter (BalancePair : Type) : Type := {
  GetBalanceOfAddrs : list Address → Res (list BalancePair);
}.
Arguments GetBalanceOfAddrs {BalancePair} _ _.

(** ** Collaborators of the service *)

(** Everything the service calls and does not define.  [World] is the
    state outside the process (the wallet directory, the clock and the
    random source); a collaborator that touches it takes the world and
    returns the new one.  [rangeOrder] is the order in which a [range]
    over a map visits its entries: some permutation of them. *)
Class Env (World : Type) : Type := {
  Version : string;
  Encrypt : string → string → Res string;
  NewWallet : string → Options → Res Wallet;
  deriveEntry : string → Res (Entry * string);
  BalancePair : Type;
  positive : BalancePair → bool;
  TxRequest : Type;
  Transaction : Type;
  Wallet_CreateAndSignTransaction : Wallet → TxRequest → Res Transaction;
  filepath_Join : string → string → string;
  os_MkdirAll : string → World → option error * World;
  os_Stat : string → World → StatResult * World;
  os_Remove : string → World → option error * World;
  LoadWallets : string → World → Res (gmap string Wallet) * World;
  Save : string → Wallet → World → option error * World;
  NewWalletFilename : World → string * World;
  bip39_NewDefaultMnemomic : World → Res string * World;
  rangeOrder : gmap string Wallet → list (string * Wallet);
  rangeOrder_perm : ∀ m, rangeOrder m ≡ₚ map_to_list m;
}.

(** ** The registry *)

Record Service : Type := {
  wallets : gmap string Wallet;
  firstAddrIDMap : gmap string string;
  disableWalletAPI : bool;
  WalletDirectory : string;
}.

Definition Service_setWallets (m : gmap string Wallet) (s : Service) : Service :=
  {| wallets := m; firstAddrIDMap := firstAddrIDMap s;
     disableWalletAPI := disableWalletAPI s;
     WalletDirectory := WalletDirectory s |}.

Definition Service_setFirstAddrIDMap (m : gmap string string) (s : Service) : Service :=
  {| wallets := wallets s; firstAddrIDMap := m;
     disableWalletAPI := disableWalletAPI s;
     WalletDirectory := WalletDirectory s |}.

Definition Service_setWalletDirectory (d : string) (s : Service) : Service :=
  {| wallets := wallets s; firstAddrIDMap := firstAddrIDMap s;
     disableWalletAPI := disableWalletAPI s;
     WalletDirectory := d |}.

Section Registry.
Context {World : Type} {E : Env World}.

(** *** A state and error monad for the methods of [*Service]

    A method runs on the registry and the world and returns its outcome
    with both.  An error does not undo what the method did before it:
    the state at the point of the [return] is the state the caller
    sees. *)
Definition M (A : Type) : Type := Service → World → Res A * Service * World.

Definition ret {A} (a : A) : M A := λ s σ, (Ok a, s, σ).

Definition bind {A B} (c : M A) (k : A → M B) : M B := λ s σ,
  match c s σ with
  | (Ok a, s', σ') => k a s' σ'
  | (Err e, s', σ') => (Err e, s', σ')
  | (Panic, s', σ') => (Panic, s', σ')
  | (OutOfFuel, s', σ') => (OutOfFuel, s', σ')
  end.

#[global] Instance M_ret : MRet M := @ret.
#[global] Instance M_bind : MBind M := λ A B k c, bind c k.

Definition throw {A} (e : error) : M A := λ s σ, (Err e, s, σ).
Definition panic {A} : M A := λ s σ, (Panic, s, σ).
Definition gets {A} (f : Service → A) : M A := λ s σ, (Ok (f s), s, σ).
Definition modify (f : Service → Service) : M unit := λ s σ, (Ok tt, f s, σ).

(** A pure collaborator call. *)
Definition liftRes {A} (r : Res A) : M A := λ s σ, (r, s, σ).

(** A collaborator call on the world that returns [(value, error)]. *)
Definition liftIO {A} (f : World → Res A * World) : M A := λ s σ,
  let '(r, σ') := f σ in (r, s, σ').

(** A collaborator call on the world that returns only an [error]. *)
Definition liftErr (f : World → option error * World) : M unit := λ s σ,
  match f σ with
  | (None, σ') => (Ok tt, s, σ')
  | (Some e, σ') => (Err e, s, σ')
  end.

(** [if err := c; err != nil { ... }]: run [c] and hand its error, if
    any, to the caller instead of returning it. *)
Definition try (c : M unit) : M (option error) := λ s σ,
  match c s σ with
  | (Ok _, s', σ') => (Ok None, s', σ')
  | (Err e, s', σ') => (Ok (Some e), s', σ')
  | (Panic, s', σ') => (Panic, s', σ')
  | (OutOfFuel, s', σ') => (OutOfFuel, s', σ')
  end.

(** [xs[i]] on a slice: panics out of range. *)
Definition index {A} (xs : list A) (i : nat) : M A :=
  match xs !! i with
  | Some x => ret x
  | None => panic
  end.

(** [for _, x := range xs { body }] with early return on error. *)
Fixpoint forM_ {A} (xs : list A) (body : A → M unit) : M unit :=
  match xs with
  | [] => ret tt
  | x :: xs' => body x;; forM_ xs' body
  end.

(** *** [Wallets]: [map[string]*Wallet]

    Modelled from the spec: the [Wallets] type and its methods [Get],
    [Add], [Remove], [set] and [update] are declared outside the service
    file.  [wallets] maps a wallet id to a wallet, with unique ids.  The
    values of the Go map are pointers: [GetWallets] stores the [*Wallet]
    of [clone] in a [Wallets], [getWallet] clones what [Get] returns,
    and [NewAddresses] and [Encrypt] change the wallet [Get] returned
    and never store it back.  A pointer into the map is the id it is
    stored under, and a write through it ([wmodify]) changes the stored
    wallet. *)
Definition Wallets_Get (wlts : gmap string Wallet) (wltID : string) : option Wallet :=
  wlts !! wltID.

(** [Add] inserts under the wallet's filename and refuses an id that is
    taken. *)
Definition Wallets_Add (w : Wallet) : M unit := λ s σ,
  match wallets s !! Wallet_Filename w with
  | Some _ => (Err (Errorf "wallets: duplicate wallet filename"), s, σ)
  | None => (Ok tt, Service_setWallets (<[Wallet_Filename w := w]> (wallets s)) s, σ)
  end.

Definition Wallets_Remove (id : string) (wlts : gmap string Wallet) : gmap string Wallet :=
  delete id wlts.

(** [set] replaces the stored wallet by a clone of [w]. *)
Definition Wallets_set (w : Wallet) : M unit :=
  modify (λ s, Service_setWallets (<[Wallet_Filename w := Wallet_clone w]> (wallets s)) s).

(** [update] applies [f] to the stored wallet in place; an absent id is
    the error [NotFound(id)]. *)
Definition Wallets_update (id : string) (f : Wallet → Wallet) : M unit := λ s σ,
  match wallets s !! id with
  | None => (Err (ErrWalletNotExistID id), s, σ)
  | Some w => (Ok tt, Service_setWallets (<[id := f w]> (wallets s)) s, σ)
  end.

(** The registry with [w] stored under [p]. *)
Definition store (p : string) (w : Wallet) (s : Service) : Service :=
  Service_setWallets (<[p := w]> (wallets s)) s.

(** Read through the pointer [p]. *)
Definition wread (p : string) : M Wallet := λ s σ,
  match wallets s !! p with
  | Some w => (Ok w, s, σ)
  | None => (Panic, s, σ)
  end.

(** Write through the pointer [p]: [w.field = ...] on the stored wallet. *)
Definition wmodify (p : string) (f : Wallet → Wallet) : M unit :=
  modify (λ s, Service_setWallets (alter f p (wallets s)) s).

(** *** Methods of [Wallet] that change it

    A method with a pointer receiver takes the wallet and returns its
    outcome with the wallet as the method left it. *)

(** Deterministic derivation from a seed checkpoint: the next [n]
    entries, each with the checkpoint that follows it. *)
Fixpoint generate (n : nat) (sd : string) : Res (list (Entry * string)) :=
  match n with
  | 0 => Ok []
  | S n' =>
    match deriveEntry sd with
    | Ok (e, sd') =>
      match generate n' sd' with
      | Ok ps => Ok ((e, sd') :: ps)
      | Err x => Err x
      | Panic => Panic
      | OutOfFuel => OutOfFuel
      end
    | Err x => Err x
    | Panic => Panic
    | OutOfFuel => OutOfFuel
    end
  end.

(** The checkpoint after the derived entries [ps], [sd0] when there are
    none. *)
Definition checkpoint (sd0 : string) (ps : list (Entry * string)) : string :=
  default sd0 (last (ps.*2)).

(** Modelled from the spec: [GenerateAddresses] of [Wallet] is declared
    outside the service file.  It derives [num] new entries from the
    last-seed checkpoint, appends them (entries are never reordered, new
    entries only append), moves the checkpoint and returns the new
    addresses; a failed derivation is returned as the error. *)
Definition Wallet_GenerateAddresses (num : N) (w : Wallet) : Res (list Address) * Wallet :=
  match generate (N.to_nat num) (Wallet_lastSeed w) with
  | Ok ps =>
    (Ok (Entry_Address <$> ps.*1),
     Wallet_setLastSeed (checkpoint (Wallet_lastSeed w) ps)
       (Wallet_setEntries (Entries w ++ ps.*1) w))
  | Err x => (Err x, w)
  | Panic => (Panic, w)
  | OutOfFuel => (OutOfFuel, w)
  end.

(** One more than the index of the highest-indexed balance that is
    strictly positive; 0 when there is none. *)
Fixpoint keepNum (bals : list BalancePair) : nat :=
  match bals with
  | [] => 0
  | b :: bs =>
    match keepNum bs with
    | 0 => if positive b then 1 else 0
    | S k => S (S k)
    end
  end.

(** Modelled from the spec: [ScanAddresses] of [Wallet] is declared
    outside the service file; this is the Scan-Ahead Protocol.
    1. derive [scanN] candidate entries beyond the current ones;
    2. look up the balances of all candidates in one batch;
    3. keep the candidates up to and including the highest-indexed one
       with a strictly positive balance, discard those beyond it;
    4. with no positive balance the entries stay as they were;
    5. the last-seed checkpoint follows the retained entries.
    A nil [BalanceGetter] panics at the lookup. *)
Definition Wallet_ScanAddresses (scanN : N) (bg : option (BalanceGetter BalancePair))
    (w : Wallet) : Res unit * Wallet :=
  match generate (N.to_nat scanN) (Wallet_lastSeed w) with
  | Ok ps =>
    match bg with
    | None => (Panic, w)
    | Some g =>
      match GetBalanceOfAddrs g (Entry_Address <$> ps.*1) with
      | Ok bals =>
        let kept := take (keepNum bals) ps in
        (Ok tt,
         Wallet_setLastSeed (checkpoint (Wallet_lastSeed w) kept)
           (Wallet_setEntries (Entries w ++ kept.*1) w))
      | Err x => (Err x, w)
      | Panic => (Panic, w)
      | OutOfFuel => (OutOfFuel, w)
      end
    end
  | Err x => (Err x, w)
  | Panic => (Panic, w)
  | OutOfFuel => (OutOfFuel, w)
  end.

(** Call a method of [*Wallet] through the pointer [p]: the stored
    wallet is what the method left, whatever its outcome. *)
Definition wrun {A} (p : string) (c : Wallet → Res A * Wallet) : M A := λ s σ,
  match wallets s !! p with
  | Some w =>
    let '(r, w') := c w in
    (r, Service_setWallets (<[p := w']> (wallets s)) s, σ)
  | None => (Panic, s, σ)
  end.

(** *** Methods of [*Service] *)

Definition getWallet (wltID : string) : M Wallet :=
  ow ← gets (λ s, Wallets_Get (wallets s) wltID);
  match ow with
  | None => throw ErrWalletNotExist
  | Some w => ret (Wallet_clone w)
  end.

Definition Service_GetWallet (wltID : string) : M Wallet :=
  getWallet wltID.

Definition Service_GetWallets : M (gmap string Wallet) :=
  gets (λ s, Wallet_clone <$> wallets s).

Definition Service_GetAddresses (wltID : string) : M (list Address) :=
  ow ← gets (λ s, Wallets_Get (wallets s) wltID);
  match ow with
  | None => throw (ErrWalletNotExistID wltID)
  | Some w => ret (Wallet_GetAddresses w)
  end.

Definition Service_Remove (wltID : string) : M unit :=
  modify (λ s, Service_setWallets (Wallets_Remove wltID (wallets s)) s).

Fixpoint generateUniqueWalletFilename (fuel : nat) : M string := λ s σ,
  match fuel with
  | 0 => (OutOfFuel, s, σ)
  | S fuel' =>
    let '(wltName, σ') := NewWalletFilename σ in
    match Wallets_Get (wallets s) wltName with
    | None => (Ok wltName, s, σ')
    | Some _ => generateUniqueWalletFilename fuel' s σ'
    end
  end.

Definition loadWallet (wltName : string) (options : Options) (scanN : N)
    (bg : option (BalanceGetter BalancePair)) : M Wallet :=
  w ← liftRes (NewWallet wltName options);
  (* Generate a default address; the results are dropped *)
  let w := (Wallet_GenerateAddresses 1 w).2 in
  (* Check for duplicate wallets by initial seed *)
  e0 ← index (Entries w) 0;
  oid ← gets (λ s, firstAddrIDMap s !! Address_String (Entry_Address e0));
  match oid with
  | Some id => throw (Errorf ("duplicate wallet with " +:+ id))
  | None =>
    (* Scan for addresses with balances *)
    w ← (if (1 <? scanN)%N && bool_decide (is_Some bg)
         then let '(r, w') := Wallet_ScanAddresses (scanN - 1) bg w in
              liftRes r;; ret w'
         else ret w);
    Wallets_Add w;;
    dir ← gets WalletDirectory;
    oerr ← try (liftErr (Save dir w));
    match oerr with
    | Some err =>
      (* If save fails, remove the added wallet *)
      modify (λ s, Service_setWallets (Wallets_Remove (Wallet_GetID w) (wallets s)) s);;
      throw err
    | None =>
      e0 ← index (Entries w) 0;
      modify (λ s, Service_setFirstAddrIDMap
                     (<[Address_String (Entry_Address e0) := Wallet_Filename w]>
                        (firstAddrIDMap s)) s);;
      ret (Wallet_Copy w)
    end
  end.

Definition Service_CreateWallet (fuel : nat) (wltName : string) (options : Options) : M Wallet :=
  disabled ← gets disableWalletAPI;
  if (disabled : bool) then throw ErrWalletApiDisabled
  else
    wltName ← (if String.eqb wltName "" then generateUniqueWalletFilename fuel
               else ret wltName);
    loadWallet wltName options 0 None.

Definition Service_ScanAheadWalletAddresses (wltName : string) (scanN : N)
    (bg : option (BalanceGetter BalancePair)) : M Wallet :=
  w ← getWallet wltName;
  w ← (let '(r, w') := Wallet_ScanAddresses scanN bg w in liftRes r;; ret w');
  (* the source passes only the directory to Save here *)
  dir ← gets WalletDirectory;
  liftErr (Save dir w);;
  Wallets_set w;;
  ret (Wallet_Copy w).

(** The body of the loop of [Encrypt] over [w.Entries], at index [i];
    [p] is the pointer [w]. *)
Definition Service_Encrypt_entry (p password : string) (i : nat) : M unit :=
  w ← wread p;
  e ← index (Entries w) i;
  sk ← liftRes (Encrypt (Secret e) password);
  wmodify p (Wallet_alterEntry i (Entry_setEncryptedSeckey sk));;
  wmodify p (Wallet_alterEntry i (Entry_setSecret zeroSecKey)).

(** [Encrypt] works on [w], the pointer [Get] returned: every
    assignment is a write to the stored wallet. *)
Definition Service_Encrypt (wltID password : string) : M Wallet :=
  ow ← gets (λ s, Wallets_Get (wallets s) wltID);
  match ow with
  | None => throw (ErrWalletNotExistID wltID)
  | Some w0 =>
    let p := wltID in
    let oldVersion := Wallet_Version w0 in
    (* Update version to latest *)
    wmodify p (Wallet_setVersion Version);;
    (* encrypt seed *)
    w ← wread p;
    sseed ← liftRes (Encrypt (Wallet_seed w) password);
    wmodify p (Wallet_setSeed sseed);;
    (* encrypt lastSeed *)
    w ← wread p;
    lsseed ← liftRes (Encrypt (Wallet_lastSeed w) password);
    wmodify p (Wallet_setLastSeed lsseed);;
    (* encrypts private keys in entries *)
    w ← wread p;
    forM_ (seq 0 (length (Entries w))) (Service_Encrypt_entry p password);;
    w ← wread p;
    dir ← gets WalletDirectory;
    liftErr (Save dir w);;
    (* Delete the .bak file if the previous version is 0.1 *)
    (if String.eqb oldVersion "0.1" then
       let fn := Wallet_Filename w +:+ ".bak" in
       let path := filepath_Join dir fn in
       st ← liftIO (λ σ, let '(r, σ') := os_Stat path σ in (Ok r, σ'));
       match st with
       | StatNotExist => ret tt
       | StatError => panic
       | StatDir => ret tt
       | StatFile => liftErr (os_Remove path)
       end
     else ret tt);;
    w ← wread p;
    ret (Wallet_clone w)
  end.

Definition Service_NewAddresses (wltID : string) (num : N) : M (list Address) :=
  ow ← gets (λ s, Wallets_Get (wallets s) wltID);
  match ow with
  | None => throw (ErrWalletNotExistID wltID)
  | Some _ =>
    let p := wltID in
    addrs ← wrun p (Wallet_GenerateAddresses num);
    w ← wread p;
    dir ← gets WalletDirectory;
    liftErr (Save dir w);;
    ret addrs
  end.

Definition Service_CreateAndSignTransaction (wltID : string) (req : TxRequest) : M Transaction :=
  ow ← gets (λ s, Wallets_Get (wallets s) wltID);
  match ow with
  | None => throw (ErrWalletNotExistID wltID)
  | Some w => liftRes (Wallet_CreateAndSignTransaction w req)
  end.

Definition Service_UpdateWalletLabel (wltID label : string) : M unit :=
  Wallets_update wltID (Wallet_setLabel label);;
  wlt ← wread wltID;
  dir ← gets WalletDirectory;
  liftErr (Save dir wlt).

(** The first loop of [removeDup] over the entries of [wlts] in the
    order [visit]; [rmWltIDS] is the slice of ids to remove. *)
Fixpoint removeDup_loop (visit : list (string * Wallet)) (wlts : gmap string Wallet)
    (rmWltIDS : list string) : M (list string) :=
  match visit with
  | [] => ret rmWltIDS
  | (wltID, wlt) :: rest =>
    if (length (Entries wlt) =? 0)%nat then
      (* empty wallet *)
      removeDup_loop rest wlts (rmWltIDS ++ [wltID])
    else
      e0 ← index (Entries wlt) 0;
      let addr := Address_String (Entry_Address e0) in
      oid ← gets (λ s, firstAddrIDMap s !! addr);
      match oid with
      | Some id =>
        (* check whose entries number is bigger *)
        match Wallets_Get wlts id with
        | None => panic
        | Some pw =>
          if (length (Entries wlt) <=? length (Entries pw))%nat then
            removeDup_loop rest wlts (rmWltIDS ++ [wltID])
          else
            (* replace the old wallet with the new one *)
            modify (λ s, Service_setFirstAddrIDMap (<[addr := wltID]> (firstAddrIDMap s)) s);;
            removeDup_loop rest wlts (rmWltIDS ++ [id])
        end
      | None =>
        modify (λ s, Service_setFirstAddrIDMap (<[addr := wltID]> (firstAddrIDMap s)) s);;
        removeDup_loop rest wlts rmWltIDS
      end
  end.

(** [removeDup] with the visiting order of its [range] made explicit. *)
Definition removeDup_in (visit : list (string * Wallet)) (wlts : gmap string Wallet)
    : M (gmap string Wallet) :=
  rmWltIDS ← removeDup_loop visit wlts [];
  (* remove the duplicate and empty wallet *)
  ret (foldl (λ m id, Wallets_Remove id m) wlts rmWltIDS).

Definition removeDup (wlts : gmap string Wallet) : M (gmap string Wallet) :=
  removeDup_in (rangeOrder wlts) wlts.

Definition Service_ReloadWallets : M unit :=
  disabled ← gets disableWalletAPI;
  if (disabled : bool) then throw ErrWalletApiDisabled
  else
    dir ← gets WalletDirectory;
    wlts ← liftIO (LoadWallets dir);
    modify (Service_setFirstAddrIDMap ∅);;
    wlts ← removeDup wlts;
    modify (Service_setWallets wlts).

(** What [NewService] does once the wallets are loaded. *)
Definition NewService_init (fuel : nat) (w : gmap string Wallet) : M unit :=
  wlts ← removeDup w;
  modify (Service_setWallets wlts);;
  n ← gets (λ s, size (wallets s));
  if (n =? 0)%nat then
    seed ← liftIO bip39_NewDefaultMnemomic;
    (* create default wallet *)
    w ← Service_CreateWallet fuel "" {| Label := "Your Wallet"; Seed := seed |};
    dir ← gets WalletDirectory;
    oerr ← try (liftErr (Save dir w));
    match oerr with
    | Some err =>
      throw (Errorf ("failed to save wallets to " +:+ dir +:+ ": " +:+ Error err))
    | None => ret tt
    end
  else ret tt.

Definition NewService (fuel : nat) (walletDir : string) (disable : bool) (σ : World)
    : Res Service * World :=
  let serv := {| wallets := ∅; firstAddrIDMap := ∅;
                 disableWalletAPI := disable; WalletDirectory := "" |} in
  if disableWalletAPI serv then (Ok serv, σ)
  else
    match os_MkdirAll walletDir σ with
    | (Some err, σ1) =>
      (Err (Errorf ("failed to create wallet directory " +:+ walletDir +:+ ": "
                    +:+ Error err)), σ1)
    | (None, σ1) =>
      let serv := Service_setWalletDirectory walletDir serv in
      match LoadWallets (WalletDirectory serv) σ1 with
      | (Err err, σ2) =>
        (Err (Errorf ("failed to load all wallets: " +:+ Error err)), σ2)
      | (Panic, σ2) => (Panic, σ2)
      | (OutOfFuel, σ2) => (OutOfFuel, σ2)
      | (Ok w, σ2) =>
        match NewService_init fuel w serv σ2 with
        | (Ok _, serv', σ3) => (Ok serv', σ3)
        | (Err err, _, σ3) => (Err err, σ3)
        | (Panic, _, σ3) => (Panic, σ3)
        | (OutOfFuel, _, σ3) => (OutOfFuel, σ3)
        end
      end
    end.

(** *** The deduplication pass

    The first address of a wallet in string form; none for a wallet
    without entries. *)
Definition firstAddress (w : Wallet) : option string :=
  fmap (M:=option) (λ e, Address_String (Entry_Address e)) (Entries w !! 0).

(** [id] is visited before [id'] in [visit]. *)
Definition precedes (visit : list (string * Wallet)) (id id' : string) : Prop :=
  ∃ i j, (i < j)%nat ∧ (visit.*1) !! i = Some id ∧ (visit.*1) !! j = Some id'.

(** What holds after the loop of [removeDup] has visited [seen]. *)
Record dedup_inv (seen : list (string * Wallet)) (idx : gmap string string)
    (rm : list string) : Prop := {
  inv_winner : ∀ a id, idx !! a = Some id →
    ∃ w, (id, w) ∈ seen ∧ firstAddress w = Some a ∧ (id ∉ rm)
       ∧ (∀ id' w', (id', w') ∈ seen → firstAddress w' = Some a → id' ≠ id →
           id' ∈ rm
           ∧ (length (Entries w') ≤ length (Entries w))%nat
           ∧ (length (Entries w') = length (Entries w) → precedes seen id id'));
  inv_empty : ∀ id w, (id, w) ∈ seen → firstAddress w = None → id ∈ rm;
  inv_indexed : ∀ id w a, (id, w) ∈ seen → firstAddress w = Some a → is_Some (idx !! a);
  inv_rm : ∀ id, id ∈ rm → id ∈ seen.*1;
}.

(** A computation that leaves the disabled flag of the registry as it
    was. *)
Definition keepsConfig {A} (c : M A) : Prop :=
  ∀ s σ, disableWalletAPI (c s σ).1.2 = disableWalletAPI s.

(** *** Registry states

    The registry states are those [NewService] returns and those a
    method call leads to. *)
Inductive step : Service → Service → Prop :=
| step_CreateWallet fuel wltName options s σ r s' σ' :
    Service_CreateWallet fuel wltName options s σ = (r, s', σ') → step s s'
| step_ScanAheadWalletAddresses wltName scanN bg s σ r s' σ' :
    Service_ScanAheadWalletAddresses wltName scanN bg s σ = (r, s', σ') → step s s'
| step_Encrypt wltID password s σ r s' σ' :
    Service_Encrypt wltID password s σ = (r, s', σ') → step s s'
| step_NewAddresses wltID num s σ r s' σ' :
    Service_NewAddresses wltID num s σ = (r, s', σ') → step s s'
| step_GetAddresses wltID s σ r s' σ' :
    Service_GetAddresses wltID s σ = (r, s', σ') → step s s'
| step_GetWallet wltID s σ r s' σ' :
    Service_GetWallet wltID s σ = (r, s', σ') → step s s'
| step_GetWallets s σ r s' σ' :
    Service_GetWallets s σ = (r, s', σ') → step s s'
| step_ReloadWallets s σ r s' σ' :
    Service_ReloadWallets s σ = (r, s', σ') → step s s'
| step_CreateAndSignTransaction wltID req s σ r s' σ' :
    Service_CreateAndSignTransaction wltID req s σ = (r, s', σ') → step s s'
| step_UpdateWalletLabel wltID label s σ r s' σ' :
    Service_UpdateWalletLabel wltID label s σ = (r, s', σ') → step s s'
| step_Remove wltID s σ r s' σ' :
    Service_Remove wltID s σ = (r, s', σ') → step s s'.

Inductive reachable : Service → Prop :=
| reachable_new fuel walletDir disable σ s σ' :
    NewService fuel walletDir disable σ = (Ok s, σ') → reachable s
| reachable_step s s' :
    reachable s → step s s' → reachable s'.

(** The world after [j] calls of [NewWalletFilename]. *)
Fixpoint afterNames (j : nat) (σ : World) : World :=
  match j with
  | 0 => σ
  | S j' => afterNames j' (NewWalletFilename σ).2
  end.

(** The name [CreateWallet] uses: the given one, or a generated one when
    it is empty. *)
Definition walletName (fuel : nat) (wltName : string) : M string :=
  if String.eqb wltName "" then generateUniqueWalletFilename fuel
  else ret wltName.

(** *** Derived notions used in the statements *)

(** The public part of the entries: addresses and public keys, in order. *)
Definition publicPart (es : list Entry) : list (Address * string) :=
  (λ e, (Entry_Address e, Public e)) <$> es.

(** [w'] is [w] up to its version, seed, last seed and the secrets of its entries. *)
Definition sameIdentity (w w' : Wallet) : Prop :=
  meta_filename w' = meta_filename w
  ∧ meta_label w' = meta_label w
  ∧ meta_encrypted w' = meta_encrypted w
  ∧ publicPart (Entries w') = publicPart (Entries w).

(** The entries with every secret key encrypted, when the primitive
    succeeds on each of them. *)
Fixpoint encryptedEntries (password : string) (es : list Entry) : option (list Entry) :=
  match es with
  | [] => Some []
  | e :: es' =>
    match Encrypt (Secret e) password with
    | Ok sk =>
      match encryptedEntries password es' with
      | Some es'' => Some (encryptedEntry sk e :: es'')
      | None => None
      end
    | _ => None
    end
  end.

(** The wallet [Encrypt] builds when the primitive succeeds on the seed,
    the last seed and every secret key. *)
Definition encryptedWallet (password : string) (w : Wallet) : option Wallet :=
  match Encrypt (Wallet_seed w) password, Encrypt (Wallet_lastSeed w) password,
        encryptedEntries password (Entries w) with
  | Ok sseed, Ok lsseed, Some es =>
    Some (Wallet_setEntries es
            (Wallet_setLastSeed lsseed
               (Wallet_setSeed sseed (Wallet_setVersion Version w))))
  | _, _, _ => None
  end.

(** The registry after [loadWallet] has added [w] and recorded its
    first address [a]. *)
Definition registered (w : Wallet) (a : string) (s : Service) : Service :=
  Service_setFirstAddrIDMap (<[a := Wallet_Filename w]> (firstAddrIDMap s))
    (store (Wallet_Filename w) w s).

(** The call returned no value: an error, a panic, or no fuel left. *)
Definition failed {A} (r : Res A) : Prop := ∀ a, r ≠ Ok a.

(** [LoadWallets] stores every wallet it loads under the wallet's
    filename. *)
Definition loaderKeysByFilename : Prop :=
  ∀ dir σ m σ', LoadWallets dir σ = (Ok m, σ') →
    ∀ id w, m !! id = Some w → Wallet_Filename w = id.

(** The registry invariant: every wallet is stored under its filename,
    has a first address, and the index maps that address to the
    wallet's id. *)
Record registry_inv (s : Service) : Prop := {
  reg_keys : ∀ id w, wallets s !! id = Some w → Wallet_Filename w = id;
  reg_first : ∀ id w, wallets s !! id = Some w →
    ∃ a, firstAddress w = Some a ∧ firstAddrIDMap s !! a = Some id;
}.

(** The registry [NewService] builds with the disabled flag. *)
Definition disabledService : Service :=
  {| wallets := ∅; firstAddrIDMap := ∅;
     disableWalletAPI := true; WalletDirectory := "" |}.

(** The registry of [NewService] without the disabled flag when it
    calls [LoadWallets]: nothing stored, the directory set. *)
Definition enabledService (walletDir : string) : Service :=
  {| wallets := ∅; firstAddrIDMap := ∅;
     disableWalletAPI := false; WalletDirectory := walletDir |}.

End Registry.
End Model.

Arguments GetBalanceOfAddrs {C BalancePair} _ _.

(** ** A concrete set of collaborators

    Used to run the service on explicit inputs.  Addresses are their
    string form.  The world logs every access to the wallet directory;
    [diskFull] makes [Save] fail; [names] feeds [NewWalletFilename]. *)
Module Concrete.

Definition cCipher : Cipher :=
  {| Address := string; Address_String := λ a, a |}.
#[local] Existing Instance cCipher.

Record CWorld : Type := {
  log : list string;
  diskFull : bool;
  names : list string;
}.

Definition logged (ev : string) (σ : CWorld) : CWorld :=
  {| log := log σ ++ [ev]; diskFull := diskFull σ; names := names σ |}.

(** The primitive refuses an empty password and an empty plaintext. *)
Definition cEncrypt (data password : string) : Res string :=
  if String.eqb password "" then Err (Errorf "missing password")
  else if String.eqb data "" then Err (Errorf "missing data")
  else Ok ("enc(" +:+ data +:+ ")").

Definition freshWallet (wltName label sd : string) : Wallet :=
  {| meta_filename := wltName; meta_label := label;
     meta_version := "0.2"; meta_seed := sd;
     meta_lastSeed := sd; meta_encrypted := false;
     Entries := [] |}.

Definition cNewWallet (wltName : string) (options : Options) : Res Wallet :=
  if String.eqb (Seed options) "" then Err (Errorf "seed missing")
  else Ok (freshWallet wltName (Label options) (Seed options)).

Definition entryOf (sd : string) : Entry :=
  {| Entry_Address := "addr(" +:+ sd +:+ ")"; Public := "pub(" +:+ sd +:+ ")";
     Secret := "sec(" +:+ sd +:+ ")"; EncryptedSeckey := "" |}.

Definition cderiveEntry (sd : string) : Res (Entry * string) :=
  Ok (entryOf sd, "next(" +:+ sd +:+ ")").

Definition cSave (dir : string) (w : Wallet) (σ : CWorld) : option error * CWorld :=
  (if diskFull σ then Some (Errorf "no space left on device") else None,
   logged ("save " +:+ Wallet_Filename w) σ).

Definition cNewWalletFilename (σ : CWorld) : string * CWorld :=
  match names σ with
  | [] => ("wallet.wlt", σ)
  | n :: ns => (n, {| log := log σ; diskFull := diskFull σ; names := ns |})
  end.

Definition cEnv : Env CWorld :=
  {| Version := "0.2";
     Encrypt := cEncrypt;
     NewWallet := cNewWallet;
     deriveEntry := cderiveEntry;
     BalancePair := N;
     positive := λ b, (0 <? b)%N;
     TxRequest := unit;
     Transaction := string;
     Wallet_CreateAndSignTransaction := λ w _, Ok ("tx from " +:+ Wallet_Filename w);
     filepath_Join := λ d f, d +:+ "/" +:+ f;
     os_MkdirAll := λ d σ, (None, logged ("mkdir " +:+ d) σ);
     os_Stat := λ p σ, (StatNotExist, logged ("stat " +:+ p) σ);
     os_Remove := λ p σ, (None, logged ("remove " +:+ p) σ);
     LoadWallets := λ d σ, (Ok ∅, logged ("load " +:+ d) σ);
     Save := cSave;
     NewWalletFilename := cNewWalletFilename;
     bip39_NewDefaultMnemomic := λ σ, (Ok "default mnemonic", σ);
     rangeOrder := map_to_list;
     rangeOrder_perm := λ m, reflexivity (map_to_list m) |}.

Definition world0 : CWorld := {| log := []; diskFull := false; names := [] |}.

(** A legacy wallet with one entry, not yet encrypted. *)
Definition legacyWallet : Wallet :=
  {| meta_filename := "w1.wlt"; meta_label := "savings"; meta_version := "0.1";
     meta_seed := "seed words"; meta_lastSeed := "checkpoint";
     meta_encrypted := false;
     Entries := [ {| Entry_Address := "addr1"; Public := "pub1";
                     Secret := "secret key 1"; EncryptedSeckey := "" |} ] |}.

Definition serv1 : Service :=
  {| wallets := {[ "w1.wlt" := legacyWallet ]};
     firstAddrIDMap := {[ "addr1" := "w1.wlt" ]};
     disableWalletAPI := false;
     WalletDirectory := "/wallets" |}.

(** [legacyWallet] after [Encrypt] with a password. *)
Definition encryptedLegacyWallet : Wallet :=
  {| meta_filename := "w1.wlt"; meta_label := "savings"; meta_version := "0.2";
     meta_seed := "enc(seed words)"; meta_lastSeed := "enc(checkpoint)";
     meta_encrypted := false;
     Entries := [ {| Entry_Address := "addr1"; Public := "pub1";
                     Secret := zeroSecKey;
                     EncryptedSeckey := "enc(secret key 1)" |} ] |}.

(** The registry [NewService] builds on an empty wallet directory: one
    default wallet with one address. *)
Definition defaultWallet : Wallet :=
  {| meta_filename := "wallet.wlt"; meta_label := "Your Wallet";
     meta_version := "0.2"; meta_seed := "default mnemonic";
     meta_lastSeed := "next(default mnemonic)"; meta_encrypted := false;
     Entries := [ {| Entry_Address := "addr(default mnemonic)";
                     Public := "pub(default mnemonic)";
                     Secret := "sec(default mnemonic)";
                     EncryptedSeckey := "" |} ] |}.

Definition servN : Service :=
  {| wallets := {[ "wallet.wlt" := defaultWallet ]};
     firstAddrIDMap := {[ "addr(default mnemonic)" := "wallet.wlt" ]};
     disableWalletAPI := false;
     WalletDirectory := "/wallets" |}.

Definition worldN : CWorld :=
  {| log := ["mkdir /wallets"; "load /wallets"; "save wallet.wlt"; "save wallet.wlt"];
     diskFull := false; names := [] |}.

Definition worldFull : CWorld :=
  {| log := []; diskFull := true; names := [] |}.

(** The registry [NewService] builds with the disabled flag. *)
Definition servDisabled : Service :=
  {| wallets := ∅; firstAddrIDMap := ∅;
     disableWalletAPI := true; WalletDirectory := "" |}.

(** A balance getter that finds coins on the second probed address. *)
Definition bgSecond : BalanceGetter (@BalancePair cCipher CWorld cEnv) :=
  {| GetBalanceOfAddrs := λ addrs, Ok (imap (λ i _, if (i =? 1)%nat then 5%N else 0%N) addrs) |}.

(** An enabled registry without wallets. *)
Definition serv0 : Service :=
  {| wallets := ∅; firstAddrIDMap := ∅;
     disableWalletAPI := false; WalletDirectory := "/wallets" |}.

(** A wallet file of the seed "shared" with [n] entries. *)
Definition sharedWallet (wltName : string) (n : N) : Wallet :=
  (Wallet_GenerateAddresses (E := cEnv) n (freshWallet wltName "copy" "shared")).2.

(** Three loaded wallet files of one seed with 3, 4 and 5 entries. *)
Definition wlts3 : gmap string Wallet :=
  {[ "a.wlt" := sharedWallet "a.wlt" 3;
     "c.wlt" := sharedWallet "c.wlt" 4;
     "b.wlt" := sharedWallet "b.wlt" 5 ]}.

(** A wallet file of another seed, with two entries. *)
Definition otherWallet : Wallet :=
  (Wallet_GenerateAddresses (E := cEnv) 2 (freshWallet "d.wlt" "other" "other seed")).2.

(** The wallet files of a directory: three of one seed and one of
    another, each under its file name. *)
Definition diskWallets : gmap string Wallet :=
  <[ "d.wlt" := otherWallet ]> wlts3.

(** [cEnv] on a directory that holds [diskWallets] and the backup file
    of [legacyWallet]. *)
Definition dEnv : Env CWorld :=
  {| Version := "0.2";
     Encrypt := cEncrypt;
     NewWallet := cNewWallet;
     deriveEntry := cderiveEntry;
     BalancePair := N;
     positive := λ b, (0 <? b)%N;
     TxRequest := unit;
     Transaction := string;
     Wallet_CreateAndSignTransaction := λ w _, Ok ("tx from " +:+ Wallet_Filename w);
     filepath_Join := λ d f, d +:+ "/" +:+ f;
     os_MkdirAll := λ d σ, (None, logged ("mkdir " +:+ d) σ);
     os_Stat := λ p σ, (if String.eqb p "/wallets/w1.wlt.bak" then StatFile
                        else StatNotExist, logged ("stat " +:+ p) σ);
     os_Remove := λ p σ, (None, logged ("remove " +:+ p) σ);
     LoadWallets := λ d σ, (Ok diskWallets, logged ("load " +:+ d) σ);
     Save := cSave;
     NewWalletFilename := cNewWalletFilename;
     bip39_NewDefaultMnemomic := λ σ, (Ok "default mnemonic", σ);
     rangeOrder := map_to_list;
     rangeOrder_perm := λ m, reflexivity (map_to_list m) |}.

(** The registry [NewService] builds on that directory. *)
Definition servDisk : Service :=
  {| wallets := {[ "b.wlt" := sharedWallet "b.wlt" 5; "d.wlt" := otherWallet ]};
     firstAddrIDMap := {[ "addr(shared)" := "b.wlt"; "addr(other seed)" := "d.wlt" ]};
     disableWalletAPI := false;
     WalletDirectory := "/wallets" |}.

Definition worldDisk : CWorld :=
  {| log := ["mkdir /wallets"; "load /wallets"]; diskFull := false; names := [] |}.

(** A world whose next generated file name is taken in [servN]. *)
Definition worldNames : CWorld :=
  {| log := []; diskFull := false; names := ["wallet.wlt"; "fresh.wlt"] |}.

(** The wallet [CreateWallet] builds for the seed "one seed". *)
Definition firstWallet : Wallet :=
  (Wallet_GenerateAddresses (E := cEnv) 1 (freshWallet "first.wlt" "first" "one seed")).2.

(** [defaultWallet] after [Encrypt] with a password. *)
Definition encryptedDefaultWallet : Wallet :=
  {| meta_filename := "wallet.wlt"; meta_label := "Your Wallet";
     meta_version := "0.2"; meta_seed := "enc(default mnemonic)";
     meta_lastSeed := "enc(next(default mnemonic))"; meta_encrypted := false;
     Entries := [ {| Entry_Address := "addr(default mnemonic)";
                     Public := "pub(default mnemonic)";
                     Secret := zeroSecKey;
                     EncryptedSeckey := "enc(sec(default mnemonic))" |} ] |}.

End Concrete.

(** * Properties *)

Ltac munfold :=
  unfold mbind, M_bind, bind, mret, M_ret, ret, throw, panic, gets, modify,
    liftRes, liftIO, liftErr, try, index, wread, wmodify, wrun in *.

Section Properties.
Context {C : Cipher} {World : Type} {E : Env World}.

Implicit Types (s : Service) (σ : World) (w : Wallet).

(** *** Stepping through writes to a stored wallet *)

Lemma store_id p w s : wallets s !! p = Some w → store p w s = s.
Proof.
  intros H. unfold store, Service_setWallets. rewrite insert_id by done.
  by destruct s.
Qed.

Lemma store_store p w w' s : store p w' (store p w s) = store p w' s.
Proof. unfold store, Service_setWallets. simpl. by rewrite insert_insert_eq. Qed.

Lemma lookup_store p w s : wallets (store p w s) !! p = Some w.
Proof. unfold store. simpl. apply lookup_insert_eq. Qed.

Lemma lookup_store_ne p q w s : p ≠ q → wallets (store p w s) !! q = wallets s !! q.
Proof. intros. unfold store. simpl. by apply lookup_insert_ne. Qed.

Lemma wread_store p w s σ : wread p (store p w s) σ = (Ok w, store p w s, σ).
Proof. unfold wread. by rewrite lookup_store. Qed.

Lemma wmodify_store p f w s σ :
  wmodify p f (store p w s) σ = (Ok tt, store p (f w) s, σ).
Proof.
  unfold wmodify, modify, store, Service_setWallets. simpl.
  by rewrite alter_insert_eq.
Qed.

Lemma wrun_store {A} p (c : Wallet → Res A * Wallet) w s σ :
  wrun p c (store p w s) σ = ((c w).1, store p (c w).2 s, σ).
Proof.
  unfold wrun. rewrite lookup_store. destruct (c w) as [r w']. simpl.
  do 2 f_equal. apply store_store.
Qed.

(** *** The loop of [Encrypt] over the entries *)

Lemma Wallet_setEntries_id w : Wallet_setEntries (Entries w) w = w.
Proof. by destruct w. Qed.

Lemma Encrypt_entries_loop p password s σ n : ∀ k w,
  (k + n)%nat = length (Entries w) →
  ∃ r es,
    forM_ (seq k n) (Service_Encrypt_entry p password) (store p w s) σ
      = (r, store p (Wallet_setEntries es w) s, σ)
    ∧ length es = length (Entries w)
    ∧ (∀ i, (i < k)%nat → es !! i = Entries w !! i)
    ∧ (r = Ok tt → ∀ i e, (k ≤ i)%nat → Entries w !! i = Some e →
         ∃ sk, Encrypt (Secret e) password = Ok sk
               ∧ es !! i = Some (encryptedEntry sk e)).
Proof.
  induction n as [|n IH]; intros k w Hlen.
  - exists (Ok tt), (Entries w). simpl. rewrite Wallet_setEntries_id.
    repeat split; try done.
    intros _ i e Hk Hi. apply lookup_lt_Some in Hi. lia.
  - simpl. unfold mbind, M_bind, bind. unfold Service_Encrypt_entry at 1.
    unfold mbind, M_bind, bind. rewrite wread_store.
    destruct (lookup_lt_is_Some_2 (Entries w) k ltac:(lia)) as [e He].
    unfold index. rewrite He. unfold mret, M_ret, ret, liftRes.
    destruct (Encrypt (Secret e) password) as [sk| err | |] eqn:Henc.
    + rewrite wmodify_store. rewrite wmodify_store.
      set (w1 := Wallet_alterEntry k _ (Wallet_alterEntry k _ w)).
      assert (Hes1 : Entries w1 = <[k := encryptedEntry sk e]> (Entries w)).
      { unfold w1, Wallet_alterEntry. simpl.
        rewrite list_alter_alter_eq.
        apply list_eq. intros j. destruct (decide (j = k)) as [->|Hne].
        - rewrite list_lookup_alter_eq, He.
          rewrite list_lookup_insert_eq by (apply lookup_lt_Some in He; done).
          done.
        - rewrite list_lookup_alter_ne, list_lookup_insert_ne by done. done. }
      assert (Hw1 : ∀ es, Wallet_setEntries es w1 = Wallet_setEntries es w) by done.
      destruct (IH (S k) w1) as (r & es & Hrun & Hl & Hlt & Hok).
      { rewrite Hes1, length_insert. lia. }
      exists r, es. rewrite Hrun, Hw1.
      rewrite Hes1, length_insert in Hl.
      split; [done|]. split; [done|]. split.
      * intros i Hi. rewrite Hlt by lia. rewrite Hes1.
        apply list_lookup_insert_ne. lia.
      * intros Hr i e' Hki Hi.
        destruct (decide (i = k)) as [->|Hne].
        -- exists sk. rewrite Hlt by lia. rewrite Hes1.
           rewrite list_lookup_insert_eq by (apply lookup_lt_Some in He; done).
           split; congruence.
        -- apply (Hok Hr i e'); [lia|].
           rewrite Hes1. rewrite list_lookup_insert_ne by done. done.
    + exists (Err err), (Entries w). rewrite Wallet_setEntries_id.
      repeat split; try done.
    + exists Panic, (Entries w). rewrite Wallet_setEntries_id.
      repeat split; try done.
    + exists OutOfFuel, (Entries w). rewrite Wallet_setEntries_id.
      repeat split; try done.
Qed.

(** *** Equations of the monad *)

Lemma bind_run {A B} (c : M A) (k : A → M B) s σ r s1 σ1 :
  c s σ = (r, s1, σ1) →
  (c ≫= k) s σ = match r with
                 | Ok a => k a s1 σ1
                 | Err e => (Err e, s1, σ1)
                 | Panic => (Panic, s1, σ1)
                 | OutOfFuel => (OutOfFuel, s1, σ1)
                 end.
Proof. intros H. unfold mbind, M_bind, bind. rewrite H. by destruct r. Qed.

Lemma bind_wread_store {B} p w (k : Wallet → M B) s σ :
  (wread p ≫= k) (store p w s) σ = k w (store p w s) σ.
Proof. by rewrite (bind_run _ _ _ _ _ _ _ (wread_store p w s σ)). Qed.

Lemma bind_wmodify_store {B} p f w (k : unit → M B) s σ :
  (wmodify p f ≫= k) (store p w s) σ = k tt (store p (f w) s) σ.
Proof. by rewrite (bind_run _ _ _ _ _ _ _ (wmodify_store p f w s σ)). Qed.

Lemma bind_gets {A B} (f : Service → A) (k : A → M B) s σ :
  (gets f ≫= k) s σ = k (f s) s σ.
Proof. done. Qed.

Lemma bind_liftRes {A B} (r : Res A) (k : A → M B) s σ :
  (liftRes r ≫= k) s σ = match r with
                         | Ok a => k a s σ
                         | Err e => (Err e, s, σ)
                         | Panic => (Panic, s, σ)
                         | OutOfFuel => (OutOfFuel, s, σ)
                         end.
Proof. unfold mbind, M_bind, bind, liftRes. by destruct r. Qed.

Lemma bind_liftErr {B} (f : World → option error * World) (k : unit → M B) s σ :
  (liftErr f ≫= k) s σ = match f σ with
                         | (None, σ1) => k tt s σ1
                         | (Some e, σ1) => (Err e, s, σ1)
                         end.
Proof. unfold mbind, M_bind, bind, liftErr. by destruct (f σ) as [[e|] σ1]. Qed.

Lemma bind_liftIO {A B} (f : World → Res A * World) (k : A → M B) s σ :
  (liftIO f ≫= k) s σ = match f σ with
                        | (Ok a, σ1) => k a s σ1
                        | (Err e, σ1) => (Err e, s, σ1)
                        | (Panic, σ1) => (Panic, s, σ1)
                        | (OutOfFuel, σ1) => (OutOfFuel, s, σ1)
                        end.
Proof. unfold mbind, M_bind, bind, liftIO. by destruct (f σ) as [[] σ1]. Qed.

Lemma bind_ret {A B} (a : A) (k : A → M B) s σ : (ret a ≫= k) s σ = k a s σ.
Proof. done. Qed.

Lemma bind_assoc {A B D} (c : M A) (k1 : A → M B) (k2 : B → M D) s σ :
  ((c ≫= k1) ≫= k2) s σ = (c ≫= λ a, k1 a ≫= k2) s σ.
Proof. unfold mbind, M_bind, bind. by destruct (c s σ) as [[[] ?] ?]. Qed.

(** *** The disabled flag is never written *)

Lemma keeps_ret {A} (a : A) : @keepsConfig C World _ (ret a).
Proof. done. Qed.
Lemma keeps_mret {A} (a : A) : @keepsConfig C World _ (mret a).
Proof. done. Qed.
Lemma keeps_throw {A} e : @keepsConfig C World _ (@throw _ _ A e).
Proof. done. Qed.
Lemma keeps_panic {A} : @keepsConfig C World _ (@panic _ _ A).
Proof. done. Qed.
Lemma keeps_gets {A} (f : Service → A) : @keepsConfig C World _ (gets f).
Proof. done. Qed.
Lemma keeps_liftRes {A} (r : Res A) : @keepsConfig C World _ (liftRes r).
Proof. done. Qed.
Lemma keeps_liftIO {A} (f : World → Res A * World) : @keepsConfig C World _ (liftIO f).
Proof. intros s σ. unfold liftIO. by destruct (f σ). Qed.
Lemma keeps_liftErr (f : World → option error * World) : @keepsConfig C World _ (liftErr f).
Proof. intros s σ. unfold liftErr. by destruct (f σ) as [[|] ?]. Qed.
Lemma keeps_modify (f : Service → Service) :
  (∀ s, disableWalletAPI (f s) = disableWalletAPI s) → @keepsConfig C World _ (modify f).
Proof. intros H s σ. apply H. Qed.
Lemma keeps_bind {A B} (c : M A) (k : A → M B) :
  @keepsConfig C World _ c → (∀ a, @keepsConfig C World _ (k a)) → @keepsConfig C World _ (c ≫= k).
Proof.
  intros Hc Hk s σ. unfold mbind, M_bind, bind.
  specialize (Hc s σ). destruct (c s σ) as [[[a| | |] s1] σ1]; simpl in *; try done.
  by rewrite Hk.
Qed.
Lemma keeps_try (c : M unit) : @keepsConfig C World _ c → @keepsConfig C World _ (try c).
Proof.
  intros Hc s σ. unfold try. specialize (Hc s σ).
  by destruct (c s σ) as [[[a| | |] s1] σ1].
Qed.
Lemma keeps_index {A} (xs : list A) i : @keepsConfig C World _ (index xs i).
Proof. unfold index. by destruct (xs !! i). Qed.
Lemma keeps_wread p : @keepsConfig C World _ (wread p).
Proof. intros s σ. unfold wread. by destruct (wallets s !! p). Qed.
Lemma keeps_wmodify p f : @keepsConfig C World _ (wmodify p f).
Proof. done. Qed.
Lemma keeps_wrun {A} p (c : Wallet → Res A * Wallet) : @keepsConfig C World _ (wrun p c).
Proof. intros s σ. unfold wrun. destruct (wallets s !! p); [|done]. by destruct (c _). Qed.
Lemma keeps_forM_ {A} (xs : list A) body :
  (∀ x, @keepsConfig C World _ (body x)) → @keepsConfig C World _ (forM_ xs body).
Proof.
  intros H. induction xs as [|x xs IH]; simpl; [done|].
  apply keeps_bind; [apply H | by intros _].
Qed.
Lemma keeps_Wallets_Add w : @keepsConfig C World _ (Wallets_Add w).
Proof. intros s σ. unfold Wallets_Add. by destruct (wallets s !! _). Qed.
Lemma keeps_Wallets_update id f : @keepsConfig C World _ (Wallets_update id f).
Proof. intros s σ. unfold Wallets_update. by destruct (wallets s !! _). Qed.
Lemma keeps_generateUnique fuel : @keepsConfig C World _ (generateUniqueWalletFilename fuel).
Proof.
  induction fuel as [|fuel IH]; intros s σ; simpl; [done|].
  destruct (NewWalletFilename σ) as [n σ1]. destruct (Wallets_Get _ _); [apply IH | done].
Qed.

Ltac keeps :=
  repeat first
    [ apply keeps_bind; [|intros ?]
    | apply keeps_ret | apply keeps_mret | apply keeps_throw | apply keeps_panic
    | apply keeps_gets | apply keeps_liftRes | apply keeps_liftIO
    | apply keeps_liftErr | apply keeps_try | apply keeps_index
    | apply keeps_wread | apply keeps_wmodify | apply keeps_wrun
    | apply keeps_Wallets_Add | apply keeps_Wallets_update
    | apply keeps_generateUnique
    | apply keeps_forM_; intros ?
    | apply keeps_modify; intros ?; reflexivity
    | match goal with
      | |- @keepsConfig _ _ _ (match ?x with _ => _ end) => destruct x
      | |- @keepsConfig _ _ _ (let (_, _) := ?x in _) => destruct x
      end ].

Lemma keeps_getWallet id : @keepsConfig C World _ (getWallet id).
Proof. unfold getWallet. keeps. Qed.
Lemma keeps_loadWallet n o k bg : @keepsConfig C World _ (loadWallet n o k bg).
Proof. unfold loadWallet. keeps. Qed.
Lemma keeps_CreateWallet f n o : @keepsConfig C World _ (Service_CreateWallet f n o).
Proof. unfold Service_CreateWallet. keeps; apply keeps_loadWallet. Qed.
Lemma keeps_ScanAhead n k bg : @keepsConfig C World _ (Service_ScanAheadWalletAddresses n k bg).
Proof. unfold Service_ScanAheadWalletAddresses, Wallets_set. keeps; apply keeps_getWallet. Qed.
Lemma keeps_Encrypt id pw : @keepsConfig C World _ (Service_Encrypt id pw).
Proof. unfold Service_Encrypt, Service_Encrypt_entry. keeps. Qed.
Lemma keeps_NewAddresses id n : @keepsConfig C World _ (Service_NewAddresses id n).
Proof. unfold Service_NewAddresses. keeps. Qed.
Lemma keeps_UpdateWalletLabel id l : @keepsConfig C World _ (Service_UpdateWalletLabel id l).
Proof. unfold Service_UpdateWalletLabel. keeps. Qed.
Lemma keeps_removeDup_loop visit wlts : ∀ rm, @keepsConfig C World _ (removeDup_loop visit wlts rm).
Proof.
  induction visit as [|[id w] rest IH]; intros rm; simpl; [keeps|].
  destruct (_ =? _)%nat; [apply IH|].
  keeps; apply IH.
Qed.
Lemma keeps_removeDup wlts : @keepsConfig C World _ (removeDup wlts).
Proof. unfold removeDup, removeDup_in. keeps; apply keeps_removeDup_loop. Qed.
Lemma keeps_ReloadWallets : @keepsConfig C World _ Service_ReloadWallets.
Proof. unfold Service_ReloadWallets. keeps; apply keeps_removeDup_loop. Qed.
Lemma keeps_NewService_init f (m : gmap string Wallet) : @keepsConfig C World _ (NewService_init f m).
Proof. unfold NewService_init. keeps; first [apply keeps_removeDup_loop | apply keeps_loadWallet]. Qed.

(** *** Methods on an absent wallet id *)

Section Absent.
Variables (wltID : string) (s : Service) (σ : World).
Hypothesis Habs : wallets s !! wltID = None.

Lemma getWallet_absent : getWallet wltID s σ = (Err ErrWalletNotExist, s, σ).
Proof using Habs. unfold getWallet. rewrite bind_gets. unfold Wallets_Get. by rewrite Habs. Qed.

Lemma ScanAheadWalletAddresses_absent scanN bg :
  Service_ScanAheadWalletAddresses wltID scanN bg s σ = (Err ErrWalletNotExist, s, σ).
Proof using Habs.
  unfold Service_ScanAheadWalletAddresses.
  by rewrite (bind_run _ _ _ _ _ _ _ getWallet_absent).
Qed.

Lemma NewAddresses_absent num :
  Service_NewAddresses wltID num s σ = (Err (ErrWalletNotExistID wltID), s, σ).
Proof using Habs.
  unfold Service_NewAddresses. rewrite bind_gets. unfold Wallets_Get. by rewrite Habs.
Qed.

Lemma GetAddresses_absent :
  Service_GetAddresses wltID s σ = (Err (ErrWalletNotExistID wltID), s, σ).
Proof using Habs.
  unfold Service_GetAddresses. rewrite bind_gets. unfold Wallets_Get. by rewrite Habs.
Qed.

Lemma Encrypt_absent password :
  Service_Encrypt wltID password s σ = (Err (ErrWalletNotExistID wltID), s, σ).
Proof using Habs.
  unfold Service_Encrypt. rewrite bind_gets. unfold Wallets_Get. by rewrite Habs.
Qed.

Lemma CreateAndSignTransaction_absent req :
  Service_CreateAndSignTransaction wltID req s σ
  = (Err (ErrWalletNotExistID wltID), s, σ).
Proof using Habs.
  unfold Service_CreateAndSignTransaction. rewrite bind_gets.
  unfold Wallets_Get. by rewrite Habs.
Qed.

Lemma UpdateWalletLabel_absent label :
  Service_UpdateWalletLabel wltID label s σ
  = (Err (ErrWalletNotExistID wltID), s, σ).
Proof using Habs.
  unfold Service_UpdateWalletLabel, Wallets_update, mbind, M_bind, bind.
  by rewrite Habs.
Qed.

End Absent.

(** In a disabled registry with no wallet, no method changes the
    registry. *)
Lemma disabled_step_id s s' :
  disableWalletAPI s = true → wallets s = ∅ → step s s' → s' = s.
Proof.
  intros Hdis Hemp Hstep.
  assert (Habs : ∀ id, wallets s !! id = None) by (intros; by rewrite Hemp).
  destruct Hstep as
    [fuel n o s σ r s' σ' H | n k bg s σ r s' σ' H | id pw s σ r s' σ' H
    | id num s σ r s' σ' H | id s σ r s' σ' H | id s σ r s' σ' H
    | s σ r s' σ' H | s σ r s' σ' H | id req s σ r s' σ' H
    | id l s σ r s' σ' H | id s σ r s' σ' H].
  - unfold Service_CreateWallet in H. rewrite bind_gets, Hdis in H. by inversion H.
  - rewrite ScanAheadWalletAddresses_absent in H by done. by inversion H.
  - rewrite Encrypt_absent in H by done. by inversion H.
  - rewrite NewAddresses_absent in H by done. by inversion H.
  - rewrite GetAddresses_absent in H by done. by inversion H.
  - unfold Service_GetWallet in H. rewrite getWallet_absent in H by done.
    by inversion H.
  - by inversion H.
  - unfold Service_ReloadWallets in H. rewrite bind_gets, Hdis in H. by inversion H.
  - rewrite CreateAndSignTransaction_absent in H by done. by inversion H.
  - rewrite UpdateWalletLabel_absent in H by done. by inversion H.
  - unfold Service_Remove, modify, Wallets_Remove in H. inversion H.
    rewrite Hemp, delete_empty, <- Hemp. by destruct s.
Qed.

Lemma step_keeps_flag s s' : step s s' → disableWalletAPI s' = disableWalletAPI s.
Proof.
  intros Hstep.
  destruct Hstep as
    [fuel n o s σ r s' σ' H | n k bg s σ r s' σ' H | id pw s σ r s' σ' H
    | id num s σ r s' σ' H | id s σ r s' σ' H | id s σ r s' σ' H
    | s σ r s' σ' H | s σ r s' σ' H | id req s σ r s' σ' H
    | id l s σ r s' σ' H | id s σ r s' σ' H].
  all: match type of H with ?c ?s0 ?σ0 = _ =>
         assert (Hk : keepsConfig c);
         [| specialize (Hk s0 σ0); rewrite H in Hk; exact Hk] end.
  - apply keeps_CreateWallet.
  - apply keeps_ScanAhead.
  - apply keeps_Encrypt.
  - apply keeps_NewAddresses.
  - unfold Service_GetAddresses. keeps.
  - apply keeps_getWallet.
  - unfold Service_GetWallets. keeps.
  - apply keeps_ReloadWallets.
  - unfold Service_CreateAndSignTransaction. keeps.
  - apply keeps_UpdateWalletLabel.
  - unfold Service_Remove. keeps.
Qed.

(** A disabled registry holds no wallet and no index entry. *)
Lemma reachable_disabled_empty s :
  reachable s → disableWalletAPI s = true →
  wallets s = ∅ ∧ firstAddrIDMap s = ∅.
Proof.
  induction 1 as [fuel dir dis σ s σ' Hnew | s s' Hr IH Hstep]; intros Hdis.
  - unfold NewService in Hnew. simpl in Hnew. destruct dis.
    + by inversion Hnew.
    + exfalso.
      destruct (os_MkdirAll dir σ) as [[err|] σ1]; [done|].
      destruct (LoadWallets _ σ1) as [[m| | |] σ2]; try done.
      pose proof (keeps_NewService_init fuel m
                    (Service_setWalletDirectory dir
                       {| wallets := ∅; firstAddrIDMap := ∅;
                          disableWalletAPI := false; WalletDirectory := "" |}) σ2) as Hk.
      destruct (NewService_init _ _ _ _) as [[[[]| | |] s1] σ3]; try done.
      inversion Hnew; subst. simpl in Hk. congruence.
  - pose proof (step_keeps_flag _ _ Hstep) as Hflag.
    rewrite Hdis in Hflag. symmetry in Hflag.
    destruct (IH Hflag) as [Hw Hi].
    by rewrite (disabled_step_id s s' Hflag Hw Hstep).
Qed.


(** *** Wallet names *)

Lemma generateUnique_frame fuel : ∀ s σ,
  ∃ r σ1, generateUniqueWalletFilename fuel s σ = (r, s, σ1)
          ∧ (∀ n, r = Ok n → wallets s !! n = None).
Proof.
  induction fuel as [|fuel IH]; intros s σ; simpl.
  - by exists OutOfFuel, σ.
  - destruct (NewWalletFilename σ) as [n σ1].
    unfold Wallets_Get. destruct (wallets s !! n) eqn:Hn.
    + apply IH.
    + exists (Ok n), σ1. split; [done|]. by intros ? [= <-].
Qed.

Lemma generateUnique_terminates fuel : ∀ j s σ,
  (j < fuel)%nat →
  wallets s !! (NewWalletFilename (afterNames j σ)).1 = None →
  ∃ n σ1, generateUniqueWalletFilename fuel s σ = (Ok n, s, σ1).
Proof.
  induction fuel as [|fuel IH]; intros j s σ Hj Hfresh; [lia|].
  simpl. destruct (NewWalletFilename σ) as [n σ1] eqn:Hn.
  unfold Wallets_Get. destruct (wallets s !! n) eqn:Hl; [|by eauto].
  destruct j as [|j].
  - simpl in Hfresh. rewrite Hn in Hfresh. simpl in Hfresh. congruence.
  - apply (IH j); [lia|]. simpl in Hfresh. by rewrite Hn in Hfresh.
Qed.

Lemma walletName_frame fuel wltName s σ :
  ∃ r σ1, walletName fuel wltName s σ = (r, s, σ1).
Proof.
  unfold walletName. destruct (String.eqb wltName "").
  - destruct (generateUnique_frame fuel s σ) as (r & σ1 & H & _). eauto.
  - by exists (Ok wltName), σ.
Qed.

Lemma Wallets_Add_fresh w s σ :
  wallets s !! Wallet_Filename w = None →
  Wallets_Add w s σ = (Ok tt, store (Wallet_Filename w) w s, σ).
Proof. intros H. unfold Wallets_Add. by rewrite H. Qed.

Lemma try_Save_fails dir w s σ err σ1 :
  Save dir w σ = (Some err, σ1) →
  try (liftErr (Save dir w)) s σ = (Ok (Some err), s, σ1).
Proof. intros H. unfold try, liftErr. by rewrite H. Qed.

(** *** Address generation and scan-ahead *)

Lemma generate_length n : ∀ sd ps, generate n sd = Ok ps → length ps = n.
Proof.
  induction n as [|n IH]; intros sd ps; simpl.
  - by intros [= <-].
  - destruct (deriveEntry sd) as [[e sd']| | |]; try done.
    destruct (generate n sd') as [ps'| | |] eqn:Hg; try done.
    intros [= <-]. simpl. f_equal. by apply (IH sd').
Qed.

Lemma keepNum_none (bals : list BalancePair) :
  (∀ b, b ∈ bals → positive b = false) → keepNum bals = 0%nat.
Proof.
  induction bals as [|b bs IH]; intros H; simpl; [done|].
  rewrite IH by (intros b' Hb'; apply H; by right).
  rewrite (H b) by (by left). done.
Qed.

(** *** The invariant of the deduplication loop *)

Lemma precedes_app seen x id id' :
  precedes seen id id' → precedes (seen ++ [x]) id id'.
Proof.
  intros (i & j & Hij & Hi & Hj). exists i, j. rewrite fmap_app.
  split; [done|]. split; by apply lookup_app_l_Some.
Qed.

Lemma precedes_last seen id w id' w' :
  (id, w) ∈ seen → precedes (seen ++ [(id', w')]) id id'.
Proof.
  intros [i Hi]%list_elem_of_lookup.
  exists i, (length seen). rewrite fmap_app.
  split; [by apply lookup_lt_Some in Hi|]. split.
  - apply lookup_app_l_Some. by rewrite list_lookup_fmap, Hi.
  - rewrite lookup_app_r by (by rewrite length_fmap).
    by rewrite length_fmap, Nat.sub_diag.
Qed.

Lemma precedes_asym visit id id' :
  NoDup visit.*1 → precedes visit id id' → ¬ precedes visit id' id.
Proof.
  intros Hnd (i & j & Hij & Hi & Hj) (i' & j' & Hij' & Hi' & Hj').
  pose proof (NoDup_lookup _ _ _ _ Hnd Hi Hj').
  pose proof (NoDup_lookup _ _ _ _ Hnd Hj Hi'). lia.
Qed.

Lemma firstAddress_None w : firstAddress w = None ↔ length (Entries w) = 0%nat.
Proof.
  unfold firstAddress. destruct (Entries w) as [|e es]; simpl; split; done.
Qed.

Section Step.
Variables (wlts : gmap string Wallet) (seen : list (string * Wallet))
  (idx : gmap string string) (rm : list string) (wltID : string) (wlt : Wallet).
Hypothesis Hinv : dedup_inv seen idx rm.
Hypothesis Hmap : ∀ id w, (id, w) ∈ seen ++ [(wltID, wlt)] → wlts !! id = Some w.
Hypothesis Hnd : NoDup (seen ++ [(wltID, wlt)]).*1.

Lemma step_fresh_id : wltID ∉ seen.*1.
Proof using Hnd.
  rewrite fmap_app in Hnd. apply NoDup_app in Hnd as (_ & H & _).
  intros Hin. apply (H _ Hin). simpl. by left.
Qed.

Lemma step_not_removed : wltID ∉ rm.
Proof using Hnd Hinv. intros H. apply step_fresh_id. by apply (inv_rm _ _ _ Hinv). Qed.

Lemma step_same_wallet id w w' :
  (id, w) ∈ seen ++ [(wltID, wlt)] → (id, w') ∈ seen ++ [(wltID, wlt)] → w = w'.
Proof using Hmap. intros H1%Hmap H2%Hmap. congruence. Qed.

Lemma elem_of_snoc id w :
  (id, w) ∈ seen ++ [(wltID, wlt)] ↔ (id, w) ∈ seen ∨ (id = wltID ∧ w = wlt).
Proof.
  rewrite elem_of_app, list_elem_of_singleton. split; intros [?|H]; auto.
  - right. by inversion H.
  - right. by destruct H as [-> ->].
Qed.

Lemma seen_ne id w : (id, w) ∈ seen → id ≠ wltID.
Proof using Hnd.
  intros Hin ->. apply step_fresh_id. apply list_elem_of_fmap. by exists (wltID, w).
Qed.

(** An empty wallet is marked for removal. *)
Lemma inv_step_empty :
  firstAddress wlt = None →
  dedup_inv (seen ++ [(wltID, wlt)]) idx (rm ++ [wltID]).
Proof using Hinv Hnd.
  intros Hnone. split.
  - intros a id Hid.
    destruct (inv_winner _ _ _ Hinv a id Hid) as (w & Hw & Ha & Hrm & Hbest).
    exists w. split; [apply elem_of_snoc; by left|]. split; [done|]. split.
    { rewrite elem_of_app, list_elem_of_singleton. intros [?| ->]; [done|].
      by apply (seen_ne _ _ Hw). }
    intros id' w' [Hin|[-> ->]]%elem_of_snoc Ha' Hne; [|congruence].
    destruct (Hbest id' w' Hin Ha' Hne) as (H1 & H2 & H3).
    split; [apply elem_of_app; by left|]. split; [done|].
    intros Hl. by apply precedes_app, H3.
  - intros id w [Hin|[-> ->]]%elem_of_snoc Hw; apply elem_of_app.
    + left. by apply (inv_empty _ _ _ Hinv id w).
    + right. by apply list_elem_of_singleton.
  - intros id w a [Hin|[-> ->]]%elem_of_snoc Ha; [|congruence].
    by apply (inv_indexed _ _ _ Hinv id w).
  - intros id [Hin| ->%list_elem_of_singleton]%elem_of_app; rewrite fmap_app, elem_of_app.
    + left. by apply (inv_rm _ _ _ Hinv).
    + right. simpl. by apply list_elem_of_singleton.
Qed.

(** The first wallet seen with its address is recorded. *)
Lemma inv_step_fresh a :
  firstAddress wlt = Some a → idx !! a = None →
  dedup_inv (seen ++ [(wltID, wlt)]) (<[a := wltID]> idx) rm.
Proof using Hinv Hnd.
  intros Ha Hnone. split.
  - intros a' id Hid. destruct (decide (a' = a)) as [->|Hne].
    + rewrite lookup_insert_eq in Hid. injection Hid as <-.
      exists wlt. split; [apply elem_of_snoc; by right|]. split; [done|].
      split; [apply step_not_removed|].
      intros id' w' [Hin|[-> ->]]%elem_of_snoc Ha' Hne; [|done].
      destruct (inv_indexed _ _ _ Hinv id' w' a Hin Ha') as [x Hx]. congruence.
    + rewrite lookup_insert_ne in Hid by done.
      destruct (inv_winner _ _ _ Hinv a' id Hid) as (w & Hw & Haw & Hrm & Hbest).
      exists w. split; [apply elem_of_snoc; by left|]. split; [done|].
      split; [done|].
      intros id' w' [Hin|[-> ->]]%elem_of_snoc Ha' Hne'; [|congruence].
      destruct (Hbest id' w' Hin Ha' Hne') as (H1 & H2 & H3).
      split; [done|]. split; [done|]. intros Hl. by apply precedes_app, H3.
  - intros id w [Hin|[-> ->]]%elem_of_snoc Hw; [|congruence].
    by apply (inv_empty _ _ _ Hinv id w).
  - intros id w a' [Hin|[-> ->]]%elem_of_snoc Ha'.
    + destruct (decide (a' = a)) as [->|Hne].
      * rewrite lookup_insert_eq. by eexists.
      * rewrite lookup_insert_ne by done. by apply (inv_indexed _ _ _ Hinv id w).
    + assert (a' = a) as -> by congruence. rewrite lookup_insert_eq. by eexists.
  - intros id Hin. rewrite fmap_app, elem_of_app. left. by apply (inv_rm _ _ _ Hinv).
Qed.

(** A wallet with no more entries than the recorded one is marked for
    removal. *)
Lemma inv_step_keep a id pw :
  firstAddress wlt = Some a → idx !! a = Some id → wlts !! id = Some pw →
  length (Entries wlt) ≤ length (Entries pw) →
  dedup_inv (seen ++ [(wltID, wlt)]) idx (rm ++ [wltID]).
Proof using Hinv Hnd Hmap.
  intros Ha Hidx Hpw Hle. split.
  - intros a' id0 Hid.
    destruct (inv_winner _ _ _ Hinv a' id0 Hid) as (w & Hw & Haw & Hrm & Hbest).
    exists w. split; [apply elem_of_snoc; by left|]. split; [done|]. split.
    { rewrite elem_of_app, list_elem_of_singleton. intros [?| ->]; [done|].
      by apply (seen_ne _ _ Hw). }
    intros id' w' [Hin|[-> ->]]%elem_of_snoc Ha' Hne'.
    + destruct (Hbest id' w' Hin Ha' Hne') as (H1 & H2 & H3).
      split; [apply elem_of_app; by left|]. split; [done|].
      intros Hl. by apply precedes_app, H3.
    + assert (a' = a) as -> by congruence.
      assert (id0 = id) as -> by congruence.
      assert (pw = w) as ->.
      { assert (wlts !! id = Some w) by (apply Hmap, elem_of_snoc; by left).
        congruence. }
      split; [apply elem_of_app; right; by apply list_elem_of_singleton|].
      split; [done|]. intros _. by apply (precedes_last _ _ w).
  - intros id0 w [Hin|[-> ->]]%elem_of_snoc Hw; [|congruence].
    apply elem_of_app. left. by apply (inv_empty _ _ _ Hinv id0 w).
  - intros id0 w a' [Hin|[-> ->]]%elem_of_snoc Ha'.
    + by apply (inv_indexed _ _ _ Hinv id0 w).
    + assert (a' = a) as -> by congruence. by eexists.
  - intros id0 [Hin| ->%list_elem_of_singleton]%elem_of_app; rewrite fmap_app, elem_of_app.
    + left. by apply (inv_rm _ _ _ Hinv).
    + right. simpl. by apply list_elem_of_singleton.
Qed.

(** A wallet with more entries than the recorded one replaces it, and
    the recorded one is marked for removal. *)
Lemma inv_step_replace a id pw :
  firstAddress wlt = Some a → idx !! a = Some id → wlts !! id = Some pw →
  length (Entries pw) < length (Entries wlt) →
  dedup_inv (seen ++ [(wltID, wlt)]) (<[a := wltID]> idx) (rm ++ [id]).
Proof using Hinv Hnd Hmap.
  intros Ha Hidx Hpw Hlt.
  destruct (inv_winner _ _ _ Hinv a id Hidx) as (w & Hw & Haw & Hrm & Hbest).
  assert (pw = w) as ->.
  { assert (wlts !! id = Some w) by (apply Hmap, elem_of_snoc; by left). congruence. }
  pose proof (seen_ne _ _ Hw) as Hidne.
  split.
  - intros a' id0 Hid. destruct (decide (a' = a)) as [->|Hne].
    + rewrite lookup_insert_eq in Hid. injection Hid as <-.
      exists wlt. split; [apply elem_of_snoc; by right|]. split; [done|]. split.
      { rewrite elem_of_app, list_elem_of_singleton. intros [?|?]; [|done].
        by apply step_not_removed. }
      intros id' w' [Hin|[-> ->]]%elem_of_snoc Ha' Hne; [|done].
      destruct (decide (id' = id)) as [->|Hne'].
      * assert (w' = w) as -> by (eapply step_same_wallet; apply elem_of_snoc; by left).
        split; [apply elem_of_app; right; by apply list_elem_of_singleton|].
        split; lia.
      * destruct (Hbest id' w' Hin Ha' Hne') as (H1 & H2 & H3).
        split; [apply elem_of_app; by left|]. split; lia.
    + rewrite lookup_insert_ne in Hid by done.
      destruct (inv_winner _ _ _ Hinv a' id0 Hid) as (w0 & Hw0 & Haw0 & Hrm0 & Hbest0).
      exists w0. split; [apply elem_of_snoc; by left|]. split; [done|]. split.
      { rewrite elem_of_app, list_elem_of_singleton. intros [?| ->]; [done|].
        assert (w0 = w) as -> by (eapply step_same_wallet; apply elem_of_snoc; by left).
        congruence. }
      intros id' w' [Hin|[-> ->]]%elem_of_snoc Ha' Hne'; [|congruence].
      destruct (Hbest0 id' w' Hin Ha' Hne') as (H1 & H2 & H3).
      split; [apply elem_of_app; by left|]. split; [done|].
      intros Hl. by apply precedes_app, H3.
  - intros id0 w0 [Hin|[-> ->]]%elem_of_snoc Hw0; [|congruence].
    apply elem_of_app. left. by apply (inv_empty _ _ _ Hinv id0 w0).
  - intros id0 w0 a' [Hin|[-> ->]]%elem_of_snoc Ha'.
    + destruct (decide (a' = a)) as [->|Hne].
      * rewrite lookup_insert_eq. by eexists.
      * rewrite lookup_insert_ne by done. by apply (inv_indexed _ _ _ Hinv id0 w0).
    + assert (a' = a) as -> by congruence. rewrite lookup_insert_eq. by eexists.
  - intros id0 [Hin| ->%list_elem_of_singleton]%elem_of_app; rewrite fmap_app, elem_of_app.
    + left. by apply (inv_rm _ _ _ Hinv).
    + left. apply list_elem_of_fmap. by exists (id, w).
Qed.

End Step.

Lemma dedup_inv_nil : dedup_inv [] ∅ [].
Proof.
  split.
  - intros a id H. by rewrite lookup_empty in H.
  - intros id w H. by apply elem_of_nil in H.
  - intros id w a H. by apply elem_of_nil in H.
  - intros id H. by apply elem_of_nil in H.
Qed.

Lemma foldl_Wallets_Remove (rm : list string) : ∀ (wlts : gmap string Wallet) id,
  foldl (λ m id, Wallets_Remove id m) wlts rm !! id
  = if decide (id ∈ rm) then None else wlts !! id.
Proof.
  induction rm as [|x rm IH]; intros wlts id; cbn [foldl].
  - rewrite decide_False; [done | apply not_elem_of_nil].
  - rewrite IH. unfold Wallets_Remove.
    destruct (decide (id = x)) as [->|Hne].
    + rewrite lookup_delete_eq, (decide_True (P := x ∈ x :: rm)) by (by left).
      by destruct (decide (x ∈ rm)).
    + rewrite lookup_delete_ne by done.
      destruct (decide (id ∈ rm)) as [Hin|Hnin].
      * by rewrite decide_True by (by right).
      * rewrite decide_False; [done|]. by intros [?|?]%elem_of_cons.
Qed.

Lemma removeDup_loop_inv (wlts : gmap string Wallet) σ rest : ∀ seen rm s,
  (∀ id w, (id, w) ∈ seen ++ rest → wlts !! id = Some w) →
  NoDup (seen ++ rest).*1 →
  dedup_inv seen (firstAddrIDMap s) rm →
  ∃ rm' idx',
    removeDup_loop rest wlts rm s σ = (Ok rm', Service_setFirstAddrIDMap idx' s, σ)
    ∧ dedup_inv (seen ++ rest) idx' rm'.
Proof.
  induction rest as [|[wltID wlt] rest IH]; intros seen rm s Hmap Hnd Hinv.
  - exists rm, (firstAddrIDMap s). rewrite app_nil_r. split; [|done].
    simpl. by destruct s.
  - assert (Hsplit : seen ++ (wltID, wlt) :: rest = (seen ++ [(wltID, wlt)]) ++ rest)
      by (by rewrite <- app_assoc).
    rewrite Hsplit in *.
    assert (Hmap1 : ∀ id w, (id, w) ∈ seen ++ [(wltID, wlt)] → wlts !! id = Some w).
    { intros id w Hin. apply Hmap, elem_of_app. by left. }
    assert (Hnd1 : NoDup (seen ++ [(wltID, wlt)]).*1).
    { rewrite fmap_app in Hnd. by apply NoDup_app in Hnd as (? & _ & _). }
    simpl removeDup_loop.
    destruct (length (Entries wlt) =? 0) eqn:Hlen.
    + apply Nat.eqb_eq, firstAddress_None in Hlen.
      apply (IH (seen ++ [(wltID, wlt)])); [done | done |].
      by apply inv_step_empty.
    + apply Nat.eqb_neq in Hlen.
      destruct (Entries wlt) as [|e0 es] eqn:Hes; [done|].
      assert (Ha : firstAddress wlt = Some (Address_String (Entry_Address e0))).
      { unfold firstAddress. by rewrite Hes. }
      unfold index. change ((e0 :: es) !! 0) with (Some e0).
      cbv beta iota. rewrite bind_ret, bind_gets.
      destruct (firstAddrIDMap s !! Address_String (Entry_Address e0)) as [id|] eqn:Hidx.
      * destruct (inv_winner _ _ _ Hinv _ _ Hidx) as (pw & Hpw & _).
        assert (Hget : wlts !! id = Some pw).
        { apply Hmap1, elem_of_app. by left. }
        unfold Wallets_Get. rewrite Hget.
        destruct (length (e0 :: es) <=? length (Entries pw)) eqn:Hle.
        -- apply Nat.leb_le in Hle.
           apply (IH (seen ++ [(wltID, wlt)])); [done | done |].
           eapply (inv_step_keep wlts);
             [exact Hinv | exact Hmap1 | exact Hnd1 | exact Ha | exact Hidx
             | exact Hget | by rewrite Hes].
        -- apply Nat.leb_gt in Hle.
           unfold mbind, M_bind, bind, modify.
           edestruct (IH (seen ++ [(wltID, wlt)]) (rm ++ [id])) as (rm' & idx' & Hrun & Hinv');
             [done | done | | exists rm', idx'; split; [exact Hrun | exact Hinv']].
           simpl.
           eapply (inv_step_replace wlts);
             [exact Hinv | exact Hmap1 | exact Hnd1 | exact Ha | exact Hidx
             | exact Hget | by rewrite Hes].
      * unfold mbind, M_bind, bind, modify.
        edestruct (IH (seen ++ [(wltID, wlt)]) rm) as (rm' & idx' & Hrun & Hinv');
          [done | done | | exists rm', idx'; split; [exact Hrun | exact Hinv']].
        simpl. by apply inv_step_fresh.
Qed.

(** ** The claims *)

(** C9: [Remove], for any wallet id, present or not, returns no error,
    deletes the id from [wallets] (so [GetWallet] on it then fails with
    the not-found error) and leaves [firstAddrIDMap], the disabled flag
    and the directory as they were: an index entry of the removed wallet
    stays. *)
Theorem Remove_drops_wallet_keeps_index (wltID : string) s σ :
  ∃ s', Service_Remove wltID s σ = (Ok tt, s', σ)
      ∧ wallets s' = delete wltID (wallets s)
      ∧ (∀ σ', Service_GetWallet wltID s' σ' = (Err ErrWalletNotExist, s', σ'))
      ∧ firstAddrIDMap s' = firstAddrIDMap s
      ∧ (∀ addr, firstAddrIDMap s !! addr = Some wltID →
                 firstAddrIDMap s' !! addr = Some wltID)
      ∧ disableWalletAPI s' = disableWalletAPI s
      ∧ WalletDirectory s' = WalletDirectory s.
Proof.
  eexists. split; [reflexivity|].
  repeat split; try done.
  intros σ'. unfold Service_GetWallet, getWallet, Wallets_Get, Wallets_Remove.
  munfold. simpl. by rewrite lookup_delete_eq.
Qed.

Lemma string_length_app (a b : string) :
  String.length (a +:+ b) = String.length a + String.length b.
Proof. induction a as [|c a IH]; simpl; [done | by rewrite IH]. Qed.

Lemma Error_NotExist_messages_differ (id : string) :
  Error ErrWalletNotExist ≠ Error (ErrWalletNotExistID id).
Proof.
  simpl. intros Heq.
  apply (f_equal String.length) in Heq.
  rewrite !string_length_app in Heq. simpl in Heq. lia.
Qed.

(** C10: the not-found error is not uniform.  For an absent wallet id,
    [GetWallet] and the lookup of [ScanAheadWalletAddresses] return the
    package variable [ErrWalletNotExist], which carries no id, while
    [NewAddresses], [GetAddresses], [Encrypt] and
    [CreateAndSignTransaction] return the struct value that embeds the
    requested id.  The two are different values with different messages,
    and a caller that matches the struct form does not recognise the
    error of [GetWallet]. *)
Theorem NotFound_not_uniform (wltID password : string) (num scanN : N)
    (bg : option (BalanceGetter BalancePair)) (req : TxRequest) s σ :
  wallets s !! wltID = None →
  Service_GetWallet wltID s σ = (Err ErrWalletNotExist, s, σ)
  ∧ Service_ScanAheadWalletAddresses wltID scanN bg s σ = (Err ErrWalletNotExist, s, σ)
  ∧ Service_NewAddresses wltID num s σ = (Err (ErrWalletNotExistID wltID), s, σ)
  ∧ Service_GetAddresses wltID s σ = (Err (ErrWalletNotExistID wltID), s, σ)
  ∧ Service_Encrypt wltID password s σ = (Err (ErrWalletNotExistID wltID), s, σ)
  ∧ Service_CreateAndSignTransaction wltID req s σ
      = (Err (ErrWalletNotExistID wltID), s, σ)
  ∧ isErrWalletNotExistStruct ErrWalletNotExist = false
  ∧ isErrWalletNotExistStruct (ErrWalletNotExistID wltID) = true
  ∧ (∀ id, ErrWalletNotExist ≠ ErrWalletNotExistID id)
  ∧ (∀ id, Error ErrWalletNotExist ≠ Error (ErrWalletNotExistID id)).
Proof.
  intros Habs.
  unfold Service_GetWallet, Service_ScanAheadWalletAddresses, getWallet,
    Service_NewAddresses, Service_GetAddresses, Service_Encrypt,
    Service_CreateAndSignTransaction, Wallets_Get.
  munfold. simpl. rewrite Habs.
  repeat split; try done.
  apply Error_NotExist_messages_differ.
Qed.


(** What [Encrypt] leaves behind when the primitive fails on the seed:
    the stored wallet already carries the new version. *)
Lemma Encrypt_fails_on_seed (wltID password : string) s σ w err :
  wallets s !! wltID = Some w →
  Encrypt (meta_seed w) password = Err err →
  Service_Encrypt wltID password s σ
  = (Err err, store wltID (Wallet_setVersion Version w) s, σ).
Proof.
  intros Hw Hseed.
  assert (Hs : s = store wltID w s) by (symmetry; by apply store_id).
  unfold Service_Encrypt.
  rewrite bind_gets. unfold Wallets_Get. rewrite Hw.
  rewrite Hs at 1.
  rewrite bind_wmodify_store, bind_wread_store, bind_liftRes.
  simpl. by rewrite Hseed.
Qed.

(** When the primitive fails on the last seed, the stored wallet also
    carries the encrypted seed. *)
Lemma Encrypt_fails_on_lastSeed (wltID password : string) s σ w sseed err :
  wallets s !! wltID = Some w →
  Encrypt (meta_seed w) password = Ok sseed →
  Encrypt (meta_lastSeed w) password = Err err →
  Service_Encrypt wltID password s σ
  = (Err err, store wltID (Wallet_setSeed sseed (Wallet_setVersion Version w)) s, σ).
Proof.
  intros Hw Hseed Hlseed.
  assert (Hs : s = store wltID w s) by (symmetry; by apply store_id).
  unfold Service_Encrypt.
  rewrite bind_gets. unfold Wallets_Get. rewrite Hw.
  rewrite Hs at 1.
  rewrite bind_wmodify_store, bind_wread_store, bind_liftRes.
  simpl. rewrite Hseed.
  rewrite bind_wmodify_store, bind_wread_store, bind_liftRes.
  simpl. by rewrite Hlseed.
Qed.

(** The loop of [Encrypt] when the primitive fails at entry [j] and not
    before: the entries before [j] are already encrypted when the loop
    returns the error. *)
Lemma Encrypt_entries_loop_fails p password s σ j e err n : ∀ k w,
  k + n = length (Entries w) →
  k ≤ j →
  Entries w !! j = Some e →
  Encrypt (Secret e) password = Err err →
  (∀ i e', k ≤ i < j → Entries w !! i = Some e' →
           ∃ sk, Encrypt (Secret e') password = Ok sk) →
  ∃ es,
    forM_ (seq k n) (Service_Encrypt_entry p password) (store p w s) σ
      = (Err err, store p (Wallet_setEntries es w) s, σ)
    ∧ length es = length (Entries w)
    ∧ (∀ i, i < k ∨ j ≤ i → es !! i = Entries w !! i)
    ∧ (∀ i e', k ≤ i < j → Entries w !! i = Some e' →
         ∃ sk, Encrypt (Secret e') password = Ok sk
               ∧ es !! i = Some (encryptedEntry sk e')).
Proof.
  induction n as [|n IH]; intros k w Hlen Hkj Hj Herr Hbefore.
  - apply lookup_lt_Some in Hj. lia.
  - simpl. unfold mbind, M_bind, bind. unfold Service_Encrypt_entry at 1.
    unfold mbind, M_bind, bind. rewrite wread_store.
    destruct (lookup_lt_is_Some_2 (Entries w) k ltac:(lia)) as [ek Hek].
    unfold index. rewrite Hek. unfold mret, M_ret, ret, liftRes.
    destruct (decide (k = j)) as [->|Hne].
    + assert (ek = e) as -> by congruence. rewrite Herr.
      exists (Entries w). rewrite Wallet_setEntries_id.
      repeat split; try done. intros i e' Hi. lia.
    + destruct (Hbefore k ek ltac:(lia) Hek) as [sk Hsk]. rewrite Hsk.
      rewrite wmodify_store. rewrite wmodify_store.
      set (w1 := Wallet_alterEntry k _ (Wallet_alterEntry k _ w)).
      assert (Hes1 : Entries w1 = <[k := encryptedEntry sk ek]> (Entries w)).
      { unfold w1, Wallet_alterEntry. simpl.
        rewrite list_alter_alter_eq.
        apply list_eq. intros i. destruct (decide (i = k)) as [->|Hik].
        - rewrite list_lookup_alter_eq, Hek.
          rewrite list_lookup_insert_eq by (apply lookup_lt_Some in Hek; done).
          done.
        - rewrite list_lookup_alter_ne, list_lookup_insert_ne by done. done. }
      destruct (IH (S k) w1) as (es & Hrun & Hl & Hout & Hin).
      { rewrite Hes1, length_insert. lia. }
      { lia. }
      { rewrite Hes1, list_lookup_insert_ne by done. done. }
      { done. }
      { intros i e' Hi He'. rewrite Hes1, list_lookup_insert_ne in He' by lia.
        apply (Hbefore i e'); [lia | done]. }
      exists es. split; [exact Hrun|].
      rewrite Hes1, length_insert in Hl. split; [done|]. split.
      * intros i Hi. rewrite Hout by lia. rewrite Hes1.
        apply list_lookup_insert_ne. lia.
      * intros i e' Hi He'. destruct (decide (i = k)) as [->|Hik].
        -- exists sk. assert (e' = ek) as -> by congruence. split; [done|].
           rewrite Hout by lia. rewrite Hes1.
           apply list_lookup_insert_eq. by apply lookup_lt_Some in Hek.
        -- apply (Hin i e'); [lia|]. rewrite Hes1.
           by rewrite list_lookup_insert_ne.
Qed.

(** When the primitive fails on the secret key of entry [j], the stored
    wallet carries the new version, the encrypted seed and last seed,
    and the encrypted entries before [j]. *)
Lemma Encrypt_fails_on_entry (wltID password : string) s σ w sseed lsseed j e err :
  wallets s !! wltID = Some w →
  Encrypt (meta_seed w) password = Ok sseed →
  Encrypt (meta_lastSeed w) password = Ok lsseed →
  Entries w !! j = Some e →
  Encrypt (Secret e) password = Err err →
  (∀ i e', i < j → Entries w !! i = Some e' →
           ∃ sk, Encrypt (Secret e') password = Ok sk) →
  ∃ es,
    Service_Encrypt wltID password s σ
    = (Err err,
       store wltID
         (Wallet_setEntries es
            (Wallet_setLastSeed lsseed
               (Wallet_setSeed sseed (Wallet_setVersion Version w)))) s, σ)
    ∧ length es = length (Entries w)
    ∧ (∀ i, j ≤ i → es !! i = Entries w !! i)
    ∧ (∀ i e', i < j → Entries w !! i = Some e' →
         ∃ sk, Encrypt (Secret e') password = Ok sk
               ∧ es !! i = Some (encryptedEntry sk e')).
Proof.
  intros Hw Hseed Hlseed Hj Herr Hbefore.
  assert (Hs : s = store wltID w s) by (symmetry; by apply store_id).
  set (w3 := Wallet_setLastSeed lsseed
               (Wallet_setSeed sseed (Wallet_setVersion Version w))).
  destruct (Encrypt_entries_loop_fails wltID password s σ j e err
              (length (Entries w3)) 0 w3)
    as (es & Hloop & Hlen & Hout & Hin); try done.
  { lia. }
  { intros i e' Hi He'. apply (Hbefore i e'); [lia | done]. }
  exists es. split.
  - unfold Service_Encrypt.
    rewrite bind_gets. unfold Wallets_Get. rewrite Hw.
    rewrite Hs at 1.
    rewrite bind_wmodify_store, bind_wread_store, bind_liftRes.
    simpl Wallet_seed. rewrite Hseed.
    rewrite bind_wmodify_store, bind_wread_store, bind_liftRes.
    simpl Wallet_lastSeed. rewrite Hlseed.
    rewrite bind_wmodify_store, bind_wread_store.
    fold w3. by rewrite (bind_run _ _ _ _ _ _ _ Hloop).
  - split; [done|]. split.
    + intros i Hi. apply Hout. by right.
    + intros i e' Hi He'. apply (Hin i e'); [lia | done].
Qed.
(** C3: in any registry state, when the wallet built from the options
    derives a first address that [firstAddrIDMap] already records,
    [CreateWallet] fails with the duplicate-wallet error that carries
    the recorded wallet id, and the registry is exactly as before: the
    new wallet is dropped, [wallets] (and so the wallet count) and
    [firstAddrIDMap] are unchanged. *)
Theorem CreateWallet_duplicate fuel wltName options s σ name σ1 w0 e0 id :
  reachable s →
  walletName fuel wltName s σ = (Ok name, s, σ1) →
  NewWallet name options = Ok w0 →
  Entries (Wallet_GenerateAddresses 1 w0).2 !! 0%nat = Some e0 →
  firstAddrIDMap s !! Address_String (Entry_Address e0) = Some id →
  ∃ s', Service_CreateWallet fuel wltName options s σ
        = (Err (Errorf ("duplicate wallet with " +:+ id)), s', σ1)
      ∧ s' = s
      ∧ wallets s' = wallets s
      ∧ size (wallets s') = size (wallets s)
      ∧ firstAddrIDMap s' = firstAddrIDMap s.
Proof.
  intros Hreach Hname Hnew He0 Hidx.
  assert (Hen : disableWalletAPI s = false).
  { destruct (disableWalletAPI s) eqn:Hd; [|done].
    destruct (reachable_disabled_empty s Hreach Hd) as [_ Hi].
    rewrite Hi in Hidx. by rewrite lookup_empty in Hidx. }
  exists s. split; [|done].
  unfold Service_CreateWallet. rewrite bind_gets, Hen.
  fold (walletName fuel wltName).
  rewrite (bind_run _ _ _ _ _ _ _ Hname).
  unfold loadWallet. rewrite bind_liftRes, Hnew.
  unfold index. rewrite He0. rewrite bind_ret, bind_gets. rewrite Hidx. done.
Qed.

(** C5: when [CreateWallet] has passed the duplicate check and added the
    new wallet to [wallets], and saving the wallet fails, the added
    wallet is removed again, [firstAddrIDMap] is not written, and the
    error of [Save] is returned: the registry is exactly as before the
    call. *)
Theorem CreateWallet_save_failure fuel wltName options s σ name σ1 w0 e0 err σ2 :
  disableWalletAPI s = false →
  walletName fuel wltName s σ = (Ok name, s, σ1) →
  NewWallet name options = Ok w0 →
  Entries (Wallet_GenerateAddresses 1 w0).2 !! 0%nat = Some e0 →
  firstAddrIDMap s !! Address_String (Entry_Address e0) = None →
  wallets s !! Wallet_Filename (Wallet_GenerateAddresses 1 w0).2 = None →
  Save (WalletDirectory s) (Wallet_GenerateAddresses 1 w0).2 σ1 = (Some err, σ2) →
  Service_CreateWallet fuel wltName options s σ = (Err err, s, σ2).
Proof.
  intros Hen Hname Hnew He0 Hidx Hfresh Hsave.
  unfold Service_CreateWallet. rewrite bind_gets, Hen.
  fold (walletName fuel wltName).
  rewrite (bind_run _ _ _ _ _ _ _ Hname).
  unfold loadWallet. rewrite bind_liftRes, Hnew.
  unfold index. rewrite He0. rewrite bind_ret, bind_gets. rewrite Hidx.
  simpl andb. cbv iota. rewrite bind_ret.
  set (w := (Wallet_GenerateAddresses 1 w0).2) in *.
  rewrite (bind_run _ _ _ _ _ _ _ (Wallets_Add_fresh w s σ1 Hfresh)).
  rewrite bind_gets. simpl WalletDirectory.
  rewrite (bind_run _ _ _ _ _ _ _ (try_Save_fails _ _ _ _ _ _ Hsave)).
  unfold mbind, M_bind, bind, modify, throw. simpl.
  unfold Wallets_Remove, Wallet_GetID, Wallet_Filename.
  rewrite delete_insert_id by done. by destruct s.
Qed.

(** In every registry state reached with the disabled flag,
    [CreateWallet] and [ReloadWallets] fail with [ErrWalletApiDisabled];
    the methods without a test of the flag fail at their lookup, because
    a disabled registry holds no wallet: [NewAddresses] and [Encrypt]
    with the not-found error that carries the id,
    [ScanAheadWalletAddresses] with the one that does not, and
    [UpdateWalletLabel] with the error of the modelled [Wallets.update].
    None of the six changes the registry or the world. *)
Theorem disabled_registry_rejects s σ :
  reachable s → disableWalletAPI s = true →
  (∀ fuel walletDir σ0,
     ∃ s0, NewService fuel walletDir true σ0 = (Ok s0, σ0)
           ∧ disableWalletAPI s0 = true)
  ∧ (∀ fuel wltName options,
       Service_CreateWallet fuel wltName options s σ = (Err ErrWalletApiDisabled, s, σ))
  ∧ Service_ReloadWallets s σ = (Err ErrWalletApiDisabled, s, σ)
  ∧ (∀ wltID num,
       Service_NewAddresses wltID num s σ = (Err (ErrWalletNotExistID wltID), s, σ))
  ∧ (∀ wltID password,
       Service_Encrypt wltID password s σ = (Err (ErrWalletNotExistID wltID), s, σ))
  ∧ (∀ wltName scanN bg,
       Service_ScanAheadWalletAddresses wltName scanN bg s σ
       = (Err ErrWalletNotExist, s, σ))
  ∧ (∀ wltID label,
       Service_UpdateWalletLabel wltID label s σ
       = (Err (ErrWalletNotExistID wltID), s, σ)).
Proof.
  intros Hreach Hdis.
  destruct (reachable_disabled_empty s Hreach Hdis) as [Hemp _].
  assert (Habs : ∀ id, wallets s !! id = None) by (intros; by rewrite Hemp).
  split; [by eexists|].
  split.
  { intros. unfold Service_CreateWallet. by rewrite bind_gets, Hdis. }
  split.
  { unfold Service_ReloadWallets. by rewrite bind_gets, Hdis. }
  split; [intros; by apply NewAddresses_absent|].
  split; [intros; by apply Encrypt_absent|].
  split; [intros; by apply ScanAheadWalletAddresses_absent|].
  intros; by apply UpdateWalletLabel_absent.
Qed.

(** C7: for a stored wallet and a count [num], when the derivation of
    [num] entries and the save succeed, [NewAddresses] returns exactly
    the [num] addresses of the new entries, the stored wallet has its
    old entries in their old places followed by the new ones, and
    [GetAddresses] then returns the old addresses followed by the new
    ones. *)
Theorem NewAddresses_appends wltID num s σ w ps σ1 :
  wallets s !! wltID = Some w →
  generate (N.to_nat num) (Wallet_lastSeed w) = Ok ps →
  Save (WalletDirectory s) (Wallet_GenerateAddresses num w).2 σ = (None, σ1) →
  ∃ addrs s' w',
    Service_NewAddresses wltID num s σ = (Ok addrs, s', σ1)
    ∧ length addrs = N.to_nat num
    ∧ addrs = Entry_Address <$> ps.*1
    ∧ s' = store wltID w' s
    ∧ Entries w' = (Entries w ++ ps.*1)%list
    ∧ length (Entries w') = (length (Entries w) + N.to_nat num)%nat
    ∧ (∀ i e, Entries w !! i = Some e → Entries w' !! i = Some e)
    ∧ Service_GetAddresses wltID s σ = (Ok (Wallet_GetAddresses w), s, σ)
    ∧ Service_GetAddresses wltID s' σ1
      = (Ok (Wallet_GetAddresses w ++ addrs)%list, s', σ1).
Proof.
  intros Hw Hgen Hsave.
  assert (Hs : s = store wltID w s) by (symmetry; by apply store_id).
  pose proof (generate_length _ _ _ Hgen) as Hlen.
  unfold Wallet_GenerateAddresses in Hsave. rewrite Hgen in Hsave. simpl in Hsave.
  set (w' := Wallet_setLastSeed (checkpoint (Wallet_lastSeed w) ps)
               (Wallet_setEntries (Entries w ++ ps.*1)%list w)) in *.
  exists (Entry_Address <$> ps.*1), (store wltID w' s), w'.
  split.
  { unfold Service_NewAddresses. rewrite bind_gets. unfold Wallets_Get. rewrite Hw.
    rewrite Hs at 1.
    rewrite (bind_run _ _ _ _ _ _ _ (wrun_store _ _ _ _ _)).
    unfold Wallet_GenerateAddresses. rewrite Hgen. simpl.
    fold w'. rewrite bind_wread_store, bind_gets. simpl WalletDirectory.
    rewrite bind_liftErr, Hsave. done. }
  split; [by rewrite !length_fmap|].
  split; [done|]. split; [done|]. split; [done|].
  split; [simpl; by rewrite length_app, length_fmap, Hlen|].
  split; [intros i e Hi; simpl; by apply lookup_app_l_Some|].
  split.
  { unfold Service_GetAddresses. rewrite bind_gets. unfold Wallets_Get. by rewrite Hw. }
  unfold Service_GetAddresses. rewrite bind_gets. unfold Wallets_Get.
  rewrite lookup_store. unfold Wallet_GetAddresses. simpl. by rewrite fmap_app.
Qed.

(** C8: [ScanAheadWalletAddresses] on a stored wallet, whatever the
    probe count, the balance getter and the outcome, removes no entry:
    afterwards the wallet is still stored, each old entry is in its old
    place, the entry count is at least the old one, and it is the old
    one when no probed address has a positive balance. *)
Theorem ScanAhead_never_removes wltName scanN bg s σ w r s' σ' :
  wallets s !! wltName = Some w →
  Service_ScanAheadWalletAddresses wltName scanN bg s σ = (r, s', σ') →
  ∃ w', wallets s' !! wltName = Some w'
      ∧ (length (Entries w) ≤ length (Entries w'))%nat
      ∧ (∀ i e, Entries w !! i = Some e → Entries w' !! i = Some e)
      ∧ ((∀ g ps bals,
            bg = Some g →
            generate (N.to_nat scanN) (Wallet_lastSeed w) = Ok ps →
            GetBalanceOfAddrs g (Entry_Address <$> ps.*1) = Ok bals →
            ∀ b, b ∈ bals → positive b = false) →
         length (Entries w') = length (Entries w)).
Proof.
  intros Hw Hrun.
  assert (Hsame : wallets s' = wallets s →
            ∃ w', wallets s' !! wltName = Some w'
              ∧ (length (Entries w) ≤ length (Entries w'))%nat
              ∧ (∀ i e, Entries w !! i = Some e → Entries w' !! i = Some e)
              ∧ ((∀ g ps bals,
                    bg = Some g →
                    generate (N.to_nat scanN) (Wallet_lastSeed w) = Ok ps →
                    GetBalanceOfAddrs g (Entry_Address <$> ps.*1) = Ok bals →
                    ∀ b, b ∈ bals → positive b = false) →
                  length (Entries w') = length (Entries w))).
  { intros ->. exists w. repeat split; try done. }
  unfold Service_ScanAheadWalletAddresses in Hrun.
  assert (Hget : getWallet wltName s σ = (Ok w, s, σ)).
  { unfold getWallet. rewrite bind_gets. unfold Wallets_Get. by rewrite Hw. }
  rewrite (bind_run _ _ _ _ _ _ _ Hget) in Hrun.
  unfold Wallet_ScanAddresses in Hrun.
  destruct (generate (N.to_nat scanN) (Wallet_lastSeed w)) as [ps| | |] eqn:Hgen;
    try (inversion Hrun; subst; by apply Hsame).
  destruct bg as [g|]; [|inversion Hrun; subst; by apply Hsame].
  destruct (GetBalanceOfAddrs g (Entry_Address <$> ps.*1)) as [bals| | |] eqn:Hbal;
    try (inversion Hrun; subst; by apply Hsame).
  rewrite bind_assoc, bind_liftRes in Hrun.
  rewrite bind_ret, bind_gets, bind_liftErr in Hrun.
  destruct (Save _ _ σ) as [[err|] σ1]; [inversion Hrun; subst; by apply Hsame|].
  set (kept := take (keepNum bals) ps) in Hrun.
  set (w1 := Wallet_setLastSeed _ _) in Hrun.
  unfold Wallets_set, mbind, M_bind, bind, modify, ret in Hrun.
  inversion Hrun; subst r s' σ'; clear Hrun. simpl.
  unfold Wallet_clone.
  change (Wallet_Filename w1) with (meta_filename w).
  destruct (decide (meta_filename w = wltName)) as [Heq|Hne].
  - exists w1. rewrite Heq, lookup_insert_eq. split; [done|]. simpl.
    split; [rewrite length_app; lia|].
    split; [intros i e Hi; by apply lookup_app_l_Some|].
    intros Hnone. rewrite length_app.
    unfold kept. rewrite (keepNum_none bals); [simpl; lia|].
    by apply (Hnone g ps).
  - exists w. rewrite lookup_insert_ne by done. by repeat split.
Qed.

(** C4, as the code has it: the deduplication pass on loaded wallets,
    visited in any order, with an empty index at the start.  It returns
    a part of the wallets it was given.  Every wallet without entries is
    removed.  Of two wallets with the same first address, the one with
    strictly fewer entries is removed, and on equal counts the one
    visited later is removed.  For every first address one wallet with
    that address survives, and it has the largest entry count among the
    wallets with that address; when only two wallets share the address,
    the one with more entries, or on a tie the one visited first,
    survives.  Two survivors never share a first address, and
    [firstAddrIDMap] maps an address to an id exactly when the survivor
    with that id has that first address. *)
Theorem removeDup_keeps_best (visit : list (string * Wallet))
    (wlts : gmap string Wallet) s σ :
  visit ≡ₚ map_to_list wlts →
  firstAddrIDMap s = ∅ →
  ∃ wlts' idx',
    removeDup_in visit wlts s σ = (Ok wlts', Service_setFirstAddrIDMap idx' s, σ)
    ∧ (∀ id w, wlts' !! id = Some w → wlts !! id = Some w)
    ∧ (∀ id w, wlts !! id = Some w → Entries w = [] → wlts' !! id = None)
    ∧ (∀ id1 w1 id2 w2 a,
         wlts !! id1 = Some w1 → wlts !! id2 = Some w2 →
         firstAddress w1 = Some a → firstAddress w2 = Some a →
         (length (Entries w1) < length (Entries w2) → wlts' !! id1 = None)
         ∧ (length (Entries w1) = length (Entries w2) → precedes visit id1 id2 →
            wlts' !! id2 = None))
    ∧ (∀ id w a, wlts !! id = Some w → firstAddress w = Some a →
         ∃ idk wk, wlts' !! idk = Some wk ∧ firstAddress wk = Some a
                   ∧ length (Entries w) ≤ length (Entries wk))
    ∧ (∀ id1 w1 id2 w2 a,
         wlts !! id1 = Some w1 → wlts !! id2 = Some w2 →
         firstAddress w1 = Some a → firstAddress w2 = Some a →
         (∀ id3 w3, wlts !! id3 = Some w3 → firstAddress w3 = Some a →
                    id3 = id1 ∨ id3 = id2) →
         length (Entries w2) < length (Entries w1)
         ∨ (length (Entries w1) = length (Entries w2) ∧ precedes visit id1 id2) →
         wlts' !! id1 = Some w1)
    ∧ (∀ id1 w1 id2 w2 a,
         wlts' !! id1 = Some w1 → wlts' !! id2 = Some w2 →
         firstAddress w1 = Some a → firstAddress w2 = Some a → id1 = id2)
    ∧ (∀ a id, idx' !! a = Some id ↔
               ∃ w, wlts' !! id = Some w ∧ firstAddress w = Some a).
Proof.
  intros Hperm Hidx0.
  assert (Hin : ∀ id w, (id, w) ∈ visit ↔ wlts !! id = Some w).
  { intros id w. rewrite Hperm. apply elem_of_map_to_list. }
  assert (Hnd : NoDup visit.*1).
  { rewrite Hperm. apply NoDup_fst_map_to_list. }
  destruct (removeDup_loop_inv wlts σ visit [] [] s) as (rm & idx' & Hrun & Hinv).
  { intros id w. simpl. apply Hin. }
  { done. }
  { rewrite Hidx0. apply dedup_inv_nil. }
  simpl in Hinv.
  set (wlts' := foldl (λ m id, Wallets_Remove id m) wlts rm).
  assert (Hlook : ∀ id, wlts' !! id = if decide (id ∈ rm) then None else wlts !! id)
    by apply foldl_Wallets_Remove.
  (* every wallet with an address is the recorded one or is removed *)
  assert (Hwin : ∀ id w a, wlts !! id = Some w → firstAddress w = Some a →
            ∃ idk wk, idx' !! a = Some idk ∧ wlts !! idk = Some wk
              ∧ firstAddress wk = Some a ∧ (idk ∉ rm)
              ∧ length (Entries w) ≤ length (Entries wk)
              ∧ (id ≠ idk → id ∈ rm
                 ∧ (length (Entries w) = length (Entries wk) → precedes visit idk id))).
  { intros id w a Hw Ha. apply Hin in Hw.
    destruct (inv_indexed _ _ _ Hinv id w a Hw Ha) as [idk Hidk].
    destruct (inv_winner _ _ _ Hinv a idk Hidk) as (wk & Hwk & Hak & Hrm & Hbest).
    exists idk, wk. split; [done|]. split; [by apply Hin|].
    split; [done|]. split; [done|].
    destruct (decide (id = idk)) as [->|Hne].
    - assert (w = wk) as -> by (apply Hin in Hw, Hwk; congruence).
      split; [done|]. by intros ?.
    - destruct (Hbest id w Hw Ha Hne) as (H1 & H2 & H3). split; [done|]. by intros _. }
  exists wlts', idx'. split.
  { unfold removeDup_in. by rewrite (bind_run _ _ _ _ _ _ _ Hrun). }
  split.
  { intros id w. rewrite Hlook. by case_decide. }
  split.
  { intros id w Hw Hnil. rewrite Hlook. rewrite decide_True; [done|].
    apply (inv_empty _ _ _ Hinv id w); [by apply Hin|].
    apply firstAddress_None. by rewrite Hnil. }
  split.
  { intros id1 w1 id2 w2 a Hw1 Hw2 Ha1 Ha2.
    destruct (Hwin id1 w1 a Hw1 Ha1) as (idk & wk & Hidk & Hwk & Hak & Hrm & Hle1 & Hne1).
    destruct (Hwin id2 w2 a Hw2 Ha2) as (idk' & wk' & Hidk' & Hwk' & _ & _ & Hle2 & Hne2).
    assert (idk' = idk) as -> by congruence.
    assert (wk' = wk) as -> by congruence.
    split.
    - intros Hlt. rewrite Hlook. rewrite decide_True; [done|].
      apply Hne1. intros ->. assert (w1 = wk) as -> by congruence. lia.
    - intros Heq Hprec. rewrite Hlook. rewrite decide_True; [done|].
      apply Hne2. intros ->. assert (w2 = wk) as -> by congruence.
      destruct (decide (id1 = idk)) as [->|Hne].
      + destruct Hprec as (i & j & Hij & Hi & Hj).
        pose proof (NoDup_lookup _ _ _ _ Hnd Hi Hj). lia.
      + destruct (Hne1 Hne) as [_ Hp]. specialize (Hp Heq).
        by apply (precedes_asym visit id1 idk Hnd). }
  split.
  { intros id w a Hw Ha.
    destruct (Hwin id w a Hw Ha) as (idk & wk & Hidk & Hwk & Hak & Hrm & Hle & _).
    exists idk, wk. rewrite Hlook, decide_False by done. done. }
  split.
  { intros id1 w1 id2 w2 a Hw1 Hw2 Ha1 Ha2 Honly Hcmp.
    destruct (Hwin id1 w1 a Hw1 Ha1) as (idk & wk & Hidk & Hwk & Hak & Hrm & Hle1 & Hne1).
    destruct (Hwin id2 w2 a Hw2 Ha2) as (idk' & wk' & Hidk' & Hwk' & _ & _ & Hle2 & Hne2).
    assert (idk' = idk) as -> by congruence.
    assert (wk' = wk) as -> by congruence.
    rewrite Hlook.
    destruct (Honly idk wk Hwk Hak) as [->| ->].
    - rewrite decide_False by done. done.
    - assert (w2 = wk) as -> by congruence.
      destruct (decide (id1 = id2)) as [->|Hne].
      + rewrite decide_False by done. done.
      + exfalso. destruct (Hne1 Hne) as [_ Hp].
        destruct Hcmp as [Hlt|[Heq Hprec]]; [lia|].
        by apply (precedes_asym visit id1 id2 Hnd Hprec), Hp. }
  split.
  { intros id1 w1 id2 w2 a. rewrite !Hlook.
    destruct (decide (id1 ∈ rm)) as [|Hn1]; [done|].
    destruct (decide (id2 ∈ rm)) as [|Hn2]; [done|].
    intros Hw1 Hw2 Ha1 Ha2.
    destruct (Hwin id1 w1 a Hw1 Ha1) as (idk & wk & Hidk & _ & _ & _ & _ & Hne1).
    destruct (Hwin id2 w2 a Hw2 Ha2) as (idk' & wk' & Hidk' & _ & _ & _ & _ & Hne2).
    assert (idk' = idk) as -> by congruence.
    destruct (decide (id1 = idk)) as [->|Hne]; [|by destruct (Hne1 Hne)].
    destruct (decide (id2 = idk)) as [->|Hne']; [done | by destruct (Hne2 Hne')]. }
  intros a id. split.
  - intros Hid.
    destruct (inv_winner _ _ _ Hinv a id Hid) as (w & Hw & Ha & Hrm & _).
    exists w. rewrite Hlook, decide_False by done. split; [by apply Hin | done].
  - intros (w & Hw & Ha). rewrite Hlook in Hw.
    destruct (decide (id ∈ rm)) as [|Hn]; [done|].
    destruct (Hwin id w a Hw Ha) as (idk & wk & Hidk & _ & _ & _ & _ & Hne).
    destruct (decide (id = idk)) as [->|Hne']; [done | by destruct (Hne Hne')].
Qed.

End Properties.

(** * The service on explicit inputs *)

Section Runs.
Import Concrete.
#[local] Existing Instance cCipher.
#[local] Existing Instance cEnv.

(** C10 at an absent id of [serv1]. *)
Lemma NotFound_not_uniform_witness :
  wallets serv1 !! "w9.wlt" = None
  ∧ Service_GetWallet "w9.wlt" serv1 world0 = (Err ErrWalletNotExist, serv1, world0)
  ∧ Service_NewAddresses "w9.wlt" 2 serv1 world0
    = (Err (ErrWalletNotExistID "w9.wlt"), serv1, world0).
Proof.
  assert (Habs : wallets serv1 !! "w9.wlt" = None) by (vm_compute; reflexivity).
  split; [exact Habs|].
  destruct (@NotFound_not_uniform cCipher CWorld cEnv
              "w9.wlt" "pw" 2%N 0%N None tt serv1 world0 Habs)
    as (H1 & _ & H3 & _).
  exact (conj H1 H3).
Defined.



(** C1, the code at a failing input: the stored wallet has the legacy
    version 0.1 and the primitive fails on the seed (empty password).
    [Encrypt] returns the error, and [GetWallet] then returns a wallet
    whose version is no longer 0.1. *)
Theorem Encrypt_failure_not_atomic :
  ∃ s' σ' w',
    Service_GetWallet "w1.wlt" serv1 world0 = (Ok legacyWallet, serv1, world0)
    ∧ Encrypt (Wallet_seed legacyWallet) "" = Err (Errorf "missing password")
    ∧ Service_Encrypt "w1.wlt" "" serv1 world0
      = (Err (Errorf "missing password"), s', σ')
    ∧ Service_GetWallet "w1.wlt" s' σ' = (Ok w', s', σ')
    ∧ meta_version legacyWallet = "0.1"
    ∧ meta_version w' = "0.2"
    ∧ w' ≠ legacyWallet.
Proof.
  assert (Hw : wallets serv1 !! "w1.wlt" = Some legacyWallet)
    by (vm_compute; reflexivity).
  assert (Hseed : Encrypt (meta_seed legacyWallet) "" = Err (Errorf "missing password"))
    by reflexivity.
  exists (store "w1.wlt" (Wallet_setVersion Version legacyWallet) serv1), world0,
         (Wallet_setVersion Version legacyWallet).
  split.
  { unfold Service_GetWallet, getWallet. rewrite bind_gets.
    unfold Wallets_Get. by rewrite Hw. }
  split; [exact Hseed|].
  split; [by apply Encrypt_fails_on_seed|].
  split.
  { unfold Service_GetWallet, getWallet. rewrite bind_gets.
    unfold Wallets_Get. by rewrite lookup_store. }
  repeat split; try done.
Qed.

(** [NewService] on an empty wallet directory: one wallet, labelled
    "Your Wallet", with one address, saved on creation and once more
    by [NewService]. *)
Lemma NewService_empty_directory :
  NewService 1 "/wallets" false world0 = (Ok servN, worldN).
Proof. vm_compute. reflexivity. Qed.

Lemma servN_reachable : reachable servN.
Proof. exact (reachable_new 1 "/wallets" false world0 servN worldN NewService_empty_directory). Qed.

Lemma servDisabled_reachable : reachable servDisabled.
Proof. by apply (reachable_new 0 "/wallets" true world0 servDisabled world0). Qed.

(** C3 at [servN]: a second wallet of the seed of the default wallet. *)
Lemma CreateWallet_duplicate_witness :
  ∃ s', Service_CreateWallet 1 "copy.wlt"
          {| Label := "copy"; Seed := "default mnemonic" |} servN world0
        = (Err (Errorf "duplicate wallet with wallet.wlt"), s', world0)
      ∧ s' = servN.
Proof.
  destruct (@CreateWallet_duplicate cCipher CWorld cEnv 1 "copy.wlt"
              {| Label := "copy"; Seed := "default mnemonic" |}
              servN world0 "copy.wlt" world0
              (freshWallet "copy.wlt" "copy" "default mnemonic")
              (entryOf "default mnemonic")
              "wallet.wlt")
    as (s' & Hrun & Hs & _).
  - exact servN_reachable.
  - reflexivity.
  - reflexivity.
  - reflexivity.
  - vm_compute. reflexivity.
  - exists s'. split; [exact Hrun | exact Hs].
Defined.

(** C5 at [servN] with a full disk. *)
Lemma CreateWallet_save_failure_witness :
  ∃ σ2, Service_CreateWallet 1 "second.wlt"
          {| Label := "second"; Seed := "another seed" |} servN worldFull
        = (Err (Errorf "no space left on device"), servN, σ2).
Proof.
  eexists.
  apply (@CreateWallet_save_failure cCipher CWorld cEnv 1 "second.wlt"
           {| Label := "second"; Seed := "another seed" |}
           servN worldFull "second.wlt" worldFull
           (freshWallet "second.wlt" "second" "another seed")
           (entryOf "another seed")).
  - reflexivity.
  - reflexivity.
  - reflexivity.
  - reflexivity.
  - vm_compute. reflexivity.
  - vm_compute. reflexivity.
  - reflexivity.
Defined.

(** The lemma above at the registry built with the disabled flag. *)
Lemma disabled_registry_rejects_witness :
  Service_ReloadWallets servDisabled world0
  = (Err ErrWalletApiDisabled, servDisabled, world0)
  ∧ Service_NewAddresses "w1.wlt" 1 servDisabled world0
    = (Err (ErrWalletNotExistID "w1.wlt"), servDisabled, world0).
Proof.
  destruct (@disabled_registry_rejects cCipher CWorld cEnv servDisabled world0
              servDisabled_reachable eq_refl)
    as (_ & _ & H2 & H3 & _).
  split; [exact H2 | exact (H3 "w1.wlt" 1%N)].
Defined.

(** C6, the code at a failing input: the registry [NewService] builds
    with the disabled flag, and a call of [NewAddresses].  On that
    registry [CreateWallet] and [ReloadWallets], which test the flag,
    fail with [ErrWalletApiDisabled]; [NewAddresses], [Encrypt] and
    [ScanAheadWalletAddresses], which do not test it, fail with the
    not-found error of their lookup instead, which is not
    [ErrWalletApiDisabled]. *)
Lemma disabled_NewAddresses_not_ApiDisabled :
  NewService 0 "/wallets" true world0 = (Ok servDisabled, world0)
  ∧ disableWalletAPI servDisabled = true
  ∧ Service_CreateWallet 1 "w1.wlt" {| Label := "one"; Seed := "seed words" |}
      servDisabled world0
    = (Err ErrWalletApiDisabled, servDisabled, world0)
  ∧ Service_ReloadWallets servDisabled world0
    = (Err ErrWalletApiDisabled, servDisabled, world0)
  ∧ Service_NewAddresses "w1.wlt" 1 servDisabled world0
    = (Err (ErrWalletNotExistID "w1.wlt"), servDisabled, world0)
  ∧ Service_Encrypt "w1.wlt" "pw" servDisabled world0
    = (Err (ErrWalletNotExistID "w1.wlt"), servDisabled, world0)
  ∧ Service_ScanAheadWalletAddresses "w1.wlt" 3 None servDisabled world0
    = (Err ErrWalletNotExist, servDisabled, world0)
  ∧ (Service_NewAddresses "w1.wlt" 1 servDisabled world0).1.1
    ≠ Err ErrWalletApiDisabled
  ∧ (Service_Encrypt "w1.wlt" "pw" servDisabled world0).1.1
    ≠ Err ErrWalletApiDisabled
  ∧ (Service_ScanAheadWalletAddresses "w1.wlt" 3 None servDisabled world0).1.1
    ≠ Err ErrWalletApiDisabled.
Proof.
  split; [reflexivity|]. split; [reflexivity|].
  split; [vm_compute; reflexivity|]. split; [vm_compute; reflexivity|].
  split; [vm_compute; reflexivity|]. split; [vm_compute; reflexivity|].
  split; [vm_compute; reflexivity|].
  repeat split; vm_compute; discriminate.
Qed.

(** C7 at [servN]: three new addresses on the wallet with one entry
    leave four addresses, the old one first. *)
Lemma NewAddresses_appends_witness :
  ∃ addrs s',
    Service_NewAddresses "wallet.wlt" 3 servN world0 = (Ok addrs, s', logged "save wallet.wlt" world0)
    ∧ length addrs = 3%nat
    ∧ Service_GetAddresses "wallet.wlt" s' world0
      = (Ok ("addr(default mnemonic)" :: addrs), s', world0).
Proof.
  destruct (@NewAddresses_appends cCipher CWorld cEnv "wallet.wlt" 3%N servN world0
              defaultWallet
              [ (entryOf "next(default mnemonic)", "next(next(default mnemonic))");
                (entryOf "next(next(default mnemonic))",
                 "next(next(next(default mnemonic)))");
                (entryOf "next(next(next(default mnemonic)))",
                 "next(next(next(next(default mnemonic))))") ]
              (logged "save wallet.wlt" world0))
    as (addrs & s' & w' & Hrun & Hlen & Haddrs & Hs' & _ & _ & _ & _ & Hget).
  - vm_compute. reflexivity.
  - vm_compute. reflexivity.
  - vm_compute. reflexivity.
  - exists addrs, s'. split; [exact Hrun|]. split; [exact Hlen|].
    unfold Service_GetAddresses in *. rewrite bind_gets in *.
    rewrite Hs' in *. unfold Wallets_Get in *. rewrite lookup_store in *.
    by inversion Hget.
Defined.

(** C8 at [servN]: a scan of three addresses with coins on the second. *)
Lemma ScanAhead_never_removes_witness :
  ∃ w', wallets (Service_ScanAheadWalletAddresses "wallet.wlt" 3 (Some bgSecond)
                   servN world0).1.2 !! "wallet.wlt" = Some w'
        ∧ (length (Entries defaultWallet) ≤ length (Entries w'))%nat.
Proof.
  destruct (Service_ScanAheadWalletAddresses "wallet.wlt" 3 (Some bgSecond) servN world0)
    as [[r s'] σ'] eqn:Hrun.
  destruct (@ScanAhead_never_removes cCipher CWorld cEnv "wallet.wlt" 3%N
              (Some bgSecond) servN world0 defaultWallet r s' σ')
    as (w' & Hw' & Hle & _).
  - vm_compute. reflexivity.
  - exact Hrun.
  - exists w'. split; [exact Hw' | exact Hle].
Defined.

(** The scan above keeps the two probed entries up to the one with
    coins and drops the third. *)
Example ScanAhead_keeps_up_to_balance :
  ∃ w' s' σ',
    Service_ScanAheadWalletAddresses "wallet.wlt" 3 (Some bgSecond) servN world0
    = (Ok w', s', σ')
    ∧ wallets s' !! "wallet.wlt" = Some w'
    ∧ length (Entries w') = 3%nat.
Proof.
  eexists _, _, _. split; [vm_compute; reflexivity|].
  split; vm_compute; reflexivity.
Qed.

(** C4 at three wallets of one seed. *)
Lemma removeDup_keeps_best_witness :
  ∃ wlts' idx',
    removeDup_in (map_to_list wlts3) wlts3 serv0 world0
    = (Ok wlts', Service_setFirstAddrIDMap idx' serv0, world0)
    ∧ (∀ id w, wlts' !! id = Some w → wlts3 !! id = Some w).
Proof.
  destruct (@removeDup_keeps_best cCipher CWorld (map_to_list wlts3) wlts3
              serv0 world0 (reflexivity _) eq_refl)
    as (wlts' & idx' & Hrun & Hsub & _).
  exists wlts', idx'. split; [exact Hrun | exact Hsub].
Defined.

(** C4, counterexample: three loaded wallets share their first address
    and hold 3, 4 and 5 entries.  Of the pair with 3 and 4 entries, the
    one with strictly more entries does not survive the pass: only the
    wallet with 5 entries does. *)
Lemma removeDup_larger_of_pair_removed :
  ∃ wlts' s',
    removeDup wlts3 serv0 world0 = (Ok wlts', s', world0)
    ∧ wlts3 !! "a.wlt" = Some (sharedWallet "a.wlt" 3)
    ∧ wlts3 !! "c.wlt" = Some (sharedWallet "c.wlt" 4)
    ∧ firstAddress (sharedWallet "a.wlt" 3) = Some "addr(shared)"
    ∧ firstAddress (sharedWallet "c.wlt" 4) = Some "addr(shared)"
    ∧ length (Entries (sharedWallet "a.wlt" 3)) = 3
    ∧ length (Entries (sharedWallet "c.wlt" 4)) = 4
    ∧ wlts' !! "c.wlt" = None
    ∧ wlts' = {[ "b.wlt" := sharedWallet "b.wlt" 5 ]}
    ∧ firstAddrIDMap s' = {[ "addr(shared)" := "b.wlt" ]}.
Proof.
  eexists _, _. split; [vm_compute; reflexivity|].
  repeat split; vm_compute; reflexivity.
Qed.

End Runs.

(** ** Further properties of the service *)

Section Coverage.
Context {C : Cipher} {World : Type} {E : Env World}.
Implicit Types (s : Service) (σ : World) (w : Wallet).

Lemma Encrypt_entries_loop_frame p password s σ n : ∀ k w,
  k + n = length (Entries w) →
  ∃ r es,
    forM_ (seq k n) (Service_Encrypt_entry p password) (store p w s) σ
      = (r, store p (Wallet_setEntries es w) s, σ)
    ∧ publicPart es = publicPart (Entries w).
Proof.
  induction n as [|n IH]; intros k w Hlen.
  - exists (Ok tt), (Entries w). simpl. by rewrite Wallet_setEntries_id.
  - simpl. unfold mbind, M_bind, bind. unfold Service_Encrypt_entry at 1.
    unfold mbind, M_bind, bind. rewrite wread_store.
    destruct (lookup_lt_is_Some_2 (Entries w) k ltac:(lia)) as [e He].
    unfold index. rewrite He. unfold mret, M_ret, ret, liftRes.
    destruct (Encrypt (Secret e) password) as [sk| err | |] eqn:Henc;
      try (eexists _, (Entries w); rewrite Wallet_setEntries_id; by split).
    rewrite wmodify_store. rewrite wmodify_store.
    set (w1 := Wallet_alterEntry k _ (Wallet_alterEntry k _ w)).
    assert (Hpub : publicPart (Entries w1) = publicPart (Entries w)).
    { unfold w1, Wallet_alterEntry, publicPart. simpl.
      rewrite list_alter_alter_eq. apply list_eq. intros i.
      rewrite !list_lookup_fmap. destruct (decide (i = k)) as [->|Hne].
      - rewrite list_lookup_alter_eq, He. done.
      - by rewrite list_lookup_alter_ne. }
    destruct (IH (S k) w1) as (r & es & Hrun & Hes).
    { apply (f_equal length) in Hpub. unfold publicPart in Hpub.
      rewrite !length_fmap in Hpub. lia. }
    exists r, es. split; [exact Hrun | congruence].
Qed.

(** The steps of [Encrypt] after the loop leave the registry alone. *)
Lemma Encrypt_frame (wltID password : string) s σ w r s' σ' :
  wallets s !! wltID = Some w →
  Service_Encrypt wltID password s σ = (r, s', σ') →
  ∃ w', s' = store wltID w' s ∧ sameIdentity w w'.
Proof.
  intros Hw Hrun.
  assert (Hs : s = store wltID w s) by (symmetry; by apply store_id).
  unfold Service_Encrypt in Hrun.
  rewrite bind_gets in Hrun. unfold Wallets_Get in Hrun. rewrite Hw in Hrun.
  rewrite Hs in Hrun.
  rewrite bind_wmodify_store, bind_wread_store, bind_liftRes in Hrun.
  simpl in Hrun.
  destruct (Encrypt (meta_seed w) password) as [sseed| | |] eqn:Hseed;
    try (inversion Hrun; subst; eexists; by split).
  rewrite bind_wmodify_store, bind_wread_store, bind_liftRes in Hrun.
  simpl in Hrun.
  destruct (Encrypt (meta_lastSeed w) password) as [lsseed| | |] eqn:Hlseed;
    try (inversion Hrun; subst; eexists; by split).
  rewrite bind_wmodify_store, bind_wread_store in Hrun.
  set (w3 := Wallet_setLastSeed lsseed _) in Hrun.
  destruct (Encrypt_entries_loop_frame wltID password s σ (length (Entries w3)) 0 w3)
    as (rl & es & Hloop & Hpub); [done|].
  rewrite (bind_run _ _ _ _ _ _ _ Hloop) in Hrun.
  exists (Wallet_setEntries es w3). split; [|by repeat split].
  destruct rl as [[]| | |]; try (by inversion Hrun).
  rewrite bind_wread_store, bind_gets, bind_liftErr in Hrun.
  destruct (Save _ _ σ) as [[err|] σ1]; [by inversion Hrun|].
  destruct (String.eqb (Wallet_Version w) "0.1").
  - rewrite bind_assoc, bind_liftIO in Hrun.
    destruct (os_Stat _ σ1) as [[] σ2].
    + rewrite bind_liftErr in Hrun.
      destruct (os_Remove _ σ2) as [[err|] σ3]; [by inversion Hrun|].
      rewrite bind_wread_store in Hrun. by inversion Hrun.
    + rewrite bind_ret, bind_wread_store in Hrun. by inversion Hrun.
    + rewrite bind_ret, bind_wread_store in Hrun. by inversion Hrun.
    + by inversion Hrun.
  - rewrite bind_ret, bind_wread_store in Hrun. by inversion Hrun.
Qed.

Lemma encryptedEntries_length password es : ∀ es',
  encryptedEntries password es = Some es' → length es' = length es.
Proof.
  induction es as [|e es IH]; intros es'; simpl.
  - by intros [= <-].
  - destruct (Encrypt _ _); try done.
    destruct (encryptedEntries _ _) as [es''|]; try done.
    intros [= <-]. simpl. f_equal. by apply IH.
Qed.

Lemma Encrypt_entries_loop_ok p password s σ rest : ∀ pre rest' w,
  (Entries w) = pre ++ rest →
  encryptedEntries password rest = Some rest' →
  forM_ (seq (length pre) (length rest)) (Service_Encrypt_entry p password)
    (store p w s) σ
  = (Ok tt, store p (Wallet_setEntries (pre ++ rest') w) s, σ).
Proof.
  induction rest as [|e rest IH]; intros pre rest' w Hes Henc.
  - simpl in *. injection Henc as <-. rewrite <- Hes.
    by rewrite Wallet_setEntries_id.
  - simpl in Henc.
    destruct (Encrypt (Secret e) password) as [sk| | |] eqn:Hsk; try done.
    destruct (encryptedEntries password rest) as [rest''|] eqn:Hrest; try done.
    injection Henc as <-.
    simpl. unfold mbind, M_bind, bind. unfold Service_Encrypt_entry at 1.
    unfold mbind, M_bind, bind. rewrite wread_store.
    assert (He : Entries w !! length pre = Some e).
    { rewrite Hes. by rewrite list_lookup_middle. }
    unfold index. rewrite He. unfold mret, M_ret, ret, liftRes. rewrite Hsk.
    rewrite wmodify_store. rewrite wmodify_store.
    set (w1 := Wallet_alterEntry _ _ (Wallet_alterEntry _ _ w)).
    assert (Hes1 : Entries w1 = (pre ++ [encryptedEntry sk e]) ++ rest).
    { unfold w1, Wallet_alterEntry. simpl. rewrite list_alter_alter_eq, Hes.
      rewrite <- app_assoc. simpl.
      replace (length pre) with (length pre + 0) at 1 by lia.
      by rewrite alter_app_r. }
    specialize (IH (pre ++ [encryptedEntry sk e]) rest'' w1 Hes1 eq_refl).
    rewrite length_app in IH. simpl in IH.
    replace (length pre + 1) with (S (length pre)) in IH by lia.
    rewrite IH. by rewrite <- app_assoc.
Qed.

(** [Encrypt] up to the call of [Save], when the primitive succeeds
    throughout. *)
Lemma Encrypt_to_Save (wltID password : string) s σ w w' :
  wallets s !! wltID = Some w →
  encryptedWallet password w = Some w' →
  Service_Encrypt wltID password s σ
  = match Save (WalletDirectory s) w' σ with
    | (Some err, σ1) => (Err err, store wltID w' s, σ1)
    | (None, σ1) =>
      if String.eqb (Wallet_Version w) "0.1" then
        match os_Stat (filepath_Join (WalletDirectory s)
                         (Wallet_Filename w +:+ ".bak")) σ1 with
        | (StatFile, σ2) =>
          match os_Remove (filepath_Join (WalletDirectory s)
                             (Wallet_Filename w +:+ ".bak")) σ2 with
          | (Some err, σ3) => (Err err, store wltID w' s, σ3)
          | (None, σ3) => (Ok w', store wltID w' s, σ3)
          end
        | (StatError, σ2) => (Panic, store wltID w' s, σ2)
        | (_, σ2) => (Ok w', store wltID w' s, σ2)
        end
      else (Ok w', store wltID w' s, σ1)
    end.
Proof.
  intros Hw Henc.
  assert (Hs : s = store wltID w s) by (symmetry; by apply store_id).
  unfold encryptedWallet in Henc.
  destruct (Encrypt (Wallet_seed w) password) as [sseed| | |] eqn:Hseed; try done.
  destruct (Encrypt (Wallet_lastSeed w) password) as [lsseed| | |] eqn:Hlseed; try done.
  destruct (encryptedEntries password (Entries w)) as [es|] eqn:Hes; try done.
  injection Henc as <-.
  unfold Service_Encrypt.
  rewrite bind_gets. unfold Wallets_Get. rewrite Hw.
  rewrite Hs at 1.
  rewrite bind_wmodify_store, bind_wread_store, bind_liftRes.
  simpl Wallet_seed. unfold Wallet_seed in Hseed. rewrite Hseed.
  rewrite bind_wmodify_store, bind_wread_store, bind_liftRes.
  simpl Wallet_lastSeed. unfold Wallet_lastSeed in Hlseed. rewrite Hlseed.
  rewrite bind_wmodify_store, bind_wread_store.
  set (w3 := Wallet_setLastSeed lsseed _).
  pose proof (Encrypt_entries_loop_ok wltID password s σ (Entries w) [] es w3
                eq_refl Hes) as Hloop.
  simpl in Hloop. simpl Entries.
  rewrite (bind_run _ _ _ _ _ _ _ Hloop).
  rewrite bind_wread_store, bind_gets, bind_liftErr.
  simpl WalletDirectory.
  destruct (Save _ _ σ) as [[err|] σ1]; [done|].
  destruct (String.eqb (Wallet_Version w) "0.1").
  - rewrite bind_assoc, bind_liftIO. simpl Wallet_Filename.
    destruct (os_Stat _ σ1) as [[] σ2].
    + rewrite bind_liftErr.
      destruct (os_Remove _ σ2) as [[err|] σ3]; [done|].
      by rewrite bind_wread_store.
    + by rewrite bind_ret, bind_wread_store.
    + by rewrite bind_ret, bind_wread_store.
    + done.
  - by rewrite bind_ret, bind_wread_store.
Qed.

(** [CreateWallet] either leaves the registry as it was and fails, or
    registers the new wallet. *)
Lemma CreateWallet_cases fuel wltName options s σ r s' σ' :
  Service_CreateWallet fuel wltName options s σ = (r, s', σ') →
  (s' = s ∧ failed r)
  ∨ (∃ name σ1 w0 e0 σ2,
       let w := (Wallet_GenerateAddresses 1 w0).2 in
       disableWalletAPI s = false
       ∧ walletName fuel wltName s σ = (Ok name, s, σ1)
       ∧ NewWallet name options = Ok w0
       ∧ Entries w !! 0 = Some e0
       ∧ firstAddrIDMap s !! Address_String (Entry_Address e0) = None
       ∧ wallets s !! Wallet_Filename w = None
       ∧ Save (WalletDirectory s) w σ1 = (None, σ2)
       ∧ r = Ok w
       ∧ s' = registered w (Address_String (Entry_Address e0)) s
       ∧ σ' = σ2).
Proof.
  intros Hrun. unfold Service_CreateWallet in Hrun.
  rewrite bind_gets in Hrun.
  destruct (disableWalletAPI s) eqn:Hdis.
  { left. inversion Hrun. by split. }
  fold (walletName fuel wltName) in Hrun.
  destruct (walletName_frame fuel wltName s σ) as (rn & σ1 & Hname).
  rewrite (bind_run _ _ _ _ _ _ _ Hname) in Hrun.
  destruct rn as [name| | |]; try (left; inversion Hrun; by split).
  unfold loadWallet in Hrun. rewrite bind_liftRes in Hrun.
  destruct (NewWallet name options) as [w0| | |] eqn:Hnew;
    try (left; inversion Hrun; by split).
  set (w := (Wallet_GenerateAddresses 1 w0).2) in *.
  unfold index in Hrun.
  destruct (Entries w !! 0) as [e0|] eqn:He0;
    [|left; inversion Hrun; by split].
  rewrite bind_ret, bind_gets in Hrun.
  destruct (firstAddrIDMap s !! Address_String (Entry_Address e0)) as [id|] eqn:Hidx;
    [left; inversion Hrun; by split|].
  simpl andb in Hrun. cbv iota in Hrun. rewrite bind_ret in Hrun.
  destruct (wallets s !! Wallet_Filename w) as [w1|] eqn:Hfree.
  { left. unfold mbind, M_bind, bind, Wallets_Add in Hrun. rewrite Hfree in Hrun.
    inversion Hrun. by split. }
  rewrite (bind_run _ _ _ _ _ _ _ (Wallets_Add_fresh w s σ1 Hfree)) in Hrun.
  rewrite bind_gets in Hrun. simpl WalletDirectory in Hrun.
  destruct (Save (WalletDirectory s) w σ1) as [[err|] σ2] eqn:Hsave.
  - left. rewrite (bind_run _ _ _ _ _ _ _ (try_Save_fails _ _ _ _ _ _ Hsave)) in Hrun.
    unfold mbind, M_bind, bind, modify, throw in Hrun. simpl in Hrun.
    unfold Wallets_Remove, Wallet_GetID, Wallet_Filename in *.
    rewrite delete_insert_id in Hrun by done.
    inversion Hrun. split; [by destruct s | done].
  - right. exists name, σ1, w0, e0, σ2.
    assert (Htry : try (liftErr (Save (WalletDirectory s) w))
                     (store (Wallet_Filename w) w s) σ1
                   = (Ok None, store (Wallet_Filename w) w s, σ2)).
    { unfold try, liftErr. by rewrite Hsave. }
    rewrite (bind_run _ _ _ _ _ _ _ Htry) in Hrun.
    rewrite He0 in Hrun. rewrite bind_ret in Hrun.
    unfold mbind, M_bind, bind, modify, ret in Hrun.
    inversion Hrun; subst. cbv zeta. fold w. repeat split; done.
Qed.

(** [ScanAheadWalletAddresses] either fails and leaves the registry as
    it was, or stores the scanned clone under its filename. *)
Lemma ScanAhead_cases wltName scanN bg s σ r s' σ' :
  Service_ScanAheadWalletAddresses wltName scanN bg s σ = (r, s', σ') →
  (s' = s ∧ failed r)
  ∨ (∃ w w1, wallets s !! wltName = Some w
       ∧ Wallet_ScanAddresses scanN bg w = (Ok tt, w1)
       ∧ Save (WalletDirectory s) w1 σ = (None, σ')
       ∧ r = Ok w1
       ∧ s' = store (Wallet_Filename w1) w1 s).
Proof.
  intros Hrun. unfold Service_ScanAheadWalletAddresses in Hrun.
  destruct (wallets s !! wltName) as [w|] eqn:Hw.
  2:{ rewrite (bind_run _ _ _ _ _ _ _ (getWallet_absent _ _ _ Hw)) in Hrun.
      left. inversion Hrun. by split. }
  assert (Hget : getWallet wltName s σ = (Ok w, s, σ)).
  { unfold getWallet. rewrite bind_gets. unfold Wallets_Get. by rewrite Hw. }
  rewrite (bind_run _ _ _ _ _ _ _ Hget) in Hrun.
  destruct (Wallet_ScanAddresses scanN bg w) as [rs w1] eqn:Hscan.
  rewrite bind_assoc, bind_liftRes in Hrun.
  destruct rs as [[]| | |]; try (left; inversion Hrun; by split).
  rewrite bind_ret, bind_gets, bind_liftErr in Hrun.
  destruct (Save (WalletDirectory s) w1 σ) as [[err|] σ1] eqn:Hsave;
    [left; inversion Hrun; by split|].
  right. exists w, w1.
  unfold Wallets_set, mbind, M_bind, bind, modify, ret in Hrun.
  inversion Hrun; subst. by repeat split.
Qed.

(** What the model of [ScanAddresses] does to a wallet on success. *)
Lemma ScanAddresses_ok scanN bg w w1 :
  Wallet_ScanAddresses scanN bg w = (Ok tt, w1) →
  ∃ extra sd, w1 = Wallet_setLastSeed sd (Wallet_setEntries (Entries w ++ extra) w).
Proof.
  unfold Wallet_ScanAddresses.
  destruct (generate _ _) as [ps| | |]; try done.
  destruct bg as [g|]; try done.
  destruct (GetBalanceOfAddrs g _) as [bals| | |]; try done.
  intros [= <-]. by eexists _, _.
Qed.

(** What the model of [GenerateAddresses] does to a wallet. *)
Lemma GenerateAddresses_cases num w :
  (Wallet_GenerateAddresses num w).2 = w
  ∨ ∃ extra sd, (Wallet_GenerateAddresses num w).2
                = Wallet_setLastSeed sd (Wallet_setEntries (Entries w ++ extra) w).
Proof.
  unfold Wallet_GenerateAddresses.
  destruct (generate _ _) as [ps| | |]; simpl; auto.
  right. by eexists _, _.
Qed.

(** [NewAddresses] stores what [GenerateAddresses] left, whatever the
    outcome of the call. *)
Lemma NewAddresses_state wltID num s σ w r s' σ' :
  wallets s !! wltID = Some w →
  Service_NewAddresses wltID num s σ = (r, s', σ') →
  s' = store wltID (Wallet_GenerateAddresses num w).2 s.
Proof.
  intros Hw Hrun.
  assert (Hs : s = store wltID w s) by (symmetry; by apply store_id).
  unfold Service_NewAddresses in Hrun. rewrite bind_gets in Hrun.
  unfold Wallets_Get in Hrun. rewrite Hw in Hrun. rewrite Hs in Hrun.
  rewrite (bind_run _ _ _ _ _ _ _ (wrun_store _ _ _ _ _)) in Hrun.
  destruct (Wallet_GenerateAddresses num w) as [[addrs| | |] w2]; simpl in *;
    try (by inversion Hrun).
  rewrite bind_wread_store, bind_gets, bind_liftErr in Hrun.
  destruct (Save _ _ σ) as [[err|] σ1]; by inversion Hrun.
Qed.

(** [UpdateWalletLabel] sets the label of the stored wallet, whatever
    the outcome of [Save]. *)
Lemma UpdateWalletLabel_state wltID label s σ w r s' σ' :
  wallets s !! wltID = Some w →
  Service_UpdateWalletLabel wltID label s σ = (r, s', σ') →
  s' = store wltID (Wallet_setLabel label w) s
  ∧ r = match Save (WalletDirectory s) (Wallet_setLabel label w) σ with
        | (Some err, _) => Err err
        | (None, _) => Ok tt
        end
  ∧ σ' = (Save (WalletDirectory s) (Wallet_setLabel label w) σ).2.
Proof.
  intros Hw Hrun. unfold Service_UpdateWalletLabel in Hrun.
  assert (Hupd : Wallets_update wltID (Wallet_setLabel label) s σ
                 = (Ok tt, store wltID (Wallet_setLabel label w) s, σ)).
  { unfold Wallets_update. by rewrite Hw. }
  rewrite (bind_run _ _ _ _ _ _ _ Hupd) in Hrun.
  rewrite bind_wread_store, bind_gets in Hrun. simpl WalletDirectory in Hrun.
  unfold liftErr in Hrun.
  destruct (Save _ _ σ) as [[err|] σ1]; inversion Hrun; by repeat split.
Qed.

Lemma removeDup_in_run (visit : list (string * Wallet)) (wlts : gmap string Wallet) s σ :
  visit ≡ₚ map_to_list wlts →
  firstAddrIDMap s = ∅ →
  ∃ rm idx',
    removeDup_in visit wlts s σ
    = (Ok (foldl (λ m id, Wallets_Remove id m) wlts rm),
       Service_setFirstAddrIDMap idx' s, σ)
    ∧ dedup_inv visit idx' rm.
Proof.
  intros Hperm Hidx0.
  destruct (removeDup_loop_inv wlts σ visit [] [] s) as (rm & idx' & Hrun & Hinv).
  { intros id w. simpl. rewrite Hperm. apply elem_of_map_to_list. }
  { simpl. rewrite Hperm. apply NoDup_fst_map_to_list. }
  { rewrite Hidx0. apply dedup_inv_nil. }
  exists rm, idx'. split; [|done].
  unfold removeDup_in. by rewrite (bind_run _ _ _ _ _ _ _ Hrun).
Qed.

(** The survivors of the pass and the index it builds. *)
Lemma removeDup_in_survivors (visit : list (string * Wallet))
    (wlts : gmap string Wallet) s σ :
  visit ≡ₚ map_to_list wlts →
  firstAddrIDMap s = ∅ →
  ∃ wlts' idx',
    removeDup_in visit wlts s σ = (Ok wlts', Service_setFirstAddrIDMap idx' s, σ)
    ∧ (∀ id w, wlts' !! id = Some w → wlts !! id = Some w)
    ∧ (∀ id w, wlts' !! id = Some w →
         ∃ a, firstAddress w = Some a ∧ idx' !! a = Some id)
    ∧ (∀ a id, idx' !! a = Some id →
         ∃ w, wlts' !! id = Some w ∧ firstAddress w = Some a)
    ∧ (∀ id w a, wlts !! id = Some w → firstAddress w = Some a →
         (∀ id' w', wlts !! id' = Some w' → firstAddress w' = Some a → id' = id) →
         wlts' !! id = Some w).
Proof.
  intros Hperm Hidx0.
  destruct (removeDup_in_run visit wlts s σ Hperm Hidx0) as (rm & idx' & Hrun & Hinv).
  assert (Hin : ∀ id w, (id, w) ∈ visit ↔ wlts !! id = Some w).
  { intros id w. rewrite Hperm. apply elem_of_map_to_list. }
  set (wlts' := foldl (λ m id, Wallets_Remove id m) wlts rm) in *.
  assert (Hlook : ∀ id, wlts' !! id = if decide (id ∈ rm) then None else wlts !! id)
    by apply foldl_Wallets_Remove.
  exists wlts', idx'. split; [done|]. split.
  { intros id w. rewrite Hlook. by case_decide. }
  split.
  { intros id w. rewrite Hlook. destruct (decide (id ∈ rm)) as [|Hn]; [done|].
    intros Hw. apply Hin in Hw.
    destruct (firstAddress w) as [a|] eqn:Ha.
    2:{ exfalso. apply Hn. by apply (inv_empty _ _ _ Hinv id w). }
    exists a. split; [done|].
    destruct (inv_indexed _ _ _ Hinv id w a Hw Ha) as [idk Hidk].
    destruct (inv_winner _ _ _ Hinv a idk Hidk) as (wk & Hwk & Hak & Hrm & Hbest).
    destruct (decide (id = idk)) as [->|Hne]; [done|].
    exfalso. apply Hn. by apply (Hbest id w Hw Ha Hne). }
  split.
  { intros a id Hid.
    destruct (inv_winner _ _ _ Hinv a id Hid) as (w & Hw & Ha & Hrm & _).
    exists w. rewrite Hlook, decide_False by done. split; [by apply Hin | done]. }
  intros id w a Hw Ha Honly. rewrite Hlook.
  pose proof Hw as Hw'. apply Hin in Hw'.
  destruct (inv_indexed _ _ _ Hinv id w a Hw' Ha) as [idk Hidk].
  destruct (inv_winner _ _ _ Hinv a idk Hidk) as (wk & Hwk & Hak & Hrm & _).
  apply Hin in Hwk. rewrite (Honly idk wk Hwk Hak) in Hrm.
  by rewrite decide_False.
Qed.

Lemma firstAddress_sameIdentity w w' :
  sameIdentity w w' → firstAddress w' = firstAddress w.
Proof.
  intros (_ & _ & _ & Hpub). unfold firstAddress.
  apply (f_equal (λ l, l !! 0)) in Hpub. unfold publicPart in Hpub.
  rewrite !list_lookup_fmap in Hpub.
  destruct (Entries w' !! 0), (Entries w !! 0); simpl in *; congruence.
Qed.

Lemma firstAddress_app w a extra sd :
  firstAddress w = Some a →
  firstAddress (Wallet_setLastSeed sd (Wallet_setEntries (Entries w ++ extra) w)) = Some a.
Proof.
  unfold firstAddress. simpl. destruct (Entries w) as [|e es]; [done|]. done.
Qed.

(** Replacing a stored wallet by one of the same filename and first
    address keeps the invariant. *)
Lemma registry_inv_store p w w' s :
  registry_inv s → wallets s !! p = Some w →
  Wallet_Filename w' = Wallet_Filename w →
  firstAddress w' = firstAddress w →
  registry_inv (store p w' s).
Proof.
  intros [Hk Hf] Hw Hname Hfirst. split; intros id w0.
  - destruct (decide (id = p)) as [->|Hne].
    + rewrite lookup_store. intros [= <-]. rewrite Hname. by apply Hk.
    + rewrite lookup_store_ne by done. apply Hk.
  - destruct (decide (id = p)) as [->|Hne].
    + rewrite lookup_store. intros [= <-]. rewrite Hfirst. by apply Hf.
    + rewrite lookup_store_ne by done. apply Hf.
Qed.

Lemma registry_inv_registered w e0 s :
  registry_inv s →
  Entries w !! 0 = Some e0 →
  firstAddrIDMap s !! Address_String (Entry_Address e0) = None →
  registry_inv (registered w (Address_String (Entry_Address e0)) s).
Proof.
  intros [Hk Hf] He0 Hidx. unfold registered. split; intros id w0; simpl.
  - destruct (decide (id = Wallet_Filename w)) as [->|Hne].
    + rewrite lookup_insert_eq. by intros [= <-].
    + rewrite lookup_insert_ne by done. apply Hk.
  - destruct (decide (id = Wallet_Filename w)) as [->|Hne].
    + rewrite lookup_insert_eq. intros [= <-].
      exists (Address_String (Entry_Address e0)). unfold firstAddress.
      rewrite He0. split; [done|]. by rewrite lookup_insert_eq.
    + rewrite lookup_insert_ne by done. intros Hw0.
      destruct (Hf id w0 Hw0) as (a & Ha & Hia). exists a. split; [done|].
      rewrite lookup_insert_ne; [done|]. intros <-. congruence.
Qed.

Lemma ReloadWallets_cases s σ r s' σ' :
  Service_ReloadWallets s σ = (r, s', σ') →
  (s' = s ∧ failed r)
  ∨ (∃ m wlts' idx',
       disableWalletAPI s = false
       ∧ LoadWallets (WalletDirectory s) σ = (Ok m, σ')
       ∧ r = Ok tt
       ∧ s' = Service_setWallets wlts' (Service_setFirstAddrIDMap idx' s)
       ∧ (∀ id w, wlts' !! id = Some w → m !! id = Some w)
       ∧ (∀ id w, wlts' !! id = Some w →
            ∃ a, firstAddress w = Some a ∧ idx' !! a = Some id)
       ∧ (∀ a id, idx' !! a = Some id →
            ∃ w, wlts' !! id = Some w ∧ firstAddress w = Some a)
       ∧ (∀ id w a, m !! id = Some w → firstAddress w = Some a →
            (∀ id' w', m !! id' = Some w' → firstAddress w' = Some a → id' = id) →
            wlts' !! id = Some w)).
Proof.
  intros Hrun. unfold Service_ReloadWallets in Hrun. rewrite bind_gets in Hrun.
  destruct (disableWalletAPI s) eqn:Hdis; [left; inversion Hrun; by split|].
  rewrite bind_gets, bind_liftIO in Hrun.
  destruct (LoadWallets (WalletDirectory s) σ) as [[m| | |] σ1] eqn:Hload;
    try (left; inversion Hrun; by split).
  right.
  destruct (removeDup_in_survivors (rangeOrder m) m (Service_setFirstAddrIDMap ∅ s) σ1
              (rangeOrder_perm m) eq_refl)
    as (wlts' & idx' & Hdd & Hsub & Hfirst & Hexact & Honly).
  fold (removeDup m) in Hdd.
  unfold mbind at 1, M_bind at 1, bind at 1, modify at 1 in Hrun.
  rewrite (bind_run _ _ _ _ _ _ _ Hdd) in Hrun.
  unfold modify in Hrun. inversion Hrun; subst.
  exists m, wlts', idx'. by repeat split.
Qed.

(** Every method keeps the registry invariant. *)
Lemma registry_inv_step s s' :
  loaderKeysByFilename → registry_inv s → step s s' → registry_inv s'.
Proof.
  intros Hload Hinv Hstep.
  destruct Hstep as
    [fuel n o s σ r s' σ' H | n k bg s σ r s' σ' H | id pw s σ r s' σ' H
    | id num s σ r s' σ' H | id s σ r s' σ' H | id s σ r s' σ' H
    | s σ r s' σ' H | s σ r s' σ' H | id req s σ r s' σ' H
    | id l s σ r s' σ' H | id s σ r s' σ' H].
  - apply CreateWallet_cases in H
      as [[-> _]|(name & σ1 & w0 & e0 & σ2 & _ & _ & _ & He0 & Hidx & _ & _ & _ & -> & _)];
      [done|].
    by apply registry_inv_registered.
  - apply ScanAhead_cases in H as [[-> _]|(w & w1 & Hw & Hscan & _ & _ & ->)]; [done|].
    destruct (ScanAddresses_ok _ _ _ _ Hscan) as (extra & sd & ->).
    destruct (reg_first _ Hinv _ _ Hw) as (a & Ha & _).
    change (Wallet_Filename (Wallet_setLastSeed sd
              (Wallet_setEntries (Entries w ++ extra) w))) with (Wallet_Filename w).
    rewrite (reg_keys _ Hinv _ _ Hw).
    apply (registry_inv_store _ w); [done | done | done |].
    rewrite Ha. by apply firstAddress_app.
  - destruct (wallets s !! id) as [w|] eqn:Hw.
    + destruct (Encrypt_frame _ _ _ _ _ _ _ _ Hw H) as (w' & -> & Hsame).
      apply (registry_inv_store _ w); [done | done | |].
      * by destruct Hsame as (? & _).
      * by apply firstAddress_sameIdentity.
    + rewrite Encrypt_absent in H by done. by inversion H; subst.
  - destruct (wallets s !! id) as [w|] eqn:Hw.
    + rewrite (NewAddresses_state _ _ _ _ _ _ _ _ Hw H).
      destruct (GenerateAddresses_cases num w) as [->|(extra & sd & ->)].
      * by rewrite store_id.
      * destruct (reg_first _ Hinv _ _ Hw) as (a & Ha & _).
        apply (registry_inv_store _ w); [done | done | done |].
        rewrite Ha. by apply firstAddress_app.
    + rewrite NewAddresses_absent in H by done. by inversion H; subst.
  - unfold Service_GetAddresses in H. rewrite bind_gets in H.
    destruct (Wallets_Get _ _); inversion H; by subst.
  - unfold Service_GetWallet, getWallet in H. rewrite bind_gets in H.
    destruct (Wallets_Get _ _); inversion H; by subst.
  - inversion H; by subst.
  - apply ReloadWallets_cases in H
      as [[-> _]|(m & wlts' & idx' & _ & Hm & _ & -> & Hsub & Hfirst & _)]; [done|].
    split; simpl.
    + intros id w Hw. apply (Hload _ _ _ _ Hm). by apply Hsub.
    + done.
  - unfold Service_CreateAndSignTransaction in H. rewrite bind_gets in H.
    destruct (Wallets_Get _ _); [|inversion H; by subst].
    unfold liftRes in H. inversion H; by subst.
  - destruct (wallets s !! id) as [w|] eqn:Hw.
    + destruct (UpdateWalletLabel_state _ _ _ _ _ _ _ _ Hw H) as (-> & _).
      by apply (registry_inv_store _ w).
    + rewrite UpdateWalletLabel_absent in H by done. by inversion H; subst.
  - unfold Service_Remove, modify, Wallets_Remove in H. inversion H; subst.
    destruct Hinv as [Hk Hf]. split; simpl; intros id' w.
    + intros Hw. apply lookup_delete_Some in Hw as [_ Hw]. by apply Hk.
    + intros Hw. apply lookup_delete_Some in Hw as [_ Hw]. by apply Hf.
Qed.

(** [NewService] builds a registry with the invariant. *)
Lemma NewService_registry_inv fuel walletDir disable σ s σ' :
  loaderKeysByFilename →
  NewService fuel walletDir disable σ = (Ok s, σ') → registry_inv s.
Proof.
  intros Hload Hnew. unfold NewService in Hnew. simpl in Hnew.
  destruct disable.
  { inversion Hnew. split; simpl; intros id w H; by rewrite lookup_empty in H. }
  destruct (os_MkdirAll walletDir σ) as [[err|] σ1]; [done|].
  destruct (LoadWallets _ σ1) as [[m| | |] σ2] eqn:Hm; try done.
  set (s0 := Service_setWalletDirectory walletDir _) in *.
  destruct (NewService_init fuel m s0 σ2) as [[ri s1] σ3] eqn:Hinit.
  destruct ri as [[]| | |]; try done. inversion Hnew; subst s1 σ3. clear Hnew.
  unfold NewService_init in Hinit.
  destruct (removeDup_in_survivors (rangeOrder m) m s0 σ2 (rangeOrder_perm m) eq_refl)
    as (wlts' & idx' & Hdd & Hsub & Hfirst & _).
  fold (removeDup m) in Hdd.
  rewrite (bind_run _ _ _ _ _ _ _ Hdd) in Hinit.
  unfold mbind at 1, M_bind at 1, bind at 1, modify at 1 in Hinit.
  rewrite bind_gets in Hinit.
  set (s1 := Service_setWallets wlts' (Service_setFirstAddrIDMap idx' s0)) in *.
  assert (Hinv1 : registry_inv s1).
  { split; simpl; [|done].
    intros id w Hw. apply (Hload _ _ _ _ Hm). by apply Hsub. }
  destruct (size (wallets s1) =? 0).
  - rewrite bind_liftIO in Hinit.
    destruct (bip39_NewDefaultMnemomic σ2) as [[seed| | |] σ4]; try done.
    destruct (Service_CreateWallet fuel "" {| Label := "Your Wallet"; Seed := seed |} s1 σ4)
      as [[rc s2] σ5] eqn:Hc.
    rewrite (bind_run _ _ _ _ _ _ _ Hc) in Hinit.
    assert (Hinv2 : registry_inv s2).
    { apply (registry_inv_step s1 s2 Hload Hinv1). by eapply step_CreateWallet. }
    destruct rc as [wc| | |]; try done.
    rewrite bind_gets in Hinit.
    unfold mbind, M_bind, bind, try, liftErr in Hinit.
    destruct (Save _ wc σ5) as [[err|] σ6]; inversion Hinit; by subst.
  - inversion Hinit; by subst.
Qed.

Lemma reachable_registry_inv s :
  loaderKeysByFilename → reachable s → registry_inv s.
Proof.
  intros Hload. induction 1 as [fuel dir dis σ s σ' Hnew | s s' Hr IH Hstep].
  - by eapply NewService_registry_inv.
  - by eapply registry_inv_step.
Qed.

Lemma step_keeps_directory s s' : step s s' → WalletDirectory s' = WalletDirectory s.
Proof.
  intros Hstep.
  destruct Hstep as
    [fuel n o s σ r s' σ' H | n k bg s σ r s' σ' H | id pw s σ r s' σ' H
    | id num s σ r s' σ' H | id s σ r s' σ' H | id s σ r s' σ' H
    | s σ r s' σ' H | s σ r s' σ' H | id req s σ r s' σ' H
    | id l s σ r s' σ' H | id s σ r s' σ' H].
  - apply CreateWallet_cases in H
      as [[-> _]|(name & σ1 & w0 & e0 & σ2 & _ & _ & _ & _ & _ & _ & _ & _ & -> & _)];
      done.
  - apply ScanAhead_cases in H as [[-> _]|(w & w1 & _ & _ & _ & _ & ->)]; done.
  - destruct (wallets s !! id) as [w|] eqn:Hw.
    + by destruct (Encrypt_frame _ _ _ _ _ _ _ _ Hw H) as (w' & -> & _).
    + rewrite Encrypt_absent in H by done. by inversion H; subst.
  - destruct (wallets s !! id) as [w|] eqn:Hw.
    + by rewrite (NewAddresses_state _ _ _ _ _ _ _ _ Hw H).
    + rewrite NewAddresses_absent in H by done. by inversion H; subst.
  - unfold Service_GetAddresses in H. rewrite bind_gets in H.
    destruct (Wallets_Get _ _); inversion H; by subst.
  - unfold Service_GetWallet, getWallet in H. rewrite bind_gets in H.
    destruct (Wallets_Get _ _); inversion H; by subst.
  - inversion H; by subst.
  - apply ReloadWallets_cases in H
      as [[-> _]|(m & wlts' & idx' & _ & _ & _ & -> & _)]; done.
  - unfold Service_CreateAndSignTransaction in H. rewrite bind_gets in H.
    destruct (Wallets_Get _ _); [|inversion H; by subst].
    unfold liftRes in H. inversion H; by subst.
  - destruct (wallets s !! id) as [w|] eqn:Hw.
    + by destruct (UpdateWalletLabel_state _ _ _ _ _ _ _ _ Hw H) as (-> & _).
    + rewrite UpdateWalletLabel_absent in H by done. by inversion H; subst.
  - unfold Service_Remove, modify in H. inversion H; by subst.
Qed.

(** X1: no method call changes the disabled flag or the wallet
    directory of the registry, whatever its arguments and its outcome. *)
Theorem methods_keep_config s s' :
  step s s' →
  disableWalletAPI s' = disableWalletAPI s
  ∧ WalletDirectory s' = WalletDirectory s.
Proof.
  intros Hstep. split; [by apply step_keeps_flag | by apply step_keeps_directory].
Qed.

(** X2: a registry built with the disabled flag stays the registry
    [NewService] returned through any sequence of method calls: no
    wallet, no index entry, the flag set, the directory empty. *)
Theorem disabled_registry_is_empty s :
  reachable s → disableWalletAPI s = true → s = disabledService.
Proof.
  intros Hreach Hdis.
  destruct (reachable_disabled_empty s Hreach Hdis) as [Hw Hi].
  assert (Hdir : WalletDirectory s = "").
  { clear Hw Hi. induction Hreach as [fuel dir dis σ s σ' Hnew | s s' Hr IH Hstep].
    - unfold NewService in Hnew. simpl in Hnew. destruct dis.
      + by inversion Hnew.
      + exfalso.
        destruct (os_MkdirAll dir σ) as [[err|] σ1]; [done|].
        destruct (LoadWallets _ σ1) as [[m| | |] σ2]; try done.
        pose proof (keeps_NewService_init fuel m
                      (Service_setWalletDirectory dir
                         {| wallets := ∅; firstAddrIDMap := ∅;
                            disableWalletAPI := false; WalletDirectory := "" |}) σ2) as Hk.
        destruct (NewService_init _ _ _ _) as [[[[]| | |] s1] σ3]; try done.
        inversion Hnew; subst. simpl in Hk. congruence.
    - rewrite (step_keeps_directory _ _ Hstep). apply IH.
      by rewrite <- (step_keeps_flag _ _ Hstep). }
  destruct s; simpl in *; by subst.
Qed.

(** X3: when [NewService] without the disabled flag returns a
    registry, the directory was created and the wallets were loaded
    without error, the registry is enabled and its directory is the
    given one.  Its wallets are exactly what [removeDup] leaves of the
    loaded ones, with the index [removeDup] built, and the world is the
    one after the load.  Only when [removeDup] leaves none does the
    registry hold another wallet, and then exactly one: the wallet
    [NewWallet] builds under a generated name with the label
    "Your Wallet" and the generated mnemonic as seed, with its one
    generated address indexed, saved once by [CreateWallet] and once
    more by [NewService]. *)
Theorem NewService_enabled_has_wallet fuel walletDir σ s σ' :
  NewService fuel walletDir false σ = (Ok s, σ') →
  disableWalletAPI s = false
  ∧ WalletDirectory s = walletDir
  ∧ ∃ σ1 m σ2 wlts' idx',
      os_MkdirAll walletDir σ = (None, σ1)
      ∧ LoadWallets walletDir σ1 = (Ok m, σ2)
      ∧ removeDup m (enabledService walletDir) σ2
        = (Ok wlts', Service_setFirstAddrIDMap idx' (enabledService walletDir), σ2)
      ∧ (∀ id w, wlts' !! id = Some w → m !! id = Some w)
      ∧ ((wlts' ≠ ∅ ∧ wallets s = wlts' ∧ firstAddrIDMap s = idx' ∧ σ' = σ2)
         ∨ (wlts' = ∅
            ∧ ∃ seed σ3 name σ4 w0 e0 σ5,
                bip39_NewDefaultMnemomic σ2 = (Ok seed, σ3)
                ∧ generateUniqueWalletFilename fuel (enabledService walletDir) σ3
                  = (Ok name, enabledService walletDir, σ4)
                ∧ NewWallet name {| Label := "Your Wallet"; Seed := seed |} = Ok w0
                ∧ Entries (Wallet_GenerateAddresses 1 w0).2 !! 0 = Some e0
                ∧ Save walletDir (Wallet_GenerateAddresses 1 w0).2 σ4 = (None, σ5)
                ∧ Save walletDir (Wallet_GenerateAddresses 1 w0).2 σ5 = (None, σ')
                ∧ wallets s
                  = {[ Wallet_Filename (Wallet_GenerateAddresses 1 w0).2
                       := (Wallet_GenerateAddresses 1 w0).2 ]}
                ∧ firstAddrIDMap s
                  = {[ Address_String (Entry_Address e0)
                       := Wallet_Filename (Wallet_GenerateAddresses 1 w0).2 ]})).
Proof.
  intros Hnew. unfold NewService in Hnew. simpl in Hnew.
  destruct (os_MkdirAll walletDir σ) as [[err|] σ1] eqn:Hmk; [done|].
  destruct (LoadWallets _ σ1) as [[m| | |] σ2] eqn:Hm; try done.
  change (Service_setWalletDirectory walletDir _) with (enabledService walletDir) in Hnew.
  set (s0 := enabledService walletDir) in *.
  destruct (NewService_init fuel m s0 σ2) as [[ri s1] σ3] eqn:Hinit.
  destruct ri as [[]| | |]; try done. inversion Hnew; subst s1 σ3. clear Hnew.
  unfold NewService_init in Hinit.
  destruct (removeDup_in_survivors (rangeOrder m) m s0 σ2 (rangeOrder_perm m) eq_refl)
    as (wlts' & idx' & Hdd & Hsub & _ & Hexact & _).
  fold (removeDup m) in Hdd.
  rewrite (bind_run _ _ _ _ _ _ _ Hdd) in Hinit.
  unfold mbind at 1, M_bind at 1, bind at 1, modify at 1 in Hinit.
  rewrite bind_gets in Hinit.
  set (s1 := Service_setWallets wlts' (Service_setFirstAddrIDMap idx' s0)) in *.
  destruct (size (wallets s1) =? 0) eqn:Hsize.
  - apply Nat.eqb_eq in Hsize. apply map_size_empty_inv in Hsize.
    change (wallets s1) with wlts' in Hsize. subst wlts'.
    assert (idx' = ∅) as ->.
    { apply map_empty. intros a. destruct (idx' !! a) as [id|] eqn:Ha; [|done].
      destruct (Hexact a id Ha) as (w & Hw & _). by rewrite lookup_empty in Hw. }
    change s1 with s0 in *. clear s1.
    rewrite bind_liftIO in Hinit.
    destruct (bip39_NewDefaultMnemomic σ2) as [[seed| | |] σ4] eqn:Hseed; try done.
    destruct (Service_CreateWallet fuel "" {| Label := "Your Wallet"; Seed := seed |} s0 σ4)
      as [[rc s2] σ5] eqn:Hc.
    rewrite (bind_run _ _ _ _ _ _ _ Hc) in Hinit.
    destruct rc as [wc| | |]; try done.
    rewrite bind_gets in Hinit. unfold mbind, M_bind, bind, try, liftErr in Hinit.
    destruct (Save (WalletDirectory s2) wc σ5) as [[err|] σ6] eqn:Hsave2;
      [by inversion Hinit|].
    inversion Hinit; subst s2 σ6. clear Hinit.
    apply CreateWallet_cases in Hc
      as [[_ Hf]|(name & σ7 & w0 & e0 & σ8 & _ & Hname & Hw0 & He0 & _ & _ & Hsave1
                  & Hr & Hs & Hσ)].
    { by destruct (Hf wc). }
    injection Hr as ->. subst σ8.
    unfold walletName in Hname. simpl String.eqb in Hname. cbv iota in Hname.
    rewrite Hs in Hsave2. rewrite Hs.
    split; [done|]. split; [done|].
    exists σ1, m, σ2, ∅, ∅. split; [done|]. split; [done|]. split; [exact Hdd|].
    split; [exact Hsub|]. right. split; [done|].
    exists seed, σ4, name, σ7, w0, e0, σ5.
    split; [done|]. split; [exact Hname|]. split; [exact Hw0|]. split; [exact He0|].
    split; [exact Hsave1|]. split; [exact Hsave2|]. split; reflexivity.
  - inversion Hinit; subst s σ'. clear Hinit.
    split; [done|]. split; [done|].
    exists σ1, m, σ2, wlts', idx'. split; [done|]. split; [done|]. split; [exact Hdd|].
    split; [exact Hsub|]. left. split; [|done].
    intros Hemp. apply Nat.eqb_neq in Hsize. apply Hsize.
    change (wallets s1) with wlts'. rewrite Hemp. apply map_size_empty.
Qed.

(** X4: when one of the first [fuel] generated file names is not the
    id of a stored wallet, [generateUniqueWalletFilename] returns; the
    name it returns is not the id of a stored wallet, so [GetWallet] on
    it fails, and the registry is unchanged. *)
Theorem generateUniqueWalletFilename_fresh fuel j s σ :
  j < fuel →
  wallets s !! (NewWalletFilename (afterNames j σ)).1 = None →
  ∃ name σ1,
    generateUniqueWalletFilename fuel s σ = (Ok name, s, σ1)
    ∧ wallets s !! name = None
    ∧ (∀ σ2, Service_GetWallet name s σ2 = (Err ErrWalletNotExist, s, σ2)).
Proof.
  intros Hj Hfree.
  destruct (generateUnique_terminates fuel j s σ Hj Hfree) as (name & σ1 & Hrun).
  destruct (generateUnique_frame fuel s σ) as (r & σ1' & Hrun' & Hnone).
  rewrite Hrun in Hrun'. inversion Hrun'; subst.
  exists name, σ1'. split; [done|]. split; [by apply Hnone|].
  intros σ2. unfold Service_GetWallet. apply getWallet_absent. by apply Hnone.
Qed.

(** X5: whenever [CreateWallet] returns no wallet (disabled API,
    failure of [NewWallet], duplicate first address, failure of [Add] or
    of [Save]), the registry is exactly as before the call. *)
Theorem CreateWallet_failure_keeps_registry fuel wltName options s σ r s' σ' :
  Service_CreateWallet fuel wltName options s σ = (r, s', σ') →
  failed r →
  s' = s.
Proof.
  intros Hrun Hfail.
  apply CreateWallet_cases in Hrun
    as [[-> _]|(name & σ1 & w0 & e0 & σ2 & _ & _ & _ & _ & _ & _ & _ & -> & _)];
    [done|]. by destruct (Hfail _ eq_refl).
Qed.

(** X6: when the API is enabled, the first address of the new wallet
    is not in the index, its filename is free and saving succeeds,
    [CreateWallet] returns the wallet with its one generated address;
    [GetWallet] on its filename then returns it, the index maps its
    first address to its filename, the wallet count grows by one, and
    no other wallet and no other index entry changes. *)
Theorem CreateWallet_registers fuel wltName options s σ name σ1 w0 e0 σ2 :
  disableWalletAPI s = false →
  walletName fuel wltName s σ = (Ok name, s, σ1) →
  NewWallet name options = Ok w0 →
  Entries (Wallet_GenerateAddresses 1 w0).2 !! 0 = Some e0 →
  firstAddrIDMap s !! Address_String (Entry_Address e0) = None →
  wallets s !! Wallet_Filename (Wallet_GenerateAddresses 1 w0).2 = None →
  Save (WalletDirectory s) (Wallet_GenerateAddresses 1 w0).2 σ1 = (None, σ2) →
  ∃ w s',
    w = (Wallet_GenerateAddresses 1 w0).2
    ∧ Service_CreateWallet fuel wltName options s σ = (Ok w, s', σ2)
    ∧ Service_GetWallet (Wallet_Filename w) s' σ2 = (Ok w, s', σ2)
    ∧ firstAddrIDMap s' !! Address_String (Entry_Address e0) = Some (Wallet_Filename w)
    ∧ size (wallets s') = S (size (wallets s))
    ∧ (∀ id, id ≠ Wallet_Filename w → wallets s' !! id = wallets s !! id)
    ∧ (∀ a, a ≠ Address_String (Entry_Address e0) →
            firstAddrIDMap s' !! a = firstAddrIDMap s !! a).
Proof.
  intros Hen Hname Hnew He0 Hidx Hfree Hsave.
  set (w := (Wallet_GenerateAddresses 1 w0).2) in *.
  exists w, (registered w (Address_String (Entry_Address e0)) s).
  split; [done|]. split.
  { unfold Service_CreateWallet. rewrite bind_gets, Hen.
    fold (walletName fuel wltName).
    rewrite (bind_run _ _ _ _ _ _ _ Hname).
    unfold loadWallet. rewrite bind_liftRes, Hnew. fold w.
    unfold index. rewrite He0. rewrite bind_ret, bind_gets. rewrite Hidx.
    simpl andb. cbv iota. rewrite bind_ret.
    rewrite (bind_run _ _ _ _ _ _ _ (Wallets_Add_fresh w s σ1 Hfree)).
    rewrite bind_gets. simpl WalletDirectory.
    assert (Htry : try (liftErr (Save (WalletDirectory s) w))
                     (store (Wallet_Filename w) w s) σ1
                   = (Ok None, store (Wallet_Filename w) w s, σ2)).
    { unfold try, liftErr. by rewrite Hsave. }
    rewrite (bind_run _ _ _ _ _ _ _ Htry). rewrite He0, bind_ret.
    unfold mbind, M_bind, bind, modify, ret. done. }
  split.
  { unfold Service_GetWallet, getWallet. rewrite bind_gets. unfold Wallets_Get.
    simpl. by rewrite lookup_insert_eq. }
  split; [simpl; by rewrite lookup_insert_eq|].
  split; [simpl; by apply map_size_insert_None|].
  split.
  - intros id Hne. simpl. by rewrite lookup_insert_ne.
  - intros a Hne. simpl. by rewrite lookup_insert_ne.
Qed.

(** X7: after a successful [CreateWallet], a second [CreateWallet]
    whose wallet derives the same first address fails with the
    duplicate error that names the filename of the first wallet,
    whatever name is asked for, and leaves the registry as it is. *)
Theorem CreateWallet_same_seed_twice fuel wltName options s σ w s1 σ1
    fuel' wltName' options' name' σ2 w0' e0 :
  Service_CreateWallet fuel wltName options s σ = (Ok w, s1, σ1) →
  walletName fuel' wltName' s1 σ1 = (Ok name', s1, σ2) →
  NewWallet name' options' = Ok w0' →
  Entries (Wallet_GenerateAddresses 1 w0').2 !! 0 = Some e0 →
  firstAddress w = Some (Address_String (Entry_Address e0)) →
  Service_CreateWallet fuel' wltName' options' s1 σ1
  = (Err (Errorf ("duplicate wallet with " +:+ Wallet_Filename w)), s1, σ2).
Proof.
  intros Hfirst Hname Hnew He0 Hsame.
  apply CreateWallet_cases in Hfirst
    as [[_ Hf]|(name & σ3 & w0 & e1 & σ4 & Hen & _ & _ & He1 & _ & _ & _ & Hr & -> & _)].
  { by destruct (Hf w). }
  injection Hr as ->.
  assert (He : Address_String (Entry_Address e0) = Address_String (Entry_Address e1)).
  { unfold firstAddress in Hsame. rewrite He1 in Hsame. simpl in Hsame. congruence. }
  set (s1 := registered _ _ s) in *.
  assert (Hen1 : disableWalletAPI s1 = false) by done.
  assert (Hidx1 : firstAddrIDMap s1 !! Address_String (Entry_Address e0)
                  = Some (Wallet_Filename (Wallet_GenerateAddresses 1 w0).2)).
  { unfold s1, registered. simpl. by rewrite He, lookup_insert_eq. }
  unfold Service_CreateWallet. rewrite bind_gets, Hen1.
  fold (walletName fuel' wltName').
  rewrite (bind_run _ _ _ _ _ _ _ Hname).
  unfold loadWallet. rewrite bind_liftRes, Hnew.
  unfold index. rewrite He0. rewrite bind_ret, bind_gets.
  by rewrite Hidx1.
Qed.

(** X8: [Remove] does not clean the index.  After the removal of the
    wallet that the index records for an address, [GetWallet] no longer
    finds the wallet, and [CreateWallet] for a wallet with that first
    address still fails as a duplicate of the removed id. *)
Theorem Remove_blocks_recreation wltID fuel wltName options s σ s' name σ1 w0 e0 :
  disableWalletAPI s = false →
  firstAddrIDMap s !! Address_String (Entry_Address e0) = Some wltID →
  Service_Remove wltID s σ = (Ok tt, s', σ) →
  walletName fuel wltName s' σ = (Ok name, s', σ1) →
  NewWallet name options = Ok w0 →
  Entries (Wallet_GenerateAddresses 1 w0).2 !! 0 = Some e0 →
  Service_GetWallet wltID s' σ = (Err ErrWalletNotExist, s', σ)
  ∧ Service_CreateWallet fuel wltName options s' σ
    = (Err (Errorf ("duplicate wallet with " +:+ wltID)), s', σ1).
Proof.
  intros Hen Hidx Hrm Hname Hnew He0.
  unfold Service_Remove, modify in Hrm. injection Hrm as <-.
  split.
  { unfold Service_GetWallet. apply getWallet_absent. simpl.
    unfold Wallets_Remove. apply lookup_delete_eq. }
  set (s1 := Service_setWallets _ s) in *.
  assert (Hen1 : disableWalletAPI s1 = false) by done.
  assert (Hidx1 : firstAddrIDMap s1 !! Address_String (Entry_Address e0) = Some wltID)
    by done.
  unfold Service_CreateWallet. rewrite bind_gets, Hen1.
  fold (walletName fuel wltName).
  rewrite (bind_run _ _ _ _ _ _ _ Hname).
  unfold loadWallet. rewrite bind_liftRes, Hnew.
  unfold index. rewrite He0. rewrite bind_ret, bind_gets.
  by rewrite Hidx1.
Qed.

(** X9: provided [LoadWallets] keys every wallet by its filename, in
    every registry state reached from [NewService] by method calls each
    stored wallet is stored under its filename, has at least one entry,
    and has its first address indexed to its id; two stored wallets
    never share a first address.  [ScanAddresses] and
    [GenerateAddresses] enter as modelled: they only append entries. *)
Theorem registry_invariant s :
  loaderKeysByFilename → reachable s →
  (∀ id w, wallets s !! id = Some w →
     Wallet_Filename w = id
     ∧ Entries w ≠ []
     ∧ ∃ a, firstAddress w = Some a ∧ firstAddrIDMap s !! a = Some id)
  ∧ (∀ id1 w1 id2 w2, wallets s !! id1 = Some w1 → wallets s !! id2 = Some w2 →
       firstAddress w1 = firstAddress w2 → id1 = id2).
Proof.
  intros Hload Hreach.
  destruct (reachable_registry_inv s Hload Hreach) as [Hk Hf]. split.
  - intros id w Hw. split; [by apply Hk|].
    destruct (Hf id w Hw) as (a & Ha & Hi). split; [|by exists a].
    intros Hnil. unfold firstAddress in Ha. by rewrite Hnil in Ha.
  - intros id1 w1 id2 w2 Hw1 Hw2 Heq.
    destruct (Hf id1 w1 Hw1) as (a1 & Ha1 & Hi1).
    destruct (Hf id2 w2 Hw2) as (a2 & Ha2 & Hi2). congruence.
Qed.

(** X10: in a registry state reached from [NewService] by method
    calls, [CreateWallet] for a wallet whose first address is that of a
    stored wallet fails with the duplicate error that names the id of
    the stored wallet, and nothing changes. *)
Theorem CreateWallet_duplicate_of_stored_wallet
    fuel wltName options s σ name σ1 w0 e0 id w :
  loaderKeysByFilename → reachable s →
  wallets s !! id = Some w →
  firstAddress w = Some (Address_String (Entry_Address e0)) →
  walletName fuel wltName s σ = (Ok name, s, σ1) →
  NewWallet name options = Ok w0 →
  Entries (Wallet_GenerateAddresses 1 w0).2 !! 0 = Some e0 →
  Service_CreateWallet fuel wltName options s σ
  = (Err (Errorf ("duplicate wallet with " +:+ id)), s, σ1).
Proof.
  intros Hload Hreach Hw Ha Hname Hnew He0.
  destruct (reachable_registry_inv s Hload Hreach) as [Hk Hf].
  destruct (Hf id w Hw) as (a & Ha' & Hidx).
  assert (a = Address_String (Entry_Address e0)) as -> by congruence.
  assert (Hen : disableWalletAPI s = false).
  { destruct (disableWalletAPI s) eqn:Hd; [|done].
    destruct (reachable_disabled_empty s Hreach Hd) as [_ Hi].
    rewrite Hi in Hidx. by rewrite lookup_empty in Hidx. }
  unfold Service_CreateWallet. rewrite bind_gets, Hen.
  fold (walletName fuel wltName).
  rewrite (bind_run _ _ _ _ _ _ _ Hname).
  unfold loadWallet. rewrite bind_liftRes, Hnew.
  unfold index. rewrite He0. rewrite bind_ret, bind_gets. rewrite Hidx. done.
Qed.


(** X12: when the primitive succeeds on the seed, the last seed and
    every secret key, saving succeeds and the version of the wallet is
    not 0.1, [Encrypt] returns the encrypted wallet and stores it, the
    world is touched by the one [Save] only, and [GetWallet] then
    returns the encrypted wallet. *)
Theorem Encrypt_succeeds (wltID password : string) s σ w w' σ1 :
  wallets s !! wltID = Some w →
  encryptedWallet password w = Some w' →
  Save (WalletDirectory s) w' σ = (None, σ1) →
  Wallet_Version w ≠ "0.1" →
  Service_Encrypt wltID password s σ = (Ok w', store wltID w' s, σ1)
  ∧ Service_GetWallet wltID (store wltID w' s) σ1 = (Ok w', store wltID w' s, σ1).
Proof.
  intros Hw Henc Hsave Hver.
  rewrite (Encrypt_to_Save _ _ _ _ _ _ Hw Henc), Hsave.
  apply String.eqb_neq in Hver. rewrite Hver. split; [done|].
  unfold Service_GetWallet, getWallet. rewrite bind_gets. unfold Wallets_Get.
  by rewrite lookup_store.
Qed.

(** X13: when the primitive succeeds on the seed, the last seed and
    every secret key but [Save] fails, [Encrypt] returns the error of
    [Save], and the wallet stored in the registry is the encrypted one
    all the same: [GetWallet] returns it. *)
Theorem Encrypt_save_failure (wltID password : string) s σ w w' err σ1 :
  wallets s !! wltID = Some w →
  encryptedWallet password w = Some w' →
  Save (WalletDirectory s) w' σ = (Some err, σ1) →
  Service_Encrypt wltID password s σ = (Err err, store wltID w' s, σ1)
  ∧ Service_GetWallet wltID (store wltID w' s) σ1 = (Ok w', store wltID w' s, σ1).
Proof.
  intros Hw Henc Hsave.
  rewrite (Encrypt_to_Save _ _ _ _ _ _ Hw Henc), Hsave. split; [done|].
  unfold Service_GetWallet, getWallet. rewrite bind_gets. unfold Wallets_Get.
  by rewrite lookup_store.
Qed.

(** X14: for a wallet of version 0.1, after a successful [Save],
    [Encrypt] looks up the file named after the wallet with the suffix
    .bak in the wallet directory.  When it does not exist or is a
    directory the call succeeds; when it is a file it is removed, and a
    failure of the removal is the error of the call; when [os.Stat]
    fails otherwise the call panics on the nil file info.  In each case
    the stored wallet is the encrypted one. *)
Theorem Encrypt_legacy_backup (wltID password : string) s σ w w' σ1 st σ2 :
  wallets s !! wltID = Some w →
  encryptedWallet password w = Some w' →
  Save (WalletDirectory s) w' σ = (None, σ1) →
  Wallet_Version w = "0.1" →
  os_Stat (filepath_Join (WalletDirectory s) (Wallet_Filename w +:+ ".bak")) σ1
    = (st, σ2) →
  Service_Encrypt wltID password s σ
  = match st with
    | StatNotExist | StatDir => (Ok w', store wltID w' s, σ2)
    | StatError => (Panic, store wltID w' s, σ2)
    | StatFile =>
      match os_Remove (filepath_Join (WalletDirectory s)
                         (Wallet_Filename w +:+ ".bak")) σ2 with
      | (None, σ3) => (Ok w', store wltID w' s, σ3)
      | (Some err, σ3) => (Err err, store wltID w' s, σ3)
      end
    end.
Proof.
  intros Hw Henc Hsave Hver Hstat.
  rewrite (Encrypt_to_Save _ _ _ _ _ _ Hw Henc), Hsave, Hver. simpl String.eqb.
  rewrite Hstat. by destruct st.
Qed.

Lemma encryptedEntries_lookup password es : ∀ es',
  length es' = length es →
  (∀ i e, es !! i = Some e →
     ∃ sk, Encrypt (Secret e) password = Ok sk ∧ es' !! i = Some (encryptedEntry sk e)) →
  encryptedEntries password es = Some es'.
Proof.
  induction es as [|e es IH]; intros es' Hlen H.
  - destruct es'; [done | simpl in Hlen; lia].
  - destruct es' as [|e' es']; [simpl in Hlen; lia|].
    destruct (H 0 e eq_refl) as (sk & Hsk & He'). simpl in He'. injection He' as ->.
    simpl. rewrite Hsk. rewrite (IH es'); [done | simpl in Hlen; lia |].
    intros i e0 Hi. apply (H (S i) e0 Hi).
Qed.

(** A successful [Encrypt] returns and stores [encryptedWallet]. *)
Lemma Encrypt_Ok_inv (wltID password : string) s σ w nw s' σ' :
  wallets s !! wltID = Some w →
  Service_Encrypt wltID password s σ = (Ok nw, s', σ') →
  encryptedWallet password w = Some nw ∧ s' = store wltID nw s.
Proof.
  intros Hw Hrun.
  assert (Hs : s = store wltID w s) by (symmetry; by apply store_id).
  unfold Service_Encrypt in Hrun.
  rewrite bind_gets in Hrun. unfold Wallets_Get in Hrun. rewrite Hw in Hrun.
  rewrite Hs in Hrun.
  rewrite bind_wmodify_store, bind_wread_store, bind_liftRes in Hrun.
  simpl in Hrun. unfold encryptedWallet, Wallet_seed, Wallet_lastSeed.
  destruct (Encrypt (meta_seed w) password) as [sseed| | |] eqn:Hseed; try done.
  rewrite bind_wmodify_store, bind_wread_store, bind_liftRes in Hrun.
  simpl in Hrun.
  destruct (Encrypt (meta_lastSeed w) password) as [lsseed| | |] eqn:Hlseed; try done.
  rewrite bind_wmodify_store, bind_wread_store in Hrun.
  set (w3 := Wallet_setLastSeed lsseed _) in *.
  destruct (Encrypt_entries_loop wltID password s σ (length (Entries w3)) 0 w3)
    as (rl & es & Hloop & Hlen & _ & Hok); [done|].
  rewrite (bind_run _ _ _ _ _ _ _ Hloop) in Hrun.
  destruct rl as [[]| | |]; try done.
  rewrite (encryptedEntries_lookup password (Entries w) es Hlen).
  2:{ intros i e Hi. apply (Hok eq_refl i e); [lia | done]. }
  rewrite bind_wread_store, bind_gets, bind_liftErr in Hrun.
  destruct (Save _ _ σ) as [[err|] σ1]; [done|].
  destruct (String.eqb (Wallet_Version w) "0.1").
  - rewrite bind_assoc, bind_liftIO in Hrun.
    destruct (os_Stat _ σ1) as [[] σ2].
    + rewrite bind_liftErr in Hrun.
      destruct (os_Remove _ σ2) as [[err|] σ3]; [done|].
      rewrite bind_wread_store in Hrun. by inversion Hrun.
    + rewrite bind_ret, bind_wread_store in Hrun. by inversion Hrun.
    + rewrite bind_ret, bind_wread_store in Hrun. by inversion Hrun.
    + done.
  - rewrite bind_ret, bind_wread_store in Hrun. by inversion Hrun.
Qed.

Lemma encryptedEntries_elem password es es' e :
  encryptedEntries password es = Some es' → e ∈ es' →
  ∃ e0 sk, e0 ∈ es ∧ Encrypt (Secret e0) password = Ok sk ∧ e = encryptedEntry sk e0.
Proof.
  revert es'. induction es as [|e1 es IH]; intros es'; simpl.
  - intros [= <-] H. by apply elem_of_nil in H.
  - destruct (Encrypt (Secret e1) password) as [sk| | |] eqn:Hsk; try done.
    destruct (encryptedEntries password es) as [es''|]; try done.
    intros [= <-] [->|Hin]%elem_of_cons.
    + exists e1, sk. split; [by left | done].
    + destruct (IH es'' eq_refl Hin) as (e0 & sk0 & H0 & H1 & H2).
      exists e0, sk0. split; [by right | done].
Qed.

(** X15: [Encrypt] does not look whether the wallet is encrypted
    already.  After two successful calls on a wallet every entry has the
    zero secret key and, as [EncryptedSeckey], the ciphertext of the
    zero secret key under the second password: the ciphertext of the
    original key is overwritten. *)
Theorem Encrypt_twice_overwrites_keys (wltID pw1 pw2 : string) s σ w w1 s1 σ1 w2 s2 σ2 :
  wallets s !! wltID = Some w →
  Service_Encrypt wltID pw1 s σ = (Ok w1, s1, σ1) →
  Service_Encrypt wltID pw2 s1 σ1 = (Ok w2, s2, σ2) →
  wallets s2 !! wltID = Some w2
  ∧ ∀ e, e ∈ Entries w2 →
      Secret e = zeroSecKey
      ∧ Encrypt zeroSecKey pw2 = Ok (EncryptedSeckey e).
Proof.
  intros Hw H1 H2.
  destruct (Encrypt_Ok_inv _ _ _ _ _ _ _ _ Hw H1) as [He1 ->].
  destruct (Encrypt_Ok_inv _ _ _ _ w1 _ _ _ (lookup_store _ _ _) H2) as [He2 ->].
  split; [apply lookup_store|].
  intros e He.
  unfold encryptedWallet in He1, He2.
  destruct (Encrypt (Wallet_seed w) pw1); try done.
  destruct (Encrypt (Wallet_lastSeed w) pw1); try done.
  destruct (encryptedEntries pw1 (Entries w)) as [es1|] eqn:Hes1; try done.
  injection He1 as <-. simpl in He2.
  destruct (Encrypt _ pw2); try done. destruct (Encrypt _ pw2); try done.
  destruct (encryptedEntries pw2 es1) as [es2|] eqn:Hes2; try done.
  injection He2 as <-. simpl in He.
  destruct (encryptedEntries_elem _ _ _ _ Hes2 He) as (e1 & sk2 & Hin1 & Hsk2 & ->).
  destruct (encryptedEntries_elem _ _ _ _ Hes1 Hin1) as (e0 & sk1 & _ & _ & ->).
  by split.
Qed.

(** X16: when [GenerateAddresses] succeeds and [Save] fails,
    [NewAddresses] returns the error of [Save] and no address, and the
    wallet stored in the registry is the one with the generated
    entries: [GetWallet] and [GetAddresses] return them. *)
Theorem NewAddresses_save_failure wltID num s σ w addrs w' err σ1 :
  wallets s !! wltID = Some w →
  Wallet_GenerateAddresses num w = (Ok addrs, w') →
  Save (WalletDirectory s) w' σ = (Some err, σ1) →
  Service_NewAddresses wltID num s σ = (Err err, store wltID w' s, σ1)
  ∧ Service_GetWallet wltID (store wltID w' s) σ1 = (Ok w', store wltID w' s, σ1)
  ∧ Service_GetAddresses wltID (store wltID w' s) σ1
    = (Ok (Wallet_GetAddresses w'), store wltID w' s, σ1).
Proof.
  intros Hw Hgen Hsave.
  assert (Hs : s = store wltID w s) by (symmetry; by apply store_id).
  split.
  - unfold Service_NewAddresses. rewrite bind_gets. unfold Wallets_Get. rewrite Hw.
    rewrite Hs at 1.
    rewrite (bind_run _ _ _ _ _ _ _ (wrun_store _ _ _ _ _)).
    rewrite Hgen. simpl.
    rewrite bind_wread_store, bind_gets, bind_liftErr. simpl WalletDirectory.
    by rewrite Hsave.
  - split.
    + unfold Service_GetWallet, getWallet. rewrite bind_gets. unfold Wallets_Get.
      by rewrite lookup_store.
    + unfold Service_GetAddresses. rewrite bind_gets. unfold Wallets_Get.
      by rewrite lookup_store.
Qed.

(** X17: [ScanAheadWalletAddresses] works on a clone.  When it
    returns no wallet (unknown wallet, scan error, save error) the
    registry is as before.  When it returns a wallet, that wallet is
    stored under its filename, [Save] had succeeded, and no other
    wallet and no index entry changes. *)
Theorem ScanAhead_all_or_nothing wltName scanN bg s σ r s' σ' :
  Service_ScanAheadWalletAddresses wltName scanN bg s σ = (r, s', σ') →
  (failed r → s' = s)
  ∧ (∀ w1, r = Ok w1 →
       wallets s' !! Wallet_Filename w1 = Some w1
       ∧ (∀ id, id ≠ Wallet_Filename w1 → wallets s' !! id = wallets s !! id)
       ∧ firstAddrIDMap s' = firstAddrIDMap s
       ∧ (Save (WalletDirectory s) w1 σ) = (None, σ')).
Proof.
  intros Hrun.
  apply ScanAhead_cases in Hrun as [[-> Hf]|(w & w1 & Hw & Hscan & Hsave & -> & ->)].
  - split; [done|]. intros w1 ->. by destruct (Hf w1).
  - split; [intros Hf; by destruct (Hf w1)|].
    intros ? [= <-]. rewrite lookup_store. repeat split; try done.
    intros id Hne. by apply lookup_store_ne.
Qed.

(** X18: on loaded wallets that each have an entry and have pairwise
    distinct first addresses, with an empty index at the start,
    [removeDup] removes nothing, whatever the order of the visit, and
    the index it builds maps an address to an id exactly when the
    wallet with that id has that first address. *)
Theorem removeDup_unchanged_without_duplicates (visit : list (string * Wallet))
    (wlts : gmap string Wallet) s σ :
  visit ≡ₚ map_to_list wlts →
  firstAddrIDMap s = ∅ →
  (∀ id w, wlts !! id = Some w → Entries w ≠ []) →
  (∀ id1 w1 id2 w2, wlts !! id1 = Some w1 → wlts !! id2 = Some w2 →
     firstAddress w1 = firstAddress w2 → id1 = id2) →
  ∃ idx',
    removeDup_in visit wlts s σ = (Ok wlts, Service_setFirstAddrIDMap idx' s, σ)
    ∧ (∀ a id, idx' !! a = Some id ↔
               ∃ w, wlts !! id = Some w ∧ firstAddress w = Some a).
Proof.
  intros Hperm Hidx0 Hne Hdist.
  destruct (removeDup_in_survivors visit wlts s σ Hperm Hidx0)
    as (wlts' & idx' & Hrun & Hsub & Hfirst & Hexact & Honly).
  assert (wlts' = wlts) as ->.
  { apply map_eq. intros id. destruct (wlts !! id) as [w|] eqn:Hw.
    - destruct (firstAddress w) as [a|] eqn:Ha.
      + apply (Honly id w a Hw Ha). intros id' w' Hw' Ha'.
        apply (Hdist id' w' id w Hw' Hw). congruence.
      + exfalso. apply (Hne id w Hw). apply firstAddress_None in Ha.
        by destruct (Entries w).
    - destruct (wlts' !! id) as [w|] eqn:Hw'; [|done].
      apply Hsub in Hw'. congruence. }
  exists idx'. split; [done|]. intros a id. split.
  - apply Hexact.
  - intros (w & Hw & Ha). destruct (Hfirst id w Hw) as (a' & Ha' & Hi). congruence.
Qed.

(** X19: when [ReloadWallets] succeeds, the wallets of the registry
    are among the loaded ones and the index is exactly the map from the
    first address of each stored wallet to its id, so entries recorded
    before the reload are gone; every stored wallet has an entry and no
    two share a first address. *)
Theorem ReloadWallets_rebuilds_index s σ s' σ' :
  Service_ReloadWallets s σ = (Ok tt, s', σ') →
  ∃ m, LoadWallets (WalletDirectory s) σ = (Ok m, σ')
     ∧ (∀ id w, wallets s' !! id = Some w → m !! id = Some w)
     ∧ (∀ a id, firstAddrIDMap s' !! a = Some id ↔
                ∃ w, wallets s' !! id = Some w ∧ firstAddress w = Some a)
     ∧ (∀ id w, wallets s' !! id = Some w → Entries w ≠ [])
     ∧ (∀ id1 w1 id2 w2, wallets s' !! id1 = Some w1 → wallets s' !! id2 = Some w2 →
          firstAddress w1 = firstAddress w2 → id1 = id2).
Proof.
  intros Hrun.
  apply ReloadWallets_cases in Hrun
    as [[_ Hf]|(m & wlts' & idx' & _ & Hm & _ & -> & Hsub & Hfirst & Hexact & _)].
  { by destruct (Hf tt). }
  exists m. simpl. split; [done|]. split; [done|]. split.
  { intros a id. split; [apply Hexact|].
    intros (w & Hw & Ha). destruct (Hfirst id w Hw) as (a' & Ha' & Hi). congruence. }
  split.
  - intros id w Hw Hnil. destruct (Hfirst id w Hw) as (a & Ha & _).
    unfold firstAddress in Ha. by rewrite Hnil in Ha.
  - intros id1 w1 id2 w2 Hw1 Hw2 Heq.
    destruct (Hfirst id1 w1 Hw1) as (a1 & Ha1 & Hi1).
    destruct (Hfirst id2 w2 Hw2) as (a2 & Ha2 & Hi2). congruence.
Qed.

(** X20: when [ReloadWallets] fails the registry is as before the
    call; with the disabled flag the error is [ErrWalletApiDisabled]
    and the world is untouched. *)
Theorem ReloadWallets_failure_keeps_registry s σ r s' σ' :
  Service_ReloadWallets s σ = (r, s', σ') →
  failed r →
  s' = s
  ∧ (disableWalletAPI s = true → r = Err ErrWalletApiDisabled ∧ σ' = σ).
Proof.
  intros Hrun Hf. split.
  - apply ReloadWallets_cases in Hrun
      as [[-> _]|(m & wlts' & idx' & _ & _ & -> & _)]; [done|]. by destruct (Hf tt).
  - intros Hdis. unfold Service_ReloadWallets in Hrun.
    rewrite bind_gets, Hdis in Hrun. by inversion Hrun.
Qed.

(** X21: [UpdateWalletLabel] on a stored wallet sets the label in the
    registry whatever [Save] answers: the call returns nil or the error
    of [Save], and in both cases the stored wallet carries the new
    label, while the other wallets and the index are unchanged. *)
Theorem UpdateWalletLabel_sets_label wltID label s σ w r s' σ' :
  wallets s !! wltID = Some w →
  Service_UpdateWalletLabel wltID label s σ = (r, s', σ') →
  wallets s' !! wltID = Some (Wallet_setLabel label w)
  ∧ (∀ id, id ≠ wltID → wallets s' !! id = wallets s !! id)
  ∧ firstAddrIDMap s' = firstAddrIDMap s
  ∧ (r = Ok tt ∨ ∃ err, r = Err err
                        ∧ (Save (WalletDirectory s) (Wallet_setLabel label w) σ).1
                          = Some err).
Proof.
  intros Hw Hrun.
  destruct (UpdateWalletLabel_state _ _ _ _ _ _ _ _ Hw Hrun) as (-> & -> & _).
  rewrite lookup_store. repeat split; try done.
  - intros id Hne. by apply lookup_store_ne.
  - destruct (Save _ _ σ) as [[err|] σ1]; [right; by exists err | by left].
Qed.

Lemma string_app_inj_l (a b c : string) : a +:+ c = b +:+ c → a = b.
Proof.
  revert b. induction a as [|x a IH]; intros b H.
  - destruct b as [|y b]; [done|]. simpl in H.
    apply (f_equal String.length) in H.
    rewrite ?string_length_app in H. simpl in H.
    rewrite ?string_length_app in H. lia.
  - destruct b as [|y b]; simpl in H.
    + apply (f_equal String.length) in H.
      rewrite ?string_length_app in H. simpl in H.
      rewrite ?string_length_app in H. lia.
    + injection H as -> H. f_equal. by apply IH.
Qed.

(** X22: the message of the not-found error that carries an id
    identifies the wallet: different ids give different messages. *)
Theorem ErrWalletNotExist_Error_injective (id1 id2 : string) :
  id1 ≠ id2 →
  Error (ErrWalletNotExistID id1) ≠ Error (ErrWalletNotExistID id2).
Proof.
  intros Hne H. apply Hne. apply (string_app_inj_l _ _ " doesn't exist").
  unfold Error in H. by simplify_eq/=.
Qed.

End Coverage.

(** ** Runs of the further properties *)

Section CoverageRuns.
Import Concrete.
#[local] Existing Instance cCipher.

Lemma NewService_disk :
  @NewService cCipher CWorld dEnv 0 "/wallets" false world0 = (Ok servDisk, worldDisk).
Proof. vm_compute. reflexivity. Qed.

Lemma servDisk_reachable : @reachable cCipher CWorld dEnv servDisk.
Proof. exact (reachable_new 0 "/wallets" false world0 servDisk worldDisk NewService_disk). Qed.

Lemma dEnv_loaderKeysByFilename : @loaderKeysByFilename cCipher CWorld dEnv.
Proof.
  intros dir σ m σ' Hload id w Hw. injection Hload as <- _.
  apply elem_of_map_to_list in Hw.
  assert (H : Forall (λ p, Wallet_Filename p.2 = p.1) (map_to_list diskWallets))
    by (vm_compute; repeat constructor).
  rewrite Forall_forall in H. exact (H (id, w) Hw).
Qed.

(** X1 at a failing [NewAddresses] on [servN]. *)
Lemma methods_keep_config_witness :
  disableWalletAPI (Service_NewAddresses (E := cEnv) "wallet.wlt" 3 servN worldFull).1.2 = false
  ∧ WalletDirectory (Service_NewAddresses (E := cEnv) "wallet.wlt" 3 servN worldFull).1.2
    = "/wallets".
Proof.
  destruct (Service_NewAddresses (E := cEnv) "wallet.wlt" 3 servN worldFull)
    as [[r s'] σ'] eqn:Hrun.
  exact (@methods_keep_config cCipher CWorld cEnv servN s'
           (step_NewAddresses "wallet.wlt" 3%N servN worldFull r s' σ' Hrun)).
Defined.

(** X2 at the disabled registry after a [Remove]. *)
Lemma disabled_registry_is_empty_witness :
  (Service_Remove (World := CWorld) "w1.wlt" servDisabled world0).1.2 = disabledService.
Proof.
  apply (@disabled_registry_is_empty cCipher CWorld cEnv).
  - apply (reachable_step servDisabled); [exact servDisabled_reachable|].
    exact (step_Remove "w1.wlt" servDisabled world0 _ _ _ eq_refl).
  - reflexivity.
Defined.

(** X3 at the directory of [diskWallets]: the registry holds the
    survivors of the loaded wallets and no default wallet. *)
Lemma NewService_enabled_has_wallet_witness :
  NewService (E := dEnv) 0 "/wallets" false world0 = (Ok servDisk, worldDisk)
  ∧ WalletDirectory servDisk = "/wallets"
  ∧ ∃ σ1 σ2 wlts' idx',
      LoadWallets (Env := dEnv) "/wallets" σ1 = (Ok diskWallets, σ2)
      ∧ removeDup (E := dEnv) diskWallets (enabledService "/wallets") σ2
        = (Ok wlts', Service_setFirstAddrIDMap idx' (enabledService "/wallets"), σ2)
      ∧ (∀ id w, wlts' !! id = Some w → diskWallets !! id = Some w).
Proof.
  destruct (@NewService_enabled_has_wallet cCipher CWorld dEnv 0 "/wallets" world0
              servDisk worldDisk NewService_disk)
    as (_ & Hdir & σ1 & m & σ2 & wlts' & idx' & _ & Hload & Hdd & Hsub & _).
  split; [exact NewService_disk|]. split; [exact Hdir|].
  assert (Hm : m = diskWallets) by (injection Hload as <- _; reflexivity).
  subst m. exists σ1, σ2, wlts', idx'.
  split; [exact Hload|]. split; [exact Hdd | exact Hsub].
Defined.

(** X4 at [servN], when the first generated name is taken. *)
Lemma generateUniqueWalletFilename_fresh_witness :
  ∃ name σ1,
    generateUniqueWalletFilename (E := cEnv) 2 servN worldNames = (Ok name, servN, σ1)
    ∧ wallets servN !! name = None.
Proof.
  destruct (@generateUniqueWalletFilename_fresh cCipher CWorld cEnv 2 1 servN worldNames)
    as (name & σ1 & Hrun & Hfree & _).
  - lia.
  - vm_compute. reflexivity.
  - exists name, σ1. split; [exact Hrun | exact Hfree].
Defined.

(** X5 at [servN] with a full disk. *)
Lemma CreateWallet_failure_keeps_registry_witness :
  (Service_CreateWallet (E := cEnv) 1 "second.wlt"
     {| Label := "second"; Seed := "another seed" |} servN worldFull).1.2 = servN.
Proof.
  apply (@CreateWallet_failure_keeps_registry cCipher CWorld cEnv 1 "second.wlt"
           {| Label := "second"; Seed := "another seed" |} servN worldFull
           (Err (Errorf "no space left on device")) _
           (logged "save second.wlt" worldFull)).
  - vm_compute. reflexivity.
  - intros a. discriminate.
Defined.

(** X6 at [servN]: a second wallet of another seed. *)
Lemma CreateWallet_registers_witness :
  ∃ w s' σ',
    Service_CreateWallet (E := cEnv) 1 "second.wlt"
      {| Label := "second"; Seed := "another seed" |} servN world0 = (Ok w, s', σ')
    ∧ Service_GetWallet (World := CWorld) "second.wlt" s' σ' = (Ok w, s', σ')
    ∧ size (wallets s') = 2.
Proof.
  destruct (@CreateWallet_registers cCipher CWorld cEnv 1 "second.wlt"
              {| Label := "second"; Seed := "another seed" |}
              servN world0 "second.wlt" world0
              (freshWallet "second.wlt" "second" "another seed")
              (entryOf "another seed")
              (logged "save second.wlt" world0))
    as (w & s' & Hw & Hrun & Hget & _ & Hsize & _).
  - reflexivity.
  - reflexivity.
  - reflexivity.
  - reflexivity.
  - vm_compute. reflexivity.
  - vm_compute. reflexivity.
  - reflexivity.
  - subst w. eexists _, s', _.
    split; [exact Hrun|]. split; [exact Hget|].
    rewrite Hsize. vm_compute. reflexivity.
Defined.

(** X7 at the registry without wallets. *)
Lemma CreateWallet_same_seed_twice_witness :
  Service_CreateWallet (E := cEnv) 1 "first.wlt"
    {| Label := "first"; Seed := "one seed" |} serv0 world0
  = (Ok firstWallet, registered firstWallet "addr(one seed)" serv0,
     logged "save first.wlt" world0)
  ∧ Service_CreateWallet (E := cEnv) 1 "second.wlt"
      {| Label := "second"; Seed := "one seed" |}
      (registered firstWallet "addr(one seed)" serv0) (logged "save first.wlt" world0)
    = (Err (Errorf "duplicate wallet with first.wlt"),
       registered firstWallet "addr(one seed)" serv0, logged "save first.wlt" world0).
Proof.
  assert (Hfirst : Service_CreateWallet (E := cEnv) 1 "first.wlt"
                     {| Label := "first"; Seed := "one seed" |} serv0 world0
                   = (Ok firstWallet, registered firstWallet "addr(one seed)" serv0,
                      logged "save first.wlt" world0))
    by (vm_compute; reflexivity).
  split; [exact Hfirst|].
  apply (@CreateWallet_same_seed_twice cCipher CWorld cEnv 1 "first.wlt"
           {| Label := "first"; Seed := "one seed" |} serv0 world0 firstWallet
           (registered firstWallet "addr(one seed)" serv0)
           (logged "save first.wlt" world0)
           1 "second.wlt" {| Label := "second"; Seed := "one seed" |}
           "second.wlt" (logged "save first.wlt" world0)
           (freshWallet "second.wlt" "second" "one seed")
           (entryOf "one seed")).
  - exact Hfirst.
  - reflexivity.
  - reflexivity.
  - reflexivity.
  - reflexivity.
Defined.

(** X8 at [servN]: the default wallet is removed and cannot be created again. *)
Lemma Remove_blocks_recreation_witness :
  ∃ s',
    Service_Remove (World := CWorld) "wallet.wlt" servN world0 = (Ok tt, s', world0)
    ∧ Service_GetWallet (World := CWorld) "wallet.wlt" s' world0
      = (Err ErrWalletNotExist, s', world0)
    ∧ Service_CreateWallet (E := cEnv) 1 "again.wlt"
        {| Label := "again"; Seed := "default mnemonic" |} s' world0
      = (Err (Errorf "duplicate wallet with wallet.wlt"), s', world0).
Proof.
  eexists. split; [reflexivity|].
  apply (@Remove_blocks_recreation cCipher CWorld cEnv "wallet.wlt" 1 "again.wlt"
           {| Label := "again"; Seed := "default mnemonic" |}
           servN world0 _ "again.wlt" world0
           (freshWallet "again.wlt" "again" "default mnemonic")
           (entryOf "default mnemonic")).
  - reflexivity.
  - vm_compute. reflexivity.
  - reflexivity.
  - reflexivity.
  - reflexivity.
  - reflexivity.
Defined.

(** X9 at the registry built on the directory of [diskWallets]. *)
Lemma registry_invariant_witness :
  @loaderKeysByFilename cCipher CWorld dEnv
  ∧ @reachable cCipher CWorld dEnv servDisk
  ∧ (∀ id w, wallets servDisk !! id = Some w →
       Wallet_Filename w = id ∧ Entries w ≠ []).
Proof.
  split; [exact dEnv_loaderKeysByFilename|]. split; [exact servDisk_reachable|].
  intros id w Hw.
  destruct (@registry_invariant cCipher CWorld dEnv servDisk
              dEnv_loaderKeysByFilename servDisk_reachable) as [H _].
  destruct (H id w Hw) as (H1 & H2 & _). by split.
Defined.

(** X10 at [servDisk]: a wallet of the seed of a loaded one. *)
Lemma CreateWallet_duplicate_of_stored_wallet_witness :
  Service_CreateWallet (E := dEnv) 1 "copy.wlt"
    {| Label := "copy"; Seed := "shared" |} servDisk world0
  = (Err (Errorf "duplicate wallet with b.wlt"), servDisk, world0).
Proof.
  apply (@CreateWallet_duplicate_of_stored_wallet cCipher CWorld dEnv 1 "copy.wlt"
           {| Label := "copy"; Seed := "shared" |} servDisk world0 "copy.wlt" world0
           (freshWallet "copy.wlt" "copy" "shared") (entryOf "shared")
           "b.wlt" (sharedWallet "b.wlt" 5)).
  - exact dEnv_loaderKeysByFilename.
  - exact servDisk_reachable.
  - vm_compute. reflexivity.
  - vm_compute. reflexivity.
  - reflexivity.
  - reflexivity.
  - reflexivity.
Defined.


(** X12 at the default wallet of [servN]. *)
Lemma Encrypt_succeeds_witness :
  Service_Encrypt (E := cEnv) "wallet.wlt" "pw" servN world0
  = (Ok encryptedDefaultWallet, store "wallet.wlt" encryptedDefaultWallet servN,
     logged "save wallet.wlt" world0).
Proof.
  apply (@Encrypt_succeeds cCipher CWorld cEnv "wallet.wlt" "pw" servN world0
           defaultWallet encryptedDefaultWallet (logged "save wallet.wlt" world0)).
  - vm_compute. reflexivity.
  - vm_compute. reflexivity.
  - reflexivity.
  - vm_compute. discriminate.
Defined.

(** X13 at [serv1] with a full disk. *)
Lemma Encrypt_save_failure_witness :
  Service_Encrypt (E := cEnv) "w1.wlt" "pw" serv1 worldFull
  = (Err (Errorf "no space left on device"),
     store "w1.wlt" encryptedLegacyWallet serv1, logged "save w1.wlt" worldFull)
  ∧ Service_GetWallet (World := CWorld) "w1.wlt"
      (store "w1.wlt" encryptedLegacyWallet serv1) (logged "save w1.wlt" worldFull)
    = (Ok encryptedLegacyWallet, store "w1.wlt" encryptedLegacyWallet serv1,
       logged "save w1.wlt" worldFull).
Proof.
  apply (@Encrypt_save_failure cCipher CWorld cEnv "w1.wlt" "pw" serv1 worldFull
           legacyWallet encryptedLegacyWallet).
  - vm_compute. reflexivity.
  - vm_compute. reflexivity.
  - reflexivity.
Defined.

(** X14 at [serv1] on a directory that holds the backup file. *)
Lemma Encrypt_legacy_backup_witness :
  Service_Encrypt (E := dEnv) "w1.wlt" "pw" serv1 world0
  = (Ok encryptedLegacyWallet, store "w1.wlt" encryptedLegacyWallet serv1,
     logged "remove /wallets/w1.wlt.bak"
       (logged "stat /wallets/w1.wlt.bak" (logged "save w1.wlt" world0))).
Proof.
  apply (@Encrypt_legacy_backup cCipher CWorld dEnv "w1.wlt" "pw" serv1 world0
           legacyWallet encryptedLegacyWallet (logged "save w1.wlt" world0) StatFile
           (logged "stat /wallets/w1.wlt.bak" (logged "save w1.wlt" world0))).
  - vm_compute. reflexivity.
  - vm_compute. reflexivity.
  - reflexivity.
  - reflexivity.
  - reflexivity.
Defined.

(** X15 at [serv1], encrypted with one password and then another. *)
Lemma Encrypt_twice_overwrites_keys_witness :
  ∃ w2 s2 σ2 e,
    Service_Encrypt (E := cEnv) "w1.wlt" "second"
      (store "w1.wlt" encryptedLegacyWallet serv1)
      (logged "stat /wallets/w1.wlt.bak" (logged "save w1.wlt" world0))
    = (Ok w2, s2, σ2)
    ∧ Entries w2 = [e]
    ∧ Encrypt (Env := cEnv) zeroSecKey "second" = Ok (EncryptedSeckey e).
Proof.
  eexists _, _, _, _. split; [vm_compute; reflexivity|]. split; [reflexivity|].
  eapply (@Encrypt_twice_overwrites_keys cCipher CWorld cEnv "w1.wlt" "first" "second"
            serv1 world0 legacyWallet encryptedLegacyWallet).
  - vm_compute. reflexivity.
  - vm_compute. reflexivity.
  - vm_compute. reflexivity.
  - apply list_elem_of_singleton. reflexivity.
Defined.

(** X16 at [servN] with a full disk. *)
Lemma NewAddresses_save_failure_witness :
  Service_NewAddresses (E := cEnv) "wallet.wlt" 2 servN worldFull
  = (Err (Errorf "no space left on device"),
     store "wallet.wlt" (Wallet_GenerateAddresses (E := cEnv) 2 defaultWallet).2 servN,
     logged "save wallet.wlt" worldFull)
  ∧ length (Entries (Wallet_GenerateAddresses (E := cEnv) 2 defaultWallet).2) = 3.
Proof.
  destruct (@NewAddresses_save_failure cCipher CWorld cEnv "wallet.wlt" 2%N servN worldFull
              defaultWallet
              ["addr(next(default mnemonic))"; "addr(next(next(default mnemonic)))"]
              (Wallet_GenerateAddresses (E := cEnv) 2 defaultWallet).2
              (Errorf "no space left on device")
              (logged "save wallet.wlt" worldFull))
    as (Hrun & _ & _).
  - vm_compute. reflexivity.
  - vm_compute. reflexivity.
  - reflexivity.
  - split; [exact Hrun | reflexivity].
Defined.

(** X17 at [servN]: a scan of three addresses with coins on the second. *)
Lemma ScanAhead_all_or_nothing_witness :
  ∃ w1 s' σ',
    Service_ScanAheadWalletAddresses (E := cEnv) "wallet.wlt" 3 (Some bgSecond)
      servN world0 = (Ok w1, s', σ')
    ∧ wallets s' !! Wallet_Filename w1 = Some w1
    ∧ firstAddrIDMap s' = firstAddrIDMap servN.
Proof.
  destruct (Service_ScanAheadWalletAddresses (E := cEnv) "wallet.wlt" 3 (Some bgSecond)
              servN world0) as [[r s'] σ'] eqn:Hrun.
  destruct (@ScanAhead_all_or_nothing cCipher CWorld cEnv "wallet.wlt" 3%N
              (Some bgSecond) servN world0 r s' σ' Hrun) as [_ Hok].
  assert (Hr : ∃ w1, r = Ok w1).
  { vm_compute in Hrun. injection Hrun as <- _ _. by eexists. }
  destruct Hr as [w1 ->].
  destruct (Hok w1 eq_refl) as (H1 & _ & H3 & _).
  exists w1, s', σ'. split; [reflexivity|]. split; [exact H1 | exact H3].
Defined.

Lemma servDisk_nonempty id w : wallets servDisk !! id = Some w → Entries w ≠ [].
Proof.
  intros Hw. apply elem_of_map_to_list in Hw.
  assert (H : Forall (λ p : string * Wallet, Entries p.2 ≠ []) (map_to_list (wallets servDisk)))
    by (vm_compute; repeat constructor; discriminate).
  rewrite Forall_forall in H. exact (H (id, w) Hw).
Qed.

Lemma servDisk_distinct id1 w1 id2 w2 :
  wallets servDisk !! id1 = Some w1 → wallets servDisk !! id2 = Some w2 →
  firstAddress w1 = firstAddress w2 → id1 = id2.
Proof.
  intros H1 H2. apply elem_of_map_to_list in H1, H2.
  assert (H : Forall (λ p : string * Wallet,
               Forall (λ q : string * Wallet,
                  firstAddress p.2 = firstAddress q.2 → p.1 = q.1)
                 (map_to_list (wallets servDisk)))
              (map_to_list (wallets servDisk))).
  { vm_compute. repeat constructor; discriminate. }
  rewrite Forall_forall in H. specialize (H _ H1). rewrite Forall_forall in H.
  exact (H _ H2).
Qed.

(** X18 at the two wallets of [servDisk]. *)
Lemma removeDup_unchanged_without_duplicates_witness :
  ∃ idx',
    removeDup_in (World := CWorld) (map_to_list (wallets servDisk)) (wallets servDisk)
      serv0 world0
    = (Ok (wallets servDisk), Service_setFirstAddrIDMap idx' serv0, world0).
Proof.
  destruct (@removeDup_unchanged_without_duplicates cCipher CWorld
              (map_to_list (wallets servDisk)) (wallets servDisk) serv0 world0
              (reflexivity _) eq_refl servDisk_nonempty servDisk_distinct)
    as (idx' & Hrun & _).
  exists idx'. exact Hrun.
Defined.

(** X19 at the directory of [diskWallets]. *)
Lemma ReloadWallets_rebuilds_index_witness :
  ∃ s' σ',
    Service_ReloadWallets (E := dEnv) serv0 world0 = (Ok tt, s', σ')
    ∧ (∀ id w, wallets s' !! id = Some w → diskWallets !! id = Some w)
    ∧ (∀ id w, wallets s' !! id = Some w → Entries w ≠ []).
Proof.
  destruct (Service_ReloadWallets (E := dEnv) serv0 world0) as [[r s'] σ'] eqn:Hrun.
  assert (Hr : r = Ok tt).
  { vm_compute in Hrun. by injection Hrun as <- _ _. }
  subst r.
  destruct (@ReloadWallets_rebuilds_index cCipher CWorld dEnv serv0 world0 s' σ' Hrun)
    as (m & Hload & Hsub & _ & Hne & _).
  injection Hload as <- _.
  exists s', σ'. split; [reflexivity|]. split; [exact Hsub | exact Hne].
Defined.

(** X20 at the disabled registry. *)
Lemma ReloadWallets_failure_keeps_registry_witness :
  Service_ReloadWallets (E := cEnv) servDisabled world0
  = (Err ErrWalletApiDisabled, servDisabled, world0).
Proof.
  destruct (Service_ReloadWallets (E := cEnv) servDisabled world0)
    as [[r s'] σ'] eqn:Hrun.
  assert (Hr : r = Err ErrWalletApiDisabled).
  { vm_compute in Hrun. by injection Hrun as <- _ _. }
  destruct (@ReloadWallets_failure_keeps_registry cCipher CWorld cEnv
              servDisabled world0 r s' σ' Hrun) as [-> H].
  - rewrite Hr. intros a. discriminate.
  - destruct (H eq_refl) as [-> ->]. reflexivity.
Defined.

(** X21 at [servN]. *)
Lemma UpdateWalletLabel_sets_label_witness :
  ∃ w', wallets (Service_UpdateWalletLabel (E := cEnv) "wallet.wlt" "holiday"
                   servN world0).1.2 !! "wallet.wlt" = Some w'
        ∧ meta_label w' = "holiday".
Proof.
  destruct (Service_UpdateWalletLabel (E := cEnv) "wallet.wlt" "holiday" servN world0)
    as [[r s'] σ'] eqn:Hrun.
  destruct (@UpdateWalletLabel_sets_label cCipher CWorld cEnv "wallet.wlt" "holiday"
              servN world0 defaultWallet r s' σ') as (Hw' & _).
  - vm_compute. reflexivity.
  - exact Hrun.
  - eexists. split; [exact Hw' | reflexivity].
Defined.

(** X22 at two ids. *)
Lemma ErrWalletNotExist_Error_injective_witness :
  Error (ErrWalletNotExistID "w1.wlt") ≠ Error (ErrWalletNotExistID "w2.wlt").
Proof.
  apply ErrWalletNotExist_Error_injective. discriminate.
Defined.

End CoverageRuns.
